(** * VirtualScrollView: windowing, recycling and pull gestures

    A shallow embedding of [assets/vscrollview/VScrollView.ts] (class
    [VirtualScrollView] and its helper [InternalNodePool]) and of the item
    component [VScrollViewItem], together with the properties of the size
    table, slot reconciliation, node pool, pull-to-refresh / load-more state
    machines, programmatic scrolling and item clicks.

    Conventions of the embedding.
    - A JavaScript [number] that holds a length, an offset, a time or a
      velocity is an exact rational ([Q]); rounding error of IEEE doubles, NaN
      and the infinities are outside the model.  A [number] that holds an
      index or a count is an integer ([Z]).
    - Arrays are lists read through [at_] (out of range reads give [None],
      the model of [undefined]).
    - [cc.Node] objects live in a store ([nodes]); a node reference is its
      index in the store, so that two references to one node alias.
    - The methods mutate [this]; here they are functions from [State] to
      [State].  The re-entrant call chain
      [updateItemHeight -> _updateVisible -> _layoutSlots -> _layoutSingleSlot
      -> updateItemHeight] is cut by a recursion budget; [None] means that
      the budget was exhausted. *)

From Stdlib Require Import QArith Qminmax Qabs Qround Lqa ZArith Lia.
From stdpp Require Import base option list gmap.
From Equations Require Import Equations.

Local Open Scope Z_scope.

(** ** JavaScript numbers and arrays *)

Definition Qltb (x y : Q) : bool := negb (Qle_bool y x).

(** [const clamp = (value, min, max) => Math.max(min, Math.min(max, value))] *)
Definition clamp (value min max : Q) : Q := Qmax min (Qmin max value).

Definition clampZ (value min max : Z) : Z := Z.max min (Z.min max value).

(** [Math.round]: the nearest integer, halves towards plus infinity. *)
Definition Math_round (x : Q) : Q := inject_Z (Qfloor (x + (1 # 2))).

(** [arr[i]]: [undefined] ([None]) outside [0 .. length-1]. *)
Definition at_ {A} (l : list A) (i : Z) : option A :=
  if i <? 0 then None else l !! Z.to_nat i.

(** [arr[i] = v] for an index inside the array (every write of the modelled
    methods is guarded by [0 <= i < totalCount] or [s < _slots]). *)
Definition set_at {A} (l : list A) (i : Z) (v : A) : list A :=
  <[Z.to_nat i := v]> l.

(** [arr.splice(start, count)] for [0 <= start]: the removed elements and
    what is left of the array. *)
Definition splice {A} (l : list A) (start count : Z) : list A * list A :=
  let s := Z.to_nat start in
  let c := Z.to_nat count in
  (take c (drop s l), take s l ++ drop (s + c) l).

(** [undefined > pos] and [undefined >= pos] are [false] in JavaScript. *)
Definition js_gt (x : option Q) (y : Q) : bool :=
  match x with Some v => Qltb y v | None => false end.

Definition js_ge (x : option Q) (y : Q) : bool :=
  match x with Some v => Qle_bool y v | None => false end.

(** ** Enumerations *)

Inductive ScrollDirection := VERTICAL | HORIZONTAL.

Module RefreshState.
Inductive t := IDLE | PULLING | READY | REFRESHING | COMPLETE.
#[global] Instance eq_dec : EqDecision t.
Proof. solve_decision. Defined.
End RefreshState.

Module LoadMoreState.
Inductive t := IDLE | PULLING | READY | LOADING | COMPLETE | NO_MORE.
#[global] Instance eq_dec : EqDecision t.
Proof. solve_decision. Defined.
End LoadMoreState.

(** ** Nodes *)

(** What the widget reads and writes of a [cc.Node]: its [active] flag,
    whether it hangs under the content node, its position, content size and
    anchor, and the [dataIndex] of its [VScrollViewItem] component. *)
Record Node := mkNode {
  active : bool;
  inContent : bool;
  destroyed : bool;
  posX : Q;
  posY : Q;
  width : Q;
  height : Q;
  anchorX : Q;
  anchorY : Q;
  dataIndex : Z;
}.

(** A reference to a node: its index in the node store. *)
Abbreviation NodeId := nat (only parsing).

Definition node_set_active (b : bool) (n : Node) : Node :=
  mkNode b (inContent n) (destroyed n) (posX n) (posY n) (width n) (height n)
         (anchorX n) (anchorY n) (dataIndex n).

Definition node_set_parent (b : bool) (n : Node) : Node :=
  mkNode (active n) b (destroyed n) (posX n) (posY n) (width n) (height n)
         (anchorX n) (anchorY n) (dataIndex n).

Definition node_destroy (n : Node) : Node :=
  mkNode (active n) (inContent n) true (posX n) (posY n) (width n) (height n)
         (anchorX n) (anchorY n) (dataIndex n).

Definition node_setPosition (x y : Q) (n : Node) : Node :=
  mkNode (active n) (inContent n) (destroyed n) x y (width n) (height n)
         (anchorX n) (anchorY n) (dataIndex n).

Definition node_setContentSize (w h : Q) (n : Node) : Node :=
  mkNode (active n) (inContent n) (destroyed n) (posX n) (posY n) w h
         (anchorX n) (anchorY n) (dataIndex n).

Definition node_setDataIndex (i : Z) (n : Node) : Node :=
  mkNode (active n) (inContent n) (destroyed n) (posX n) (posY n) (width n)
         (height n) (anchorX n) (anchorY n) i.

(** ** Configuration

    The [@property] fields and the callback slots of the component.  None of
    the modelled methods writes them.  [itemPrefabs] holds the node that
    [cc.instantiate] copies for each type; [renderItemFn] is modelled by its
    effect on the content size of the node it is handed (the only thing the
    widget reads back); the state-change callbacks are modelled by whether
    they are set, their invocations being recorded in the state. *)
Record Config := {
  useVirtualList : bool;
  direction : ScrollDirection;
  useDynamicSize : bool;
  itemPrefabs : list Node;
  itemMainSize : Q;
  itemCrossSize : Q;
  gridCount : Z;
  gridSpacing : Q;
  spacing : Q;
  buffer : Z;
  enablePullRefresh : bool;
  pullRefreshThreshold : Q;
  pullRefreshMaxOffset : Q;
  enableLoadMore : bool;
  loadMoreThreshold : Q;
  loadMoreMaxOffset : Q;
  pullDampingRate : Q;
  pixelAlign : bool;
  inertiaDampK : Q;
  springK : Q;
  springC : Q;
  velocitySnap : Q;
  velocityWindow : Q;
  maxVelocity : Q;
  useIOSDecelerationCurve : bool;
  renderItemFn : option (Z -> Q * Q -> Q * Q);
  getItemHeightFn : option (Z -> Q);
  getItemTypeIndexFn : option (Z -> Z);
  onRefreshStateChangeFn : bool;
  onLoadMoreStateChangeFn : bool;
  Math_exp : Q -> Q;
}.

Definition _isVertical (cfg : Config) : bool :=
  match direction cfg with VERTICAL => true | HORIZONTAL => false end.

(** ** State *)

(** The size table: [_itemSizes], [_prefixPositions] and what
    [_buildPrefixSum] derives from them.  [contentMainSize] is the main-axis
    size of the content node; [rebuilds] counts the prefix-sum rebuilds. *)
Record SizeTable := mkSizeTable {
  _itemSizes : list Q;
  _prefixPositions : list Q;
  _contentSize : Q;
  _boundsMin : Q;
  _boundsMax : Q;
  contentMainSize : Q;
  rebuilds : nat;
}.

(** [InternalNodePool.pools]: a [Map<number, cc.Node[]>]. *)
Record InternalNodePool := mkPool {
  pools : gmap Z (list NodeId);
}.

(** The slots, the pool and the node store.  [renderCalls] and
    [appearCalls] record the invocations of [renderItemFn] and of the appear
    animation hook; [relayouts] counts the runs of [_layoutSlots]. *)
Record Window := mkWindow {
  _slotNodes : list (option NodeId);
  _slotPrefabIndices : list Z;
  _slots : Z;
  _slotFirstIndex : Z;
  _nodePool : option InternalNodePool;
  nodes : list Node;
  _needAnimateIndices : gset Z;
  renderCalls : list (NodeId * Z);
  appearCalls : list (NodeId * Z);
  relayouts : nat;
}.

(** A callback handed to [scheduleOnce] that has not run yet. *)
Inductive Timer := RefreshToIdle | LoadMoreToIdle.

(** The two pull gestures.  [refreshCalls] and [loadMoreCalls] record the
    invocations of [onRefreshStateChangeFn] and [onLoadMoreStateChangeFn],
    oldest first. *)
Record Gesture := mkGesture {
  _refreshState : RefreshState.t;
  _loadMoreState : LoadMoreState.t;
  _pullOffset : Q;
  _loadOffset : Q;
  _isRefreshing : bool;
  _isLoadingMore : bool;
  _hasMore : bool;
  refreshCalls : list (RefreshState.t * Q);
  loadMoreCalls : list (LoadMoreState.t * Q);
  timers : list Timer;
}.

(** A drag sample [{ t, delta }]. *)
Record VelSample := mkSample { t : Q; delta : Q }.

(** Scroll position ([content.y] or [content.x]) and motion. *)
Record Motion := mkMotion {
  contentPos : Q;
  _velocity : Q;
  _isTouching : bool;
  _velSamples : list VelSample;
  _scrollTween : bool;
}.

Record State := mkState {
  totalCount : Z;
  _viewportSize : Q;
  tbl : SizeTable;
  win : Window;
  ges : Gesture;
  mot : Motion;
}.

Definition with_tbl (st : State) (x : SizeTable) : State :=
  mkState (totalCount st) (_viewportSize st) x (win st) (ges st) (mot st).

Definition with_win (st : State) (x : Window) : State :=
  mkState (totalCount st) (_viewportSize st) (tbl st) x (ges st) (mot st).

Definition with_ges (st : State) (x : Gesture) : State :=
  mkState (totalCount st) (_viewportSize st) (tbl st) (win st) x (mot st).

Definition with_mot (st : State) (x : Motion) : State :=
  mkState (totalCount st) (_viewportSize st) (tbl st) (win st) (ges st) x.

(** ** Size table *)

(** The loop of [_buildPrefixSum] and of [_rebuildPrefixSumFrom]: from the
    running sum [acc], the positions of the items of [sizes] and the final
    value of [acc]. *)
Fixpoint prefix_loop (spacing : Q) (acc : Q) (sizes : list Q) : list Q * Q :=
  match sizes with
  | [] => ([], acc)
  | s :: rest =>
      let '(ps, acc') := prefix_loop spacing (acc + (s + spacing))%Q rest in
      (acc :: ps, acc')
  end.

(** The tail shared by both rebuilds: content size, content node size and
    bounds from the final [acc]. *)
Definition finish_rebuild (cfg : Config) (st : State) (sizes positions : list Q)
    (acc : Q) : State :=
  let cs := (acc - spacing cfg)%Q in
  let cs := if Qltb cs 0 then 0%Q else cs in
  let over := Qmax 0 (cs - _viewportSize st) in
  with_tbl st
    (mkSizeTable sizes positions cs
       (if _isVertical cfg then 0%Q else (- over)%Q)
       (if _isVertical cfg then over else 0%Q)
       (Qmax cs (_viewportSize st))
       (S (rebuilds (tbl st)))).

Definition _buildPrefixSum (cfg : Config) (st : State) : State :=
  let '(ps, acc) := prefix_loop (spacing cfg) 0 (_itemSizes (tbl st)) in
  finish_rebuild cfg st (_itemSizes (tbl st)) ps acc.

Definition _rebuildPrefixSumFrom (cfg : Config) (startIndex : Z) (st : State) : State :=
  if startIndex =? 0 then _buildPrefixSum cfg st
  else
    let sizes := _itemSizes (tbl st) in
    let positions := _prefixPositions (tbl st) in
    let k := Z.to_nat startIndex in
    let acc :=
      (default 0%Q (at_ positions (startIndex - 1))
       + default 0%Q (at_ sizes (startIndex - 1)) + spacing cfg)%Q in
    let '(ps, acc') := prefix_loop (spacing cfg) acc (drop k sizes) in
    finish_rebuild cfg st sizes (take k positions ++ ps) acc'.

(** The [while (l <= r)] loop of [_posToFirstIndex]. *)
Equations? posToFirstIndex_loop (positions : list Q) (pos : Q) (l r ans : Z) : Z
  by wf (Z.to_nat (r + 1 - l)) lt :=
  posToFirstIndex_loop positions pos l r ans with Z_le_gt_dec l r := {
    | left _ =>
        let m := Z.shiftr (l + r) 1 in
        if js_gt (at_ positions m) pos
        then posToFirstIndex_loop positions pos l (m - 1) m
        else posToFirstIndex_loop positions pos (m + 1) r ans
    | right _ => ans }.
Proof.
  all: pose proof (Z.shiftr_div_pow2 (l + r) 1 ltac:(lia)) as Hs;
       change (2 ^ 1) with 2 in Hs.
  all: pose proof (Z.div_mod (l + r) 2 ltac:(lia));
       pose proof (Z.mod_pos_bound (l + r) 2 ltac:(lia)).
  all: subst m; lia.
Qed.

Definition _posToFirstIndex (st : State) (pos : Q) : Z :=
  if Qle_bool pos 0 then 0
  else
    let positions := _prefixPositions (tbl st) in
    Z.max 0
      (posToFirstIndex_loop positions pos 0 (Z.of_nat (length positions) - 1)
         (Z.of_nat (length positions)) - 1).

(** The [while (end < n)] loop of [_calcVisibleRange]. *)
Equations? visibleEnd_loop (positions : list Q) (endPos : Q) (n end_ : Z) : Z
  by wf (Z.to_nat (n - end_)) lt :=
  visibleEnd_loop positions endPos n end_ with Z_lt_ge_dec end_ n := {
    | left _ =>
        if js_ge (at_ positions end_) endPos then end_
        else visibleEnd_loop positions endPos n (end_ + 1)
    | right _ => end_ }.
Proof. lia. Qed.

Definition _calcVisibleRange (cfg : Config) (st : State) (scrollPos : Q) : Z * Z :=
  let positions := _prefixPositions (tbl st) in
  let n := Z.of_nat (length positions) in
  if n =? 0 then (0, 0)
  else
    let start := _posToFirstIndex st scrollPos in
    let endPos := (scrollPos + _viewportSize st)%Q in
    let end_ := visibleEnd_loop positions endPos n start in
    (Z.max 0 (start - buffer cfg), Z.min n (end_ + buffer cfg)).

(** ** InternalNodePool

    Each idle list is kept with the node pushed last at its head, so that
    [push] is [cons] and [pop] takes the head. *)

(** [new InternalNodePool(prefabs)]: one empty list per prefab index. *)
Definition InternalNodePool_new (prefabs : list Node) : InternalNodePool :=
  mkPool (list_to_map ((fun i => (i, @nil NodeId)) <$> seqZ 0 (Z.of_nat (length prefabs)))).

(** [get(typeIndex)]: the node handed out ([None] is [null]), the pool and
    the node store afterwards. *)
Definition InternalNodePool_get (cfg : Config) (typeIndex : Z)
    (p : InternalNodePool) (ns : list Node)
    : option NodeId * InternalNodePool * list Node :=
  match pools p !! typeIndex with
  | None => (None, p, ns)
  | Some (node :: rest) =>
      (Some node, mkPool (<[typeIndex := rest]> (pools p)),
       alter (node_set_active true) node ns)
  | Some [] =>
      match at_ (itemPrefabs cfg) typeIndex with
      | Some template => (Some (length ns), p, ns ++ [template])
      | None => (None, p, ns)
      end
  end.

(** [put(node, typeIndex)] *)
Definition InternalNodePool_put (node : option NodeId) (typeIndex : Z)
    (p : InternalNodePool) (ns : list Node) : InternalNodePool * list Node :=
  match node with
  | None => (p, ns)
  | Some n =>
      match pools p !! typeIndex with
      | None => (p, alter node_destroy n ns)
      | Some l =>
          (mkPool (<[typeIndex := n :: l]> (pools p)),
           alter (fun x => node_set_parent false (node_set_active false x)) n ns)
      end
  end.

(** ** Windowing engine *)

(** [this._slotNodes[slot]], with [null] and [undefined] both [None]. *)
Definition slotNode (w : Window) (slot : Z) : option NodeId :=
  mjoin (at_ (_slotNodes w) slot).

Definition _getNodeMainSize (cfg : Config) (n : Node) : Q :=
  if _isVertical cfg then height n else width n.

(** [if (node) node.active = false] *)
Definition deactivate (node : option NodeId) (st : State) : State :=
  match node with
  | None => st
  | Some n =>
      let w := win st in
      with_win st
        (mkWindow (_slotNodes w) (_slotPrefabIndices w) (_slots w) (_slotFirstIndex w)
           (_nodePool w) (alter (node_set_active false) n (nodes w))
           (_needAnimateIndices w) (renderCalls w) (appearCalls w) (relayouts w))
  end.

(** Replace the node store, the render log and the animation bookkeeping. *)
Definition with_nodes (st : State) (ns : list Node) : State :=
  let w := win st in
  with_win st
    (mkWindow (_slotNodes w) (_slotPrefabIndices w) (_slots w) (_slotFirstIndex w)
       (_nodePool w) ns (_needAnimateIndices w) (renderCalls w) (appearCalls w)
       (relayouts w)).

(** [if (this.renderItemFn) this.renderItemFn(node, idx)] *)
Definition render (cfg : Config) (n : NodeId) (idx : Z) (st : State) : State :=
  match renderItemFn cfg with
  | None => st
  | Some r =>
      let w := win st in
      with_win st
        (mkWindow (_slotNodes w) (_slotPrefabIndices w) (_slots w) (_slotFirstIndex w)
           (_nodePool w)
           (alter (fun x => let '(w', h') := r idx (width x, height x) in
                            node_setContentSize w' h' x) n (nodes w))
           (_needAnimateIndices w) (renderCalls w ++ [(n, idx)]) (appearCalls w)
           (relayouts w))
  end.

(** [if (this._needAnimateIndices.has(idx)) { play...(node, idx); delete(idx) }] *)
Definition appear (n : NodeId) (idx : Z) (st : State) : State :=
  let w := win st in
  if bool_decide (idx ∈ _needAnimateIndices w) then
    with_win st
      (mkWindow (_slotNodes w) (_slotPrefabIndices w) (_slots w) (_slotFirstIndex w)
         (_nodePool w) (nodes w) (_needAnimateIndices w ∖ {[idx]}) (renderCalls w)
         (appearCalls w ++ [(n, idx)]) (relayouts w))
  else st.

(** [_updateItemClickHandler(node, index)]: of what it does, the model keeps
    [itemScript.setDataIndex(index)]. *)
Definition _updateItemClickHandler (cfg : Config) (n : NodeId) (index : Z)
    (st : State) : State :=
  if negb (useVirtualList cfg) then st
  else with_nodes st (alter (node_setDataIndex index) n (nodes (win st))).

Definition align (cfg : Config) (x : Q) : Q :=
  if pixelAlign cfg then Math_round x else x.

(** [getItemTypeIndexFn ? getItemTypeIndexFn(idx) : 0] *)
Definition targetType (cfg : Config) (idx : Z) : Z :=
  match getItemTypeIndexFn cfg with Some f => f idx | None => 0 end.

(** The first part of the dynamic branch of [_layoutSingleSlot]: the node
    that will show the item.  [None] is the early [return] after
    [console.error]; the state is returned in both cases. *)
Definition acquireSlotNode (cfg : Config) (idx slot : Z) (st : State)
    : option NodeId * State :=
  let w := win st in
  let targetPrefabIndex := targetType cfg idx in
  let currentPrefabIndex := at_ (_slotPrefabIndices w) slot in
  if bool_decide (currentPrefabIndex = Some targetPrefabIndex)
     && bool_decide (is_Some (slotNode w slot))
  then (slotNode w slot, st)
  else
    match _nodePool w with
    | None => (None, st)
    | Some pool =>
        let '(pool1, ns1) :=
          match slotNode w slot, currentPrefabIndex with
          | Some old, Some c =>
              if 0 <=? c then InternalNodePool_put (Some old) c pool (nodes w)
              else (pool, nodes w)
          | _, _ => (pool, nodes w)
          end in
        let '(got, pool2, ns2) := InternalNodePool_get cfg targetPrefabIndex pool1 ns1 in
        match got with
        | None =>
            (None,
             with_win st
               (mkWindow (_slotNodes w) (_slotPrefabIndices w) (_slots w)
                  (_slotFirstIndex w) (Some pool2) ns2 (_needAnimateIndices w)
                  (renderCalls w) (appearCalls w) (relayouts w)))
        | Some newNode =>
            (Some newNode,
             with_win st
               (mkWindow (set_at (_slotNodes w) slot (Some newNode))
                  (set_at (_slotPrefabIndices w) slot targetPrefabIndex) (_slots w)
                  (_slotFirstIndex w) (Some pool2)
                  (alter (node_set_parent true) newNode ns2) (_needAnimateIndices w)
                  (renderCalls w) (appearCalls w) (relayouts w)))
        end
    end.

(** The size that the dynamic branch compares the table against after the
    render callback ran, when it disagrees with the table: [expectedSize]
    from [getItemHeightFn], else the measured [actualSize]. *)
Definition sizeCorrection (cfg : Config) (n : NodeId) (idx : Z) (st : State)
    : option Q :=
  let stored := at_ (_itemSizes (tbl st)) idx in
  match getItemHeightFn cfg with
  | Some f =>
      let expectedSize := f idx in
      match stored with
      | Some s => if Qeq_bool s expectedSize then None else Some expectedSize
      | None => Some expectedSize
      end
  | None =>
      match nodes (win st) !! n, stored with
      | Some node, Some s =>
          let actualSize := _getNodeMainSize cfg node in
          if Qltb 1 (Qabs (s - actualSize)) then Some actualSize else None
      | _, _ => None
      end
  end.

(** [newNode.setPosition(...)] of the dynamic branch. *)
Definition placeDynamic (cfg : Config) (n : NodeId) (idx : Z) (st : State) : State :=
  let size := default 0%Q (at_ (_itemSizes (tbl st)) idx) in
  let itemStart := default 0%Q (at_ (_prefixPositions (tbl st)) idx) in
  with_nodes st
    (alter (fun x =>
              if _isVertical cfg then
                let anchorOffsetY := (size * (1 - anchorY x))%Q in
                let nodeY := (itemStart + anchorOffsetY)%Q in
                node_setPosition 0 (align cfg (- nodeY)) x
              else
                let anchorOffsetX := (size * anchorX x)%Q in
                let nodeX := (itemStart + anchorOffsetX)%Q in
                node_setPosition (align cfg nodeX) 0 x)
       n (nodes (win st))).

(** Position and size of the fixed-size (grid) branch. *)
Definition placeFixed (cfg : Config) (n : NodeId) (idx : Z) (st : State) : State :=
  let stride := (itemMainSize cfg + spacing cfg)%Q in
  let line := Qfloor (inject_Z idx / inject_Z (gridCount cfg)) in
  let gridPos := Z.rem idx (gridCount cfg) in
  let itemStart := (inject_Z line * stride)%Q in
  let total :=
    (inject_Z (gridCount cfg) * itemCrossSize cfg
     + inject_Z (gridCount cfg - 1) * gridSpacing cfg)%Q in
  with_nodes st
    (alter (fun x =>
              if _isVertical cfg then
                let anchorOffsetY := (itemMainSize cfg * (1 - anchorY x))%Q in
                let nodeY := (itemStart + anchorOffsetY)%Q in
                let y := (- nodeY)%Q in
                let x' := (inject_Z gridPos * (itemCrossSize cfg + gridSpacing cfg)
                           - total / 2 + itemCrossSize cfg / 2)%Q in
                node_setContentSize (itemCrossSize cfg) (itemMainSize cfg)
                  (node_setPosition (align cfg x') (align cfg y) x)
              else
                let anchorOffsetX := (itemMainSize cfg * anchorX x)%Q in
                let nodeX := (itemStart + anchorOffsetX)%Q in
                let y := (total / 2 - inject_Z gridPos * (itemCrossSize cfg + gridSpacing cfg)
                          - itemCrossSize cfg / 2)%Q in
                node_setContentSize (itemMainSize cfg) (itemCrossSize cfg)
                  (node_setPosition (align cfg nodeX) (align cfg y) x))
       n (nodes (win st))).

(** [moved = arr.splice(0, absDiff); arr.push(...moved)] when [diff > 0],
    [moved = arr.splice(arr.length + diff, absDiff); arr.unshift(...moved)]
    otherwise. *)
Definition rotate_array {A} (diff : Z) (l : list A) : list A :=
  let absDiff := Z.abs diff in
  if 0 <? diff then
    let '(moved, rest) := splice l 0 absDiff in rest ++ moved
  else
    let '(moved, rest) := splice l (Z.of_nat (length l) + diff) absDiff in
    moved ++ rest.

(** A [for] loop whose body may exhaust the recursion budget. *)
Fixpoint for_each {A} (body : A -> State -> option State) (l : list A)
    (st : State) : option State :=
  match l with
  | [] => Some st
  | x :: rest => st' ← body x st; for_each body rest st'
  end.

Section Layout.
(** The methods below call [updateItemHeight], which calls them back: they
    take it as [upd]; the knot is tied in [updateItemHeight]. *)
Variable upd : Z -> option Q -> State -> option State.
Variable cfg : Config.

(** [_layoutSingleSlot(node, idx, slot)].  It is declared [async] but has
    no [await]: its body runs to completion inside the call. *)
Definition _layoutSingleSlot (node : option NodeId) (idx slot : Z) (st : State)
    : option State :=
  if negb (useVirtualList cfg) then Some st
  else if useDynamicSize cfg then
    match acquireSlotNode cfg idx slot st with
    | (None, st1) => Some st1
    | (Some newNode, st1) =>
        let st2 := with_nodes st1 (alter (node_set_active true) newNode (nodes (win st1))) in
        let st3 := _updateItemClickHandler cfg newNode idx st2 in
        let st4 := render cfg newNode idx st3 in
        match sizeCorrection cfg newNode idx st4 with
        | Some size => upd idx (Some size) st4
        | None => Some (appear newNode idx (placeDynamic cfg newNode idx st4))
        end
    end
  else
    match node with
    | None => Some st
    | Some n =>
        let st1 := with_nodes st (alter (node_set_active true) n (nodes (win st))) in
        let st2 := placeFixed cfg n idx st1 in
        let st3 := _updateItemClickHandler cfg n idx st2 in
        let st4 := render cfg n idx st3 in
        Some (appear n idx st4)
    end.

(** The body of the loop of [_layoutSlots]. *)
Definition layoutSlots_body (firstIndex : Z) (s : Z) (st : State) : option State :=
  let idx := firstIndex + s in
  let node := slotNode (win st) s in
  if totalCount st <=? idx then Some (deactivate node st)
  else _layoutSingleSlot node idx s st.

Definition count_relayout (st : State) : State :=
  let w := win st in
  with_win st
    (mkWindow (_slotNodes w) (_slotPrefabIndices w) (_slots w) (_slotFirstIndex w)
       (_nodePool w) (nodes w) (_needAnimateIndices w) (renderCalls w)
       (appearCalls w) (S (relayouts w))).

(** [_layoutSlots(firstIndex, forceRender)].  No method called from the
    loop writes [_slots], so the bound is read once. *)
Definition _layoutSlots (firstIndex : Z) (st : State) : option State :=
  if negb (useVirtualList cfg) then Some st
  else for_each (layoutSlots_body firstIndex) (seqZ 0 (_slots (win st)))
         (count_relayout st).

(** The first index that [_updateVisible] computes from the scroll
    position. *)
Definition newFirstIndex (st : State) : Z :=
  let scrollPos := contentPos (mot st) in
  let searchPos :=
    if _isVertical cfg then clamp scrollPos 0 (_contentSize (tbl st))
    else clamp (- scrollPos) 0 (_contentSize (tbl st)) in
  let newFirst :=
    if useDynamicSize cfg then fst (_calcVisibleRange cfg st searchPos)
    else
      let stride := (itemMainSize cfg + spacing cfg)%Q in
      let firstLine := Qfloor (searchPos / stride) in
      let first := firstLine * gridCount cfg in
      clampZ first 0 (Z.max 0 (totalCount st - 1)) in
  if totalCount st <? _slots (win st) then 0 else newFirst.

Definition set_slotFirstIndex (i : Z) (st : State) : State :=
  let w := win st in
  with_win st
    (mkWindow (_slotNodes w) (_slotPrefabIndices w) (_slots w) i (_nodePool w)
       (nodes w) (_needAnimateIndices w) (renderCalls w) (appearCalls w)
       (relayouts w)).

(** The two [splice] / [push] or [unshift] pairs of the incremental path,
    and the assignment of [_slotFirstIndex] that follows them. *)
Definition rotateSlots (diff newFirst : Z) (st : State) : State :=
  let w := win st in
  with_win st
    (mkWindow (rotate_array diff (_slotNodes w))
       (if useDynamicSize cfg && (0 <? Z.of_nat (length (_slotPrefabIndices w)))
        then rotate_array diff (_slotPrefabIndices w) else _slotPrefabIndices w)
       (_slots w) newFirst (_nodePool w) (nodes w) (_needAnimateIndices w)
       (renderCalls w) (appearCalls w) (relayouts w)).

(** The body of the loops that rebind the newly exposed slots;
    [_slotFirstIndex] and [_slots] are read in every iteration. *)
Definition exposed_body (diff : Z) (i : Z) (st : State) : option State :=
  let absDiff := Z.abs diff in
  let slot := if 0 <? diff then _slots (win st) - absDiff + i else i in
  let idx := _slotFirstIndex (win st) + slot in
  if totalCount st <=? idx then Some (deactivate (slotNode (win st) slot) st)
  else _layoutSingleSlot (slotNode (win st) slot) idx slot st.

(** [_updateVisible(force)] once [newFirst] is known. *)
Definition reconcile (force : bool) (newFirst : Z) (st : State) : option State :=
  if force then _layoutSlots newFirst (set_slotFirstIndex newFirst st)
  else
    let diff := newFirst - _slotFirstIndex (win st) in
    if diff =? 0 then Some st
    else if _slots (win st) <=? Z.abs diff then
      _layoutSlots newFirst (set_slotFirstIndex newFirst st)
    else
      for_each (exposed_body diff) (seqZ 0 (Z.abs diff))
        (rotateSlots diff newFirst st).

Definition _updateVisible (force : bool) (st : State) : option State :=
  if negb (useVirtualList cfg) then Some st
  else reconcile force (newFirstIndex st) st.
End Layout.

(** [updateItemHeight(index, newSize?)] with a recursion budget. *)
Fixpoint updateItemHeight (fuel : nat) (cfg : Config) (index : Z)
    (newSize : option Q) (st : State) : option State :=
  match fuel with
  | O => None
  | S fuel' =>
      if negb (useDynamicSize cfg) then Some st
      else if (index <? 0) || (totalCount st <=? index) then Some st
      else
        let size :=
          match newSize with
          | Some x => Some x
          | None => match getItemHeightFn cfg with Some f => Some (f index) | None => None end
          end in
        match size with
        | None => Some st
        | Some size =>
            let same :=
              match at_ (_itemSizes (tbl st)) index with
              | Some s => Qeq_bool s size
              | None => false
              end in
            if same then Some st
            else
              let tb := tbl st in
              let st1 :=
                with_tbl st
                  (mkSizeTable (set_at (_itemSizes tb) index size) (_prefixPositions tb)
                     (_contentSize tb) (_boundsMin tb) (_boundsMax tb)
                     (contentMainSize tb) (rebuilds tb)) in
              let st2 := _rebuildPrefixSumFrom cfg index st1 in
              _updateVisible (updateItemHeight fuel' cfg) cfg true st2
        end
  end.

(** The methods of the windowing engine at a given budget. *)
Definition updateVisible (fuel : nat) (cfg : Config) (force : bool) (st : State)
    : option State :=
  _updateVisible (updateItemHeight fuel cfg) cfg force st.

Definition layoutSlots (fuel : nat) (cfg : Config) (firstIndex : Z) (st : State)
    : option State :=
  _layoutSlots (updateItemHeight fuel cfg) cfg firstIndex st.

Definition layoutSingleSlot (fuel : nat) (cfg : Config) (node : option NodeId)
    (idx slot : Z) (st : State) : option State :=
  _layoutSingleSlot (updateItemHeight fuel cfg) cfg node idx slot st.

(** ** Gesture state machines *)

(** [_updateRefreshState(state, offset)] *)
Definition _updateRefreshState (cfg : Config) (state : RefreshState.t) (offset : Q)
    (st : State) : State :=
  let g := ges st in
  if bool_decide (_refreshState g = state) then st
  else
    with_ges st
      (mkGesture state (_loadMoreState g) (_pullOffset g) (_loadOffset g)
         (_isRefreshing g) (_isLoadingMore g) (_hasMore g)
         (if onRefreshStateChangeFn cfg then refreshCalls g ++ [(state, offset)]
          else refreshCalls g)
         (loadMoreCalls g) (timers g)).

(** [_updateLoadMoreState(state, offset)] *)
Definition _updateLoadMoreState (cfg : Config) (state : LoadMoreState.t) (offset : Q)
    (st : State) : State :=
  let g := ges st in
  if bool_decide (_loadMoreState g = state) then st
  else
    with_ges st
      (mkGesture (_refreshState g) state (_pullOffset g) (_loadOffset g)
         (_isRefreshing g) (_isLoadingMore g) (_hasMore g) (refreshCalls g)
         (if onLoadMoreStateChangeFn cfg then loadMoreCalls g ++ [(state, offset)]
          else loadMoreCalls g)
         (timers g)).

Definition set_pullOffset (x : Q) (st : State) : State :=
  let g := ges st in
  with_ges st
    (mkGesture (_refreshState g) (_loadMoreState g) x (_loadOffset g)
       (_isRefreshing g) (_isLoadingMore g) (_hasMore g) (refreshCalls g)
       (loadMoreCalls g) (timers g)).

Definition set_loadOffset (x : Q) (st : State) : State :=
  let g := ges st in
  with_ges st
    (mkGesture (_refreshState g) (_loadMoreState g) (_pullOffset g) x
       (_isRefreshing g) (_isLoadingMore g) (_hasMore g) (refreshCalls g)
       (loadMoreCalls g) (timers g)).

Definition set_velocity (v : Q) (st : State) : State :=
  let m := mot st in
  with_mot st (mkMotion (contentPos m) v (_isTouching m) (_velSamples m) (_scrollTween m)).

Definition set_velSamples (l : list VelSample) (st : State) : State :=
  let m := mot st in
  with_mot st (mkMotion (contentPos m) (_velocity m) (_isTouching m) l (_scrollTween m)).

Definition set_isTouching (b : bool) (st : State) : State :=
  let m := mot st in
  with_mot st (mkMotion (contentPos m) (_velocity m) b (_velSamples m) (_scrollTween m)).

(** [_setContentMainPos(pos)] (every rational is finite). *)
Definition _setContentMainPos (cfg : Config) (pos : Q) (st : State) : State :=
  let m := mot st in
  with_mot st
    (mkMotion (align cfg pos) (_velocity m) (_isTouching m) (_velSamples m)
       (_scrollTween m)).

(** [_triggerRefresh()] *)
Definition _triggerRefresh (cfg : Config) (st : State) : State :=
  let g := ges st in
  let st1 :=
    with_ges st
      (mkGesture (_refreshState g) (_loadMoreState g) (_pullOffset g) (_loadOffset g)
         true (_isLoadingMore g) (_hasMore g) (refreshCalls g) (loadMoreCalls g)
         (timers g)) in
  _updateRefreshState cfg RefreshState.REFRESHING (pullRefreshThreshold cfg)
    (set_velocity 0 st1).

(** [_triggerLoadMore()] *)
Definition _triggerLoadMore (cfg : Config) (st : State) : State :=
  let g := ges st in
  let st1 :=
    with_ges st
      (mkGesture (_refreshState g) (_loadMoreState g) (_pullOffset g) (_loadOffset g)
         (_isRefreshing g) true (_hasMore g) (refreshCalls g) (loadMoreCalls g)
         (timers g)) in
  _updateLoadMoreState cfg LoadMoreState.LOADING (loadMoreThreshold cfg)
    (set_velocity 0 st1).

Definition schedule (tm : Timer) (st : State) : State :=
  let g := ges st in
  with_ges st
    (mkGesture (_refreshState g) (_loadMoreState g) (_pullOffset g) (_loadOffset g)
       (_isRefreshing g) (_isLoadingMore g) (_hasMore g) (refreshCalls g)
       (loadMoreCalls g) (timers g ++ [tm])).

(** [finishRefresh(success)] *)
Definition finishRefresh (cfg : Config) (success : bool) (st : State) : State :=
  let g := ges st in
  if negb (_isRefreshing g) then st
  else
    let st1 :=
      with_ges st
        (mkGesture (_refreshState g) (_loadMoreState g) 0 (_loadOffset g)
           false (_isLoadingMore g) (_hasMore g) (refreshCalls g) (loadMoreCalls g)
           (timers g)) in
    schedule RefreshToIdle
      (_updateRefreshState cfg
         (if success then RefreshState.COMPLETE else RefreshState.IDLE) 0 st1).

(** [finishLoadMore(hasMore)] *)
Definition finishLoadMore (cfg : Config) (hasMore : bool) (st : State) : State :=
  let g := ges st in
  if negb (_isLoadingMore g) then st
  else
    let st1 :=
      with_ges st
        (mkGesture (_refreshState g) (_loadMoreState g) (_pullOffset g) 0
           (_isRefreshing g) false hasMore (refreshCalls g) (loadMoreCalls g)
           (timers g)) in
    if negb hasMore then _updateLoadMoreState cfg LoadMoreState.NO_MORE 0 st1
    else schedule LoadMoreToIdle (_updateLoadMoreState cfg LoadMoreState.COMPLETE 0 st1).

(** [resetLoadMoreState()] *)
Definition resetLoadMoreState (cfg : Config) (st : State) : State :=
  let g := ges st in
  let st1 :=
    with_ges st
      (mkGesture (_refreshState g) (_loadMoreState g) (_pullOffset g) 0
         (_isRefreshing g) false true (refreshCalls g) (loadMoreCalls g) (timers g)) in
  _updateLoadMoreState cfg LoadMoreState.IDLE 0 st1.

(** Remove the first occurrence of a pending timer. *)
Fixpoint remove_timer (tm : Timer) (l : list Timer) : list Timer :=
  match l with
  | [] => []
  | x :: rest =>
      match tm, x with
      | RefreshToIdle, RefreshToIdle | LoadMoreToIdle, LoadMoreToIdle => rest
      | _, _ => x :: remove_timer tm rest
      end
  end.

(** The callback handed to [scheduleOnce] runs, 0.3 s after the [finish]
    call that scheduled it. *)
Definition fireTimer (cfg : Config) (tm : Timer) (st : State) : State :=
  let g := ges st in
  let st1 :=
    with_ges st
      (mkGesture (_refreshState g) (_loadMoreState g) (_pullOffset g) (_loadOffset g)
         (_isRefreshing g) (_isLoadingMore g) (_hasMore g) (refreshCalls g)
         (loadMoreCalls g) (remove_timer tm (timers g))) in
  match tm with
  | RefreshToIdle =>
      if bool_decide (_refreshState g = RefreshState.COMPLETE)
      then _updateRefreshState cfg RefreshState.IDLE 0 st1 else st1
  | LoadMoreToIdle =>
      if bool_decide (_loadMoreState g = LoadMoreState.COMPLETE)
      then _updateLoadMoreState cfg LoadMoreState.IDLE 0 st1 else st1
  end.

(** ** Touch handlers and the frame tick *)

(** [_onDown(e)] *)
Definition _onDown (st : State) : State :=
  with_mot st (mkMotion (contentPos (mot st)) 0 true [] false).

(** A [TOUCH_MOVE] event: [e.getDelta()] and the value of
    [performance.now()] (milliseconds) when the handler runs. *)
Record MoveEvent := mkMove { deltaX : Q; deltaY : Q; now : Q }.

(** [while (samples.length && samples[0].t < t0) samples.shift()] *)
Fixpoint shift_old (t0 : Q) (samples : list VelSample) : list VelSample :=
  match samples with
  | [] => []
  | s :: rest => if Qltb (t s) t0 then shift_old t0 rest else samples
  end.

(** The refresh half of [_onMove]: the new [finalDelta] and state. *)
Definition pullRefresh (cfg : Config) (delta pos minBound maxBound finalDelta : Q)
    (st : State) : Q * State :=
  if enablePullRefresh cfg && negb (_isRefreshing (ges st)) then
    let atTopBound :=
      if _isVertical cfg then Qle_bool pos minBound else Qle_bool maxBound pos in
    let pullingDown := if _isVertical cfg then Qltb delta 0 else Qltb 0 delta in
    if atTopBound && pullingDown then
      let overOffset := if _isVertical cfg then (minBound - pos)%Q else (pos - maxBound)%Q in
      let resistance :=
        (1 - Qmin (overOffset / pullRefreshMaxOffset cfg) 1 * (1 - pullDampingRate cfg))%Q in
      let finalDelta := (delta * resistance)%Q in
      let off := Qmin (overOffset + Qabs finalDelta) (pullRefreshMaxOffset cfg) in
      let st1 := set_pullOffset off st in
      (finalDelta,
       if Qle_bool (pullRefreshThreshold cfg) off
       then _updateRefreshState cfg RefreshState.READY off st1
       else _updateRefreshState cfg RefreshState.PULLING off st1)
    else (finalDelta, st)
  else (finalDelta, st).

(** The load-more half of [_onMove]. *)
Definition pullLoadMore (cfg : Config) (delta pos minBound maxBound finalDelta : Q)
    (st : State) : Q * State :=
  if enableLoadMore cfg && negb (_isLoadingMore (ges st)) && _hasMore (ges st) then
    let atBottomBound :=
      if _isVertical cfg then Qle_bool maxBound pos else Qle_bool pos minBound in
    let pullingUp := if _isVertical cfg then Qltb 0 delta else Qltb delta 0 in
    if atBottomBound && pullingUp then
      let overOffset := if _isVertical cfg then (pos - maxBound)%Q else (minBound - pos)%Q in
      let resistance :=
        (1 - Qmin (overOffset / loadMoreMaxOffset cfg) 1 * (1 - pullDampingRate cfg))%Q in
      let finalDelta := (delta * resistance)%Q in
      let off := Qmin (overOffset + Qabs finalDelta) (loadMoreMaxOffset cfg) in
      let st1 := set_loadOffset off st in
      (finalDelta,
       if Qle_bool (loadMoreThreshold cfg) off
       then _updateLoadMoreState cfg LoadMoreState.READY off st1
       else _updateLoadMoreState cfg LoadMoreState.PULLING off st1)
    else (finalDelta, st)
  else (finalDelta, st).

(** [_onMove(e)] up to the call of [_updateVisible]. *)
Definition onMove_gesture (cfg : Config) (e : MoveEvent) (st : State) : State :=
  let delta := if _isVertical cfg then deltaY e else deltaX e in
  let pos := contentPos (mot st) in
  let minBound := Qmin (_boundsMin (tbl st)) (_boundsMax (tbl st)) in
  let maxBound := Qmax (_boundsMin (tbl st)) (_boundsMax (tbl st)) in
  let '(finalDelta, st1) := pullRefresh cfg delta pos minBound maxBound delta st in
  let '(finalDelta, st2) := pullLoadMore cfg delta pos minBound maxBound finalDelta st1 in
  let pos := (pos + finalDelta)%Q in
  let pos := align cfg pos in
  let st3 := _setContentMainPos cfg pos st2 in
  let t := (now e / 1000)%Q in
  let t0 := (t - velocityWindow cfg)%Q in
  set_velSamples (shift_old t0 (_velSamples (mot st3) ++ [mkSample t finalDelta])) st3.

(** [_onMove(e)] *)
Definition _onMove (fuel : nat) (cfg : Config) (e : MoveEvent) (st : State)
    : option State :=
  if negb (_isTouching (mot st)) then Some st
  else
    let st1 := onMove_gesture cfg e st in
    if useVirtualList cfg then updateVisible fuel cfg false st1 else Some st1.

(** The velocity that [_onUp] computes from the drag samples. *)
Definition releaseVelocity (cfg : Config) (samples : list VelSample) : Q :=
  let len := Z.of_nat (length samples) in
  if 2 <=? len then
    let sampleCount := Z.min len 5 in
    let startIndex := len - sampleCount in
    let window := drop (Z.to_nat startIndex) samples in
    let sum := foldl (fun acc s => (acc + delta s)%Q) 0%Q (drop 1 window) in
    let dtSum :=
      foldl (fun acc p => (acc + (t (snd p) - t (fst p)))%Q) 0%Q
        (zip window (drop 1 window)) in
    if Qltb (1 # 1000) dtSum then
      clamp (sum / dtSum) (- maxVelocity cfg) (maxVelocity cfg)
    else
      match last samples with
      | Some s => clamp (delta s * 60) (- maxVelocity cfg) (maxVelocity cfg)
      | None => 0%Q
      end
  else if len =? 1 then
    match samples with
    | s :: _ => clamp (delta s * 60) (- maxVelocity cfg) (maxVelocity cfg)
    | [] => 0%Q
    end
  else 0%Q.

(** [_onUp(e)] *)
Definition _onUp (cfg : Config) (st : State) : State :=
  if negb (_isTouching (mot st)) then st
  else
    let st := set_isTouching false st in
    if bool_decide (_refreshState (ges st) = RefreshState.READY)
       && negb (_isRefreshing (ges st))
    then set_velSamples [] (_triggerRefresh cfg st)
    else if bool_decide (_loadMoreState (ges st) = LoadMoreState.READY)
            && negb (_isLoadingMore (ges st))
    then set_velSamples [] (_triggerLoadMore cfg st)
    else
      let st :=
        if bool_decide (_refreshState (ges st) ≠ RefreshState.REFRESHING)
        then _updateRefreshState cfg RefreshState.IDLE 0 (set_pullOffset 0 st)
        else st in
      let st :=
        if bool_decide (_loadMoreState (ges st) ≠ LoadMoreState.LOADING)
        then _updateLoadMoreState cfg LoadMoreState.IDLE 0 (set_loadOffset 0 st)
        else st in
      set_velSamples [] (set_velocity (releaseVelocity cfg (_velSamples (mot st))) st).

(** [update(dt)] up to the call of [_updateVisible]: the new velocity and,
    when it is not zero, the new position. *)
Definition update_motion (cfg : Config) (dt : Q) (st : State) : State * bool :=
  let pos := contentPos (mot st) in
  let v := _velocity (mot st) in
  let minBound := Qmin (_boundsMin (tbl st)) (_boundsMax (tbl st)) in
  let maxBound := Qmax (_boundsMin (tbl st)) (_boundsMax (tbl st)) in
  let spring (target : Q) : Q := (- springK cfg * (pos - target) - springC cfg * v)%Q in
  let '(a, v) :=
    if _isRefreshing (ges st)
       && bool_decide (_refreshState (ges st) = RefreshState.REFRESHING) then
      (spring (if _isVertical cfg then (- pullRefreshThreshold cfg)%Q
               else pullRefreshThreshold cfg), v)
    else if _isLoadingMore (ges st)
            && bool_decide (_loadMoreState (ges st) = LoadMoreState.LOADING) then
      (spring (if _isVertical cfg then (_boundsMax (tbl st) + loadMoreThreshold cfg)%Q
               else (_boundsMin (tbl st) - loadMoreThreshold cfg)%Q), v)
    else if Qltb pos minBound then (spring minBound, v)
    else if Qltb maxBound pos then (spring maxBound, v)
    else if useIOSDecelerationCurve cfg then
      let speed := Qabs v in
      if Qltb 2000 speed then
        (0%Q, (v * Math_exp cfg (- inertiaDampK cfg * (7 # 10) * dt))%Q)
      else if Qltb 500 speed then (0%Q, (v * Math_exp cfg (- inertiaDampK cfg * dt))%Q)
      else (0%Q, (v * Math_exp cfg (- inertiaDampK cfg * (13 # 10) * dt))%Q)
    else (0%Q, (v * Math_exp cfg (- inertiaDampK cfg * dt))%Q) in
  let v := (v + a * dt)%Q in
  let v := if Qltb (Qabs v) (velocitySnap cfg) && Qeq_bool a 0 then 0%Q else v in
  let st1 := set_velocity v st in
  if negb (Qeq_bool v 0) then
    let pos := (pos + v * dt)%Q in
    let pos := align cfg pos in
    (_setContentMainPos cfg pos st1, true)
  else (st1, false).

(** [update(dt)]; the content node exists once [start] ran. *)
Definition update (fuel : nat) (cfg : Config) (dt : Q) (st : State) : option State :=
  if _isTouching (mot st) || _scrollTween (mot st) then Some st
  else
    let '(st1, moved) := update_motion cfg dt st in
    if moved && useVirtualList cfg then updateVisible fuel cfg false st1 else Some st1.

(** ** Initialisation *)

(** The state of a component whose fields still hold their initialisers,
    with [totalCount] and the viewport size that [start] reads, and the size
    table that [_initDynamicSizeMode] fills in: [getItemHeightFn(i)] when
    the callback is set, else the sampled main size of the prefab of
    [getItemTypeIndexFn(i)] (100 when it has none). *)
Definition initialSizes (cfg : Config) (count : Z) : list Q :=
  (fun i =>
     match getItemHeightFn cfg with
     | Some f => f i
     | None =>
         let or100 (x : Q) : Q := if Qeq_bool x 0 then 100%Q else x in
         let cache (k : Z) : option Q :=
           (fun n => or100 (_getNodeMainSize cfg n)) <$> at_ (itemPrefabs cfg) k in
         match getItemTypeIndexFn cfg with
         | Some tf =>
             match cache (tf i) with
             | Some size => size
             | None => or100 (default 0%Q (cache 0))
             end
         | None => or100 (default 0%Q (cache 0))
         end
     end) <$> seqZ 0 count.

Definition newState (count : Z) (viewport : Q) : State :=
  mkState count viewport
    (mkSizeTable [] [] 0 0 0 0 0)
    (mkWindow [] [] 0 0 None [] ∅ [] [] 0)
    (mkGesture RefreshState.IDLE LoadMoreState.IDLE 0 0 false false true [] [] [])
    (mkMotion 0 0 false [] false).

(** [_initDynamicSlots()] *)
Definition _initDynamicSlots (fuel : nat) (cfg : Config) (st : State) : option State :=
  let avg := (_contentSize (tbl st) / inject_Z (totalCount st))%Q in
  let avgSize := if Qeq_bool avg 0 then 100%Q else avg in
  let visibleCount := Qceiling (_viewportSize st / avgSize) in
  let neededSlots := visibleCount + buffer cfg * 2 + 4 in
  let minSlots := Qceiling (_viewportSize st / 80) + buffer cfg * 2 in
  let neededSlots := Z.max neededSlots minSlots in
  let maxSlots := Qceiling (_viewportSize st / 50) + buffer cfg * 4 in
  let neededSlots := Z.min neededSlots maxSlots in
  let slots := Z.min neededSlots (Z.max (totalCount st) minSlots) in
  let w := win st in
  layoutSlots fuel cfg 0
    (with_win st
       (mkWindow (replicate (Z.to_nat slots) None) (replicate (Z.to_nat slots) (-1))
          slots 0 (_nodePool w) (nodes w) (_needAnimateIndices w) (renderCalls w)
          (appearCalls w) (relayouts w))).

(** [_initDynamicSizeMode()], for a component with at least one prefab and
    one of the two size sources. *)
Definition _initDynamicSizeMode (fuel : nat) (cfg : Config) (st : State) : option State :=
  let tb := tbl st in
  let st1 :=
    _buildPrefixSum cfg
      (with_tbl st
         (mkSizeTable (initialSizes cfg (totalCount st)) (_prefixPositions tb)
            (_contentSize tb) (_boundsMin tb) (_boundsMax tb) (contentMainSize tb)
            (rebuilds tb))) in
  let w := win st1 in
  _initDynamicSlots fuel cfg
    (with_win st1
       (mkWindow (_slotNodes w) (_slotPrefabIndices w) (_slots w) (_slotFirstIndex w)
          (Some (InternalNodePool_new (itemPrefabs cfg))) (nodes w)
          (_needAnimateIndices w) (renderCalls w) (appearCalls w) (relayouts w))).

(** [_recomputeContentSize()] in virtual-list mode. *)
Definition _recomputeContentSize (cfg : Config) (st : State) : State :=
  if useDynamicSize cfg then st
  else
    let stride := (itemMainSize cfg + spacing cfg)%Q in
    let totalLines := Qceiling (inject_Z (totalCount st) / inject_Z (gridCount cfg)) in
    let cs := if 0 <? totalLines then (inject_Z totalLines * stride - spacing cfg)%Q else 0%Q in
    let over := Qmax 0 (cs - _viewportSize st) in
    let tb := tbl st in
    with_tbl st
      (mkSizeTable (_itemSizes tb) (_prefixPositions tb) cs
         (if _isVertical cfg then 0%Q else (- over)%Q)
         (if _isVertical cfg then over else 0%Q)
         (Qmax cs (_viewportSize st)) (rebuilds tb)).


(** ** The widget as a transition system *)

Inductive Event :=
| Down
| Move (e : MoveEvent)
| Up
| Tick (dt : Q)
| FinishRefresh (success : bool)
| FinishLoadMore (hasMore : bool)
| ResetLoadMore
| Fire (tm : Timer)
| UpdateItemHeight (index : Z) (newSize : option Q).

Definition step (fuel : nat) (cfg : Config) (ev : Event) (st : State) : option State :=
  match ev with
  | Down => Some (_onDown st)
  | Move e => _onMove fuel cfg e st
  | Up => Some (_onUp cfg st)
  | Tick dt => update fuel cfg dt st
  | FinishRefresh b => Some (finishRefresh cfg b st)
  | FinishLoadMore b => Some (finishLoadMore cfg b st)
  | ResetLoadMore => Some (resetLoadMoreState cfg st)
  | Fire tm => Some (fireTimer cfg tm st)
  | UpdateItemHeight i x => updateItemHeight fuel cfg i x st
  end.

Definition run (fuel : nat) (cfg : Config) (evs : list Event) (st : State)
    : option State :=
  for_each (step fuel cfg) evs st.

(** ** Notions used by the statements *)

Definition nondecreasing (P : list Q) : Prop :=
  forall (i j : nat) (p q : Q),
    (i <= j)%nat -> P !! i = Some p -> P !! j = Some q -> (p <= q)%Q.

(** A write to one of the two gesture states. *)
Inductive Write :=
| WriteRefresh (state : RefreshState.t) (offset : Q)
| WriteLoadMore (state : LoadMoreState.t) (offset : Q).

Definition write (cfg : Config) (w : Write) (st : State) : State :=
  match w with
  | WriteRefresh s off => _updateRefreshState cfg s off st
  | WriteLoadMore s off => _updateLoadMoreState cfg s off st
  end.

Definition refreshWrites (ws : list Write) : list (RefreshState.t * Q) :=
  omap (fun w => match w with WriteRefresh s off => Some (s, off) | _ => None end) ws.

Definition loadMoreWrites (ws : list Write) : list (LoadMoreState.t * Q) :=
  omap (fun w => match w with WriteLoadMore s off => Some (s, off) | _ => None end) ws.

(** Of a sequence of writes, those that change the value, starting from
    the value [cur]. *)
Fixpoint changes {S : Type} `{EqDecision S} (cur : S) (ws : list (S * Q))
    : list (S * Q) :=
  match ws with
  | [] => []
  | (s, off) :: rest =>
      if bool_decide (cur = s) then changes cur rest else (s, off) :: changes s rest
  end.

Fixpoint adjacent_distinct {S : Type} (l : list S) : Prop :=
  match l with
  | a :: rest =>
      match rest with
      | b :: _ => a <> b /\ adjacent_distinct rest
      | [] => True
      end
  | [] => True
  end.

(** Sum of the deltas of a list of drag samples. *)
Definition sum_deltas (l : list VelSample) : Q :=
  foldr (fun s acc => (delta s + acc)%Q) 0%Q l.

(** The last [k] elements. *)
Definition lastn {A} (k : nat) (l : list A) : list A := drop (length l - k) l.

(** The item index that slot [s] shows: the [dataIndex] of its node when
    the slot holds an active node. *)
Definition shown (st : State) (s : Z) : option Z :=
  n ← slotNode (win st) s;
  node ← nodes (win st) !! n;
  if active node then Some (dataIndex node) else None.

(** What slot [s] is to show in a window that begins at [first]. *)
Definition expected (st : State) (first s : Z) : option Z :=
  if first + s <? totalCount st then Some (first + s) else None.

(** The slots show the window that begins at [_slotFirstIndex]. *)
Definition window_ok (st : State) : Prop :=
  forall s, 0 <= s < _slots (win st) ->
    shown st s = expected st (_slotFirstIndex (win st)) s.

(** The idle lists of a pool, against the set [held] of the nodes that the
    slots hold and the size [len] of the node store: no list holds a node
    twice, a held node or a dangling reference, and no two lists share a
    node. *)
Definition pool_ok (p : InternalNodePool) (held : NodeId -> Prop) (len : nat) : Prop :=
  (forall t l, pools p !! t = Some l ->
     NoDup l /\ forall n, n ∈ l -> ~ held n /\ (n < len)%nat)
  /\ (forall t1 t2 l1 l2, t1 <> t2 ->
        pools p !! t1 = Some l1 -> pools p !! t2 = Some l2 ->
        forall n, n ∈ l1 -> n ∉ l2).

(** Node [n] is held by a slot. *)
Definition held (st : State) (n : NodeId) : Prop :=
  exists i, slotNode (win st) i = Some n.

(** Ownership of the nodes: no node is held by two slots, by two idle
    lists, twice by one idle list, or by a slot and an idle list; every
    reference points into the node store; the idle lists are those of the
    prefabs. *)
Record owned (cfg : Config) (st : State) : Prop := {
  owned_slots : forall i j n,
    slotNode (win st) i = Some n -> slotNode (win st) j = Some n -> i = j;
  owned_store : forall n, held st n -> (n < length (nodes (win st)))%nat;
  owned_idle : forall p,
    _nodePool (win st) = Some p -> pool_ok p (held st) (length (nodes (win st)));
  owned_types : forall p t,
    _nodePool (win st) = Some p ->
    is_Some (pools p !! t) <-> is_Some (at_ (itemPrefabs cfg) t);
}.

(** The shape of the slot arrays: [_slotNodes] has [_slots] entries; in
    fixed-size mode every slot holds a node; in dynamic-size mode the pool
    exists and [_slotPrefabIndices] is as long as [_slotNodes]. *)
Record window_wf (cfg : Config) (st : State) : Prop := {
  wf_length : Z.of_nat (length (_slotNodes (win st))) = _slots (win st);
  wf_fixed : useDynamicSize cfg = false ->
    forall s, 0 <= s < _slots (win st) -> is_Some (slotNode (win st) s);
  wf_pool : useDynamicSize cfg = true -> is_Some (_nodePool (win st));
  wf_indices : useDynamicSize cfg = true ->
    length (_slotPrefabIndices (win st)) = length (_slotNodes (win st));
}.

(** The sizes of the table agree with the size source, so that the check
    that follows the render callback never asks for a correction. *)
Definition settled (cfg : Config) (st : State) : Prop :=
  forall idx, 0 <= idx < totalCount st ->
    exists s, at_ (_itemSizes (tbl st)) idx = Some s
      /\ match getItemHeightFn cfg with
         | Some f => (s == f idx)%Q
         | None =>
             forall w h,
               let '(w', h') :=
                 match renderItemFn cfg with Some r => r idx (w, h) | None => (w, h) end in
               (Qabs (s - (if _isVertical cfg then h' else w')) <= 1)%Q
         end.

(** Every item has the type of a prefab. *)
Definition types_valid (cfg : Config) (st : State) : Prop :=
  forall idx, 0 <= idx < totalCount st ->
    is_Some (at_ (itemPrefabs cfg) (targetType cfg idx)).

(** ** Example configurations *)

(** A prefab root of the given size, anchored at its centre. *)
Definition prefabNode (w h : Q) : Node := mkNode true false false 0 0 w h (1 # 2) (1 # 2) (-1).

(** The property defaults of the component with the listed fields
    overridden, a render callback that leaves the size of the node alone,
    both state-change callbacks set, and a rational stand-in for
    [Math.exp]. *)
Definition exampleConfig (dynamic : bool) (prefabs : list Node) (sp : Q) (buf : Z)
    (pull load align : bool) (hf : option (Z -> Q)) (tf : option (Z -> Z)) : Config :=
  Build_Config true VERTICAL dynamic prefabs 100 100 1 8 sp buf
    pull 100 150 load 100 150 (1 # 2) align 1 150 26 5 (8 # 100) 6000 true
    (Some (fun _ size => size)) hf tf true true (fun x => (1 / (1 - x))%Q).

(** Scenario C of the specification: three items of size 50, no spacing. *)
Definition scenarioC_config : Config :=
  exampleConfig true [prefabNode 100 50] 0 0 false false true (Some (fun _ => 50%Q)) None.

Definition withSizes (sizes : list Q) (st : State) : State :=
  let tb := tbl st in
  with_tbl st
    (mkSizeTable sizes (_prefixPositions tb) (_contentSize tb) (_boundsMin tb)
       (_boundsMax tb) (contentMainSize tb) (rebuilds tb)).

Definition scenarioC_state : State := withSizes [50; 50; 50]%Q (newState 3 80).


Definition threeItems_viewport50 : State := withSizes [50; 50; 50]%Q (newState 3 50).

(** A component in the middle of a drag, with the given samples. *)
Definition dragging (samples : list VelSample) (st : State) : State :=
  with_mot st (mkMotion (contentPos (mot st)) 0 true samples false).

Definition twoSamples : list VelSample := [mkSample 0 10; mkSample (1 # 100) 10].

(** [st'] differs from [st] in its window only. *)
Definition same_but_win (st st' : State) : Prop := st' = with_win st (win st').

(** [st'] agrees with [st] on what the layout never writes: the gesture
    state, the motion state, [totalCount] and the viewport size. *)
Definition frame (st st' : State) : Prop :=
  totalCount st' = totalCount st /\ _viewportSize st' = _viewportSize st
  /\ ges st' = ges st /\ mot st' = mot st.

(** [st'] differs from [st] in its window only, and has the same number of
    slots, the same first index and the same count of relayouts. *)
Definition quiet_step (st st' : State) : Prop :=
  same_but_win st st'
  /\ _slots (win st') = _slots (win st)
  /\ _slotFirstIndex (win st') = _slotFirstIndex (win st)
  /\ relayouts (win st') = relayouts (win st).

(** The layout cannot ask for a size correction: the list has fixed-size
    items, or the size table is settled. *)
Definition quiet (cfg : Config) (st : State) : Prop :=
  useDynamicSize cfg = false \/ settled cfg st.

(** Scenario D of the specification: pull-to-refresh with threshold 100,
    maximal offset 150 and damping rate 0.5 on the list of scenario C, after
    [start] ran; [pulled align y] is that component in the middle of a drag
    with the content at [y], pixel alignment being [align]. *)
Definition scenarioD_config (align : bool) : Config :=
  exampleConfig true [prefabNode 100 50] 0 0 true true align (Some (fun _ => 50%Q)) None.

Definition started (cfg : Config) (count : Z) (viewport : Q) : State :=
  default (newState count viewport) (_initDynamicSizeMode 1 cfg (newState count viewport)).

Definition pulled (align : bool) (y : Q) : State :=
  dragging [] (_setContentMainPos (scenarioD_config align) y
                 (started (scenarioD_config align) 3 80)).

(** The load-more gesture has run dry: [_hasMore] is off, no load is in
    progress and the state is NO_MORE or IDLE. *)
Definition exhausted (st : State) : Prop :=
  _hasMore (ges st) = false /\ _isLoadingMore (ges st) = false
  /\ (_loadMoreState (ges st) = LoadMoreState.NO_MORE
      \/ _loadMoreState (ges st) = LoadMoreState.IDLE).

(** Scenario E of the specification on the component of scenario D: scroll
    to the bottom, pull 120 past it, release (the load starts) and report
    that there is no more data. *)
Definition scenarioE_events : list Event :=
  [Down; Move (mkMove 0 70 1000); Move (mkMove 0 120 1016); Up; FinishLoadMore false].

(** The component of scenario D after the content of item 0 grew to 70:
    [getItemHeightFn] now reports 70 for it. *)
Definition resized_config : Config :=
  exampleConfig true [prefabNode 100 50] 0 0 true true true
    (Some (fun i => if i =? 0 then 70%Q else 50%Q)) None.

(** What the loops of the layout keep, [st0] being the state at the start
    of the loop. *)
Definition layout_inv (cfg : Config) (st0 st : State) : Prop :=
  quiet cfg st /\ owned cfg st /\ window_wf cfg st /\ quiet_step st0 st
  /\ (useDynamicSize cfg = false -> _slotNodes (win st) = _slotNodes (win st0)).

(** The slot of the old window that slot [s] of the rotated window comes
    from, [S] being the number of slots. *)
Definition rotated_from (S diff s : Z) : Z :=
  if 0 <? diff then (if s <? S - diff then s + diff else s - (S - diff))
  else (if s <? - diff then s + (S + diff) else s + diff).

(** A list of ten items of size 50 in a viewport of 100, with one spare
    slot on each side. *)
Definition tenItems_config : Config :=
  exampleConfig true [prefabNode 100 50] 0 1 false false true (Some (fun _ => 50%Q)) None.

(** Two prefabs and four items of size 50 whose types are 0, 1, 7 and 0:
    the type of item 2 is not the index of a prefab. *)
Definition unknownType_config : Config :=
  exampleConfig true [prefabNode 100 50; prefabNode 100 50] 0 0 false false true
    (Some (fun _ => 50%Q))
    (Some (fun i => if i =? 0 then 0 else if i =? 1 then 1 else if i =? 2 then 7 else 0)).

(** The idle list of type [t], when the pool exists and knows the type. *)
Definition idle (st : State) (t : Z) : option (list NodeId) :=
  p ← _nodePool (win st); pools p !! t.

(** ** The rest of [InternalNodePool] *)

(** [clear()]: every idle node is destroyed, then the map is emptied.  The
    order in which the nodes are destroyed does not show in the result. *)
Definition InternalNodePool_clear (p : InternalNodePool) (ns : list Node)
    : InternalNodePool * list Node :=
  (mkPool ∅,
   foldr (fun n acc => alter node_destroy n acc) ns
     (concat (snd <$> map_to_list (pools p)))).

(** [getStats()]: the length of every idle list, by type. *)
Definition InternalNodePool_getStats (p : InternalNodePool) : gmap Z nat :=
  length <$> pools p.

(** [onDestroy()], the touch listeners apart. *)
Definition onDestroy (st : State) : State :=
  match _nodePool (win st) with
  | None => st
  | Some p =>
      let w := win st in
      with_win st
        (mkWindow (_slotNodes w) (_slotPrefabIndices w) (_slots w) (_slotFirstIndex w)
           None (snd (InternalNodePool_clear p (nodes w))) (_needAnimateIndices w)
           (renderCalls w) (appearCalls w) (relayouts w))
  end.

(** ** Batch size update *)

(** The loop of [updateItemHeights]: the size array, [minIndex] and
    [hasChange] after the updates. *)
Fixpoint updateItemHeights_loop (total : Z) (updates : list (Z * Q)) (sizes : list Q)
    (minIndex : Z) (hasChange : bool) : list Q * Z * bool :=
  match updates with
  | [] => (sizes, minIndex, hasChange)
  | (index, height) :: rest =>
      if (index <? 0) || (total <=? index)
      then updateItemHeights_loop total rest sizes minIndex hasChange
      else
        let same :=
          match at_ sizes index with
          | Some s => Qeq_bool s height
          | None => false
          end in
        if same then updateItemHeights_loop total rest sizes minIndex hasChange
        else updateItemHeights_loop total rest (set_at sizes index height)
               (Z.min minIndex index) true
  end.

(** [updateItemHeights(updates)] *)
Definition updateItemHeights (fuel : nat) (cfg : Config) (updates : list (Z * Q))
    (st : State) : option State :=
  if negb (useDynamicSize cfg) then Some st
  else
    match updates with
    | [] => Some st
    | _ :: _ =>
        let '(sizes, minIndex, hasChange) :=
          updateItemHeights_loop (totalCount st) updates (_itemSizes (tbl st))
            (totalCount st) false in
        if negb hasChange then Some st
        else
          updateVisible fuel cfg true
            (_rebuildPrefixSumFrom cfg minIndex (withSizes sizes st))
    end.

(** ** Changing the number of items *)

(** [x | 0] for an integer [x]: its value as a signed 32-bit integer. *)
Definition to_int32 (x : Z) : Z := (x + 2 ^ 31) mod 2 ^ 32 - 2 ^ 31.

(** The size that [setTotalCount] pushes for a new index [i]; [cache] is
    the content of [_prefabSizeCache], which only the sampling branch of
    [_initDynamicSizeMode] writes. *)
Definition grownSize (cfg : Config) (cache : gmap Z Q) (i : Z) : Q :=
  match getItemHeightFn cfg with
  | Some f => f i
  | None =>
      match getItemTypeIndexFn cfg with
      | Some tf =>
          if bool_decide (cache = ∅) then 100%Q
          else
            match cache !! tf i with
            | Some x => if Qeq_bool x 0 then 100%Q else x
            | None => 100%Q
            end
      | None => 100%Q
      end
  end.

(** [_itemSizes] after the [push] loop or the truncation of
    [setTotalCount]. *)
Definition resizeSizes (cfg : Config) (cache : gmap Z Q) (total : Z) (sizes : list Q)
    : list Q :=
  let oldLength := Z.of_nat (length sizes) in
  if oldLength <? total
  then sizes ++ (grownSize cfg cache <$> seqZ oldLength (total - oldLength))
  else if total <? oldLength then take (Z.to_nat total) sizes
  else sizes.

(** The counting loop of [_expandSlotsIfNeeded] over [indices];
    [_itemSizes[i]] is defined for every [i < totalCount] where the method
    is called. *)
Fixpoint expand_loop (sp endPos : Q) (sizes : list Q) (indices : list Z) (pos : Q)
    (neededSlots : Z) : Z :=
  match indices with
  | [] => neededSlots
  | i :: rest =>
      if Qle_bool endPos pos then neededSlots
      else expand_loop sp endPos sizes rest
             (pos + (default 0%Q (at_ sizes i) + sp))%Q (neededSlots + 1)
  end.

(** [_expandSlotsIfNeeded()] *)
Definition _expandSlotsIfNeeded (cfg : Config) (st : State) : State :=
  let neededSlots :=
    expand_loop (spacing cfg) (_viewportSize st) (_itemSizes (tbl st))
      (seqZ 0 (totalCount st)) 0 0 in
  let neededSlots := neededSlots + buffer cfg * 2 + 4 in
  let minSlots := Qceiling (_viewportSize st / 80) + buffer cfg * 2 in
  let neededSlots := Z.max neededSlots minSlots in
  let maxSlots := Qceiling (_viewportSize st / 50) + buffer cfg * 4 in
  let neededSlots := Z.min neededSlots maxSlots in
  let w := win st in
  if _slots w <? neededSlots then
    let added := Z.to_nat (neededSlots - _slots w) in
    with_win st
      (mkWindow (_slotNodes w ++ replicate added None)
         (_slotPrefabIndices w ++ replicate added (-1)) neededSlots
         (_slotFirstIndex w) (_nodePool w) (nodes w) (_needAnimateIndices w)
         (renderCalls w) (appearCalls w) (relayouts w))
  else st.

(** The writes of [setTotalCount(count)] up to the two layout calls, for an
    integer [count]. *)
Definition setTotalCount_table (cfg : Config) (cache : gmap Z Q) (count : Z)
    (st : State) : State :=
  let oldCount := totalCount st in
  let total := Z.max 0 (to_int32 count) in
  let w := win st in
  let st1 :=
    mkState total (_viewportSize st) (tbl st)
      (mkWindow (_slotNodes w) (_slotPrefabIndices w) (_slots w) (_slotFirstIndex w)
         (_nodePool w) (nodes w)
         (if oldCount <? total
          then _needAnimateIndices w ∪ list_to_set (seqZ oldCount (total - oldCount))
          else _needAnimateIndices w)
         (renderCalls w) (appearCalls w) (relayouts w))
      (ges st) (mot st) in
  let st2 :=
    if useDynamicSize cfg then
      let st' :=
        _buildPrefixSum cfg
          (withSizes (resizeSizes cfg cache total (_itemSizes (tbl st1))) st1) in
      if oldCount <? total then _expandSlotsIfNeeded cfg st' else st'
    else _recomputeContentSize cfg st1 in
  set_slotFirstIndex
    (clampZ (_slotFirstIndex (win st2)) 0 (Z.max 0 (total - 1))) st2.

(** [setTotalCount(count)] *)
Definition setTotalCount (fuel : nat) (cfg : Config) (cache : gmap Z Q) (count : Z)
    (st : State) : option State :=
  if negb (useVirtualList cfg) then Some st
  else
    let st1 := setTotalCount_table cfg cache count st in
    st2 ← layoutSlots fuel cfg (_slotFirstIndex (win st1)) st1;
    updateVisible fuel cfg true st2.

(** The argument of [refreshList]: a count or an array, of which only the
    length is read. *)
Inductive ListData :=
| DataCount (count : Z)
| DataArray (length : nat).

(** [refreshList(data)] *)
Definition refreshList (fuel : nat) (cfg : Config) (cache : gmap Z Q) (data : ListData)
    (st : State) : option State :=
  if negb (useVirtualList cfg) then Some st
  else
    match data with
    | DataCount count => setTotalCount fuel cfg cache count st
    | DataArray len => setTotalCount fuel cfg cache (Z.of_nat len) st
    end.

(** ** Programmatic scrolling *)

(** What [_scrollToPosition] and [_flashToPosition] do before they move the
    content: a running tween is stopped and dropped, the velocity is zeroed,
    the touch flag and the drag samples are cleared. *)
Definition haltMotion (st : State) : State :=
  with_mot st (mkMotion (contentPos (mot st)) 0 false [] false).

(** [_flashToPosition(targetPos)] *)
Definition _flashToPosition (fuel : nat) (cfg : Config) (targetPos : Q) (st : State)
    : option State :=
  let targetPos := clamp targetPos (_boundsMin (tbl st)) (_boundsMax (tbl st)) in
  updateVisible fuel cfg true
    (_setContentMainPos cfg (align cfg targetPos) (haltMotion st)).

(** The tween that the animated branch of [_scrollToPosition] starts: its
    duration in seconds and the main-axis position it ends at. *)
Record Tween := mkTween { duration : Q; target : Q }.

(** [_scrollToPosition(targetPos, animate)]: the state and the tween
    started, if any. *)
Definition _scrollToPosition (fuel : nat) (cfg : Config) (targetPos : Q) (animate : bool)
    (st : State) : option (State * option Tween) :=
  let targetPos := clamp targetPos (_boundsMin (tbl st)) (_boundsMax (tbl st)) in
  let st1 := haltMotion st in
  if negb animate then
    st2 ← updateVisible fuel cfg true (_setContentMainPos cfg (align cfg targetPos) st1);
    Some (st2, None)
  else
    let currentPos := contentPos (mot st1) in
    let distance := Qabs (targetPos - currentPos) in
    let m := mot st1 in
    Some (with_mot st1
            (mkMotion (contentPos m) (_velocity m) (_isTouching m) (_velSamples m) true),
          Some (mkTween (Qmax (2 # 10) (distance / 3000)) targetPos)).

(** The tween moves the content to [pos] (it writes the position of the
    node itself) and runs its [onUpdate] callback. *)
Definition tween_onUpdate (fuel : nat) (cfg : Config) (pos : Q) (st : State)
    : option State :=
  let m := mot st in
  updateVisible fuel cfg false
    (with_mot st
       (mkMotion pos (_velocity m) (_isTouching m) (_velSamples m) (_scrollTween m))).

(** The tween arrives at its target and runs the callback of [call]. *)
Definition tween_finished (fuel : nat) (cfg : Config) (tw : Tween) (st : State)
    : option State :=
  let m := mot st in
  st1 ← updateVisible fuel cfg true
          (with_mot st
             (mkMotion (target tw) (_velocity m) (_isTouching m) (_velSamples m)
                (_scrollTween m)));
  Some (with_mot st1
          (mkMotion (contentPos (mot st1)) 0 (_isTouching (mot st1))
             (_velSamples (mot st1)) false)).

(** [scrollToTop(animate)] *)
Definition scrollToTop (fuel : nat) (cfg : Config) (animate : bool) (st : State)
    : option (State * option Tween) :=
  _scrollToPosition fuel cfg
    (if _isVertical cfg then _boundsMin (tbl st) else _boundsMax (tbl st)) animate st.

(** [scrollToBottom(animate)] *)
Definition scrollToBottom (fuel : nat) (cfg : Config) (animate : bool) (st : State)
    : option (State * option Tween) :=
  _scrollToPosition fuel cfg
    (if _isVertical cfg then _boundsMax (tbl st) else _boundsMin (tbl st)) animate st.

(** The target that [scrollToIndex] and [flashToIndex] compute for an
    integer [index]. *)
Definition indexPosition (cfg : Config) (index : Z) (st : State) : Q :=
  let index := clampZ (to_int32 index) 0 (Z.max 0 (totalCount st - 1)) in
  let targetPos :=
    if useDynamicSize cfg then default 0%Q (at_ (_prefixPositions (tbl st)) index)
    else
      let line := Qfloor (inject_Z index / inject_Z (gridCount cfg)) in
      (inject_Z line * (itemMainSize cfg + spacing cfg))%Q in
  if _isVertical cfg then targetPos else (- targetPos)%Q.

(** [scrollToIndex(index, animate)] *)
Definition scrollToIndex (fuel : nat) (cfg : Config) (index : Z) (animate : bool)
    (st : State) : option (State * option Tween) :=
  _scrollToPosition fuel cfg (indexPosition cfg index st) animate st.

(** [flashToTop()] *)
Definition flashToTop (fuel : nat) (cfg : Config) (st : State) : option State :=
  _flashToPosition fuel cfg
    (if _isVertical cfg then _boundsMin (tbl st) else _boundsMax (tbl st)) st.

(** [flashToBottom()] *)
Definition flashToBottom (fuel : nat) (cfg : Config) (st : State) : option State :=
  _flashToPosition fuel cfg
    (if _isVertical cfg then _boundsMax (tbl st) else _boundsMin (tbl st)) st.

(** [flashToIndex(index)] *)
Definition flashToIndex (fuel : nat) (cfg : Config) (index : Z) (st : State)
    : option State :=
  if negb (useVirtualList cfg) then Some st
  else _flashToPosition fuel cfg (indexPosition cfg index st) st.

(** [refreshIndex(index)] *)
Definition refreshIndex (cfg : Config) (index : Z) (st : State) : State :=
  if negb (useVirtualList cfg) then st
  else
    let first := _slotFirstIndex (win st) in
    let last := first + _slots (win st) - 1 in
    if (index <? first) || (last <? index) then st
    else
      match slotNode (win st) (index - first) with
      | Some node => render cfg node index st
      | None => st
      end.

(** ** VScrollViewItem

    The component on the root of every item: it turns touches into clicks.
    Distances are compared through their squares ([Math.sqrt] is
    increasing); the thresholds are the initialisers of [_moveThreshold]
    (40) and [_clickThreshold] (10), which no method writes. *)
Module VScrollViewItem.

(** [node_scale] and [node_children] are the scale and the number of
    children of the node of the component; [clicks] records the invocations
    of [onClickCallback]. *)
Record t := mk {
  dataIndex : Z;
  useItemClickEffect : bool;
  onClickCallback : bool;
  _touchStartNode : bool;
  _isCanceled : bool;
  _startPos : Q * Q;
  node_scale : Q * Q;
  node_children : nat;
  clicks : list Z;
}.

(** The component as its field initialisers leave it. *)
Definition new (children : nat) : t :=
  mk (-1) true false false false (0%Q, 0%Q) (1%Q, 1%Q) children [].

Definition setDataIndex (index : Z) (it : t) : t :=
  mk index (useItemClickEffect it) (onClickCallback it) (_touchStartNode it)
     (_isCanceled it) (_startPos it) (node_scale it) (node_children it) (clicks it).

Definition setScale (s : Q) (it : t) : t :=
  mk (dataIndex it) (useItemClickEffect it) (onClickCallback it) (_touchStartNode it)
     (_isCanceled it) (_startPos it) (s, s) (node_children it) (clicks it).

(** [dx * dx + dy * dy] between [_startPos] and [loc]. *)
Definition dist2 (loc : Q * Q) (it : t) : Q :=
  let dx := (fst loc - fst (_startPos it))%Q in
  let dy := (snd loc - snd (_startPos it))%Q in
  (dx * dx + dy * dy)%Q.

Definition _restoreScale (it : t) : t :=
  if useItemClickEffect it && bool_decide (0 < node_children it)%nat
  then setScale 1 it else it.

Definition _reset (it : t) : t :=
  mk (dataIndex it) (useItemClickEffect it) (onClickCallback it) false false
     (_startPos it) (node_scale it) (node_children it) (clicks it).

Definition _onTouchStart (loc : Q * Q) (it : t) : t :=
  let it1 :=
    mk (dataIndex it) (useItemClickEffect it) (onClickCallback it) true false loc
       (node_scale it) (node_children it) (clicks it) in
  if useItemClickEffect it1 && bool_decide (0 < node_children it1)%nat
  then setScale (95 # 100) it1 else it1.

Definition _onTouchMove (loc : Q * Q) (it : t) : t :=
  if _isCanceled it then it
  else if Qltb (40 * 40) (dist2 loc it) then
    let it1 :=
      mk (dataIndex it) (useItemClickEffect it) (onClickCallback it)
         (_touchStartNode it) true (_startPos it) (node_scale it) (node_children it)
         (clicks it) in
    let it2 := _restoreScale it1 in
    mk (dataIndex it2) (useItemClickEffect it2) (onClickCallback it2) false
       (_isCanceled it2) (_startPos it2) (node_scale it2) (node_children it2)
       (clicks it2)
  else it.

Definition _onTouchEnd (loc : Q * Q) (it : t) : t :=
  if _isCanceled it then _reset it
  else
    let it1 := _restoreScale it in
    let it2 :=
      if Qltb (dist2 loc it1) (10 * 10) && _touchStartNode it1 && onClickCallback it1
      then
        mk (dataIndex it1) (useItemClickEffect it1) (onClickCallback it1)
           (_touchStartNode it1) (_isCanceled it1) (_startPos it1) (node_scale it1)
           (node_children it1) (clicks it1 ++ [dataIndex it1])
      else it1 in
    _reset it2.

Definition _onTouchCancel (it : t) : t := _reset (_restoreScale it).

(** The touch events that the node of the component receives. *)
Inductive Touch :=
| TouchStart (loc : Q * Q)
| TouchMove (loc : Q * Q)
| TouchEnd (loc : Q * Q)
| TouchCancel.

Definition handle (it : t) (ev : Touch) : t :=
  match ev with
  | TouchStart loc => _onTouchStart loc it
  | TouchMove loc => _onTouchMove loc it
  | TouchEnd loc => _onTouchEnd loc it
  | TouchCancel => _onTouchCancel it
  end.

Definition handles (evs : list Touch) (it : t) : t := foldl handle it evs.

End VScrollViewItem.

(** ** Notions used by the further statements *)

(** The sum of [size + spacing] over a list of sizes. *)
Definition stride_sum (sp : Q) (sizes : list Q) : Q :=
  foldr (fun s acc => (s + sp + acc)%Q) 0%Q sizes.

(** Two size tables hold the same sizes and, up to the equality of
    rationals, the same positions, content size and bounds (the count of
    rebuilds is not compared). *)
Definition tbl_equiv (a b : SizeTable) : Prop :=
  _itemSizes a = _itemSizes b
  /\ Forall2 Qeq (_prefixPositions a) (_prefixPositions b)
  /\ (_contentSize a == _contentSize b)%Q
  /\ (_boundsMin a == _boundsMin b)%Q
  /\ (_boundsMax a == _boundsMax b)%Q
  /\ (contentMainSize a == contentMainSize b)%Q.

(** The size table is the one that [_buildPrefixSum] would compute from the
    sizes it holds, and it holds one size per item. *)
Definition table_ok (cfg : Config) (st : State) : Prop :=
  Z.of_nat (length (_itemSizes (tbl st))) = totalCount st
  /\ tbl_equiv (tbl st) (tbl (_buildPrefixSum cfg st)).

(** [st'] differs from [st] in the gesture and motion state only. *)
Definition same_list (st st' : State) : Prop :=
  totalCount st' = totalCount st /\ _viewportSize st' = _viewportSize st
  /\ tbl st' = tbl st /\ win st' = win st.

(** ** The component as its user drives it

    The events of [Event] together with the public methods of the
    component and the callbacks of a running scroll tween; a tween callback
    runs only while [_scrollTween] holds a tween. *)
Inductive Call :=
| Handle (ev : Event)
| UpdateItemHeights (updates : list (Z * Q))
| SetTotalCount (count : Z)
| RefreshList (data : ListData)
| ScrollToTop (animate : bool)
| ScrollToBottom (animate : bool)
| ScrollToIndex (index : Z) (animate : bool)
| TweenUpdate (pos : Q)
| TweenFinished (tw : Tween)
| FlashToTop
| FlashToBottom
| FlashToIndex (index : Z)
| RefreshIndex (index : Z).

Definition call (fuel : nat) (cfg : Config) (cache : gmap Z Q) (c : Call) (st : State)
    : option State :=
  match c with
  | Handle ev => step fuel cfg ev st
  | UpdateItemHeights updates => updateItemHeights fuel cfg updates st
  | SetTotalCount count => setTotalCount fuel cfg cache count st
  | RefreshList data => refreshList fuel cfg cache data st
  | ScrollToTop animate => fst <$> scrollToTop fuel cfg animate st
  | ScrollToBottom animate => fst <$> scrollToBottom fuel cfg animate st
  | ScrollToIndex index animate => fst <$> scrollToIndex fuel cfg index animate st
  | TweenUpdate pos =>
      if _scrollTween (mot st) then tween_onUpdate fuel cfg pos st else Some st
  | TweenFinished tw =>
      if _scrollTween (mot st) then tween_finished fuel cfg tw st else Some st
  | FlashToTop => flashToTop fuel cfg st
  | FlashToBottom => flashToBottom fuel cfg st
  | FlashToIndex index => flashToIndex fuel cfg index st
  | RefreshIndex index => Some (refreshIndex cfg index st)
  end.

Definition calls (fuel : nat) (cfg : Config) (cache : gmap Z Q) (cs : list Call)
    (st : State) : option State :=
  for_each (call fuel cfg cache) cs st.

(** The height that the last entry for index [i] in a list of updates
    carries, if there is one. *)
Fixpoint lastUpdate (i : Z) (updates : list (Z * Q)) : option Q :=
  match updates with
  | [] => None
  | (j, h) :: rest =>
      match lastUpdate i rest with
      | Some h' => Some h'
      | None => if j =? i then Some h else None
      end
  end.

(** Scenario C after [_buildPrefixSum]: positions 0, 50, 100 and content
    size 150 in a viewport of 80. *)
Definition scenarioC_built : State := _buildPrefixSum scenarioC_config scenarioC_state.

(** The calls that write a size chosen by the caller. *)
Definition resizes (c : Call) : bool :=
  match c with
  | Handle (UpdateItemHeight _ (Some _)) | UpdateItemHeights _ => true
  | _ => false
  end.

(** What the layout asks of a configuration: the list is virtual, and in
    dynamic-size mode [getItemHeightFn] is set and every index has the type
    of a prefab. *)
Record layout_config (cfg : Config) : Prop := {
  lc_virtual : useVirtualList cfg = true;
  lc_source : useDynamicSize cfg = true -> is_Some (getItemHeightFn cfg);
  lc_types : useDynamicSize cfg = true ->
    forall idx, 0 <= idx -> is_Some (at_ (itemPrefabs cfg) (targetType cfg idx));
}.

(** The state of a list that is laid out: no size correction is pending,
    every node is owned once, the slot arrays are well formed, the slots
    show the window that begins at [_slotFirstIndex], and in dynamic-size
    mode the table holds one size per item. *)
Record list_inv (cfg : Config) (st : State) : Prop := {
  inv_quiet : quiet cfg st;
  inv_owned : owned cfg st;
  inv_wf : window_wf cfg st;
  inv_shown : window_ok st;
  inv_sizes : useDynamicSize cfg = true ->
    Z.of_nat (length (_itemSizes (tbl st))) = totalCount st;
}.


(** The position that the spring of [update] pulls the content to: the
    refresh or load position while a refresh or a load is held, else the
    bound that the content is beyond; [None] when the content is free and
    inside its bounds. *)
Definition springTarget (cfg : Config) (st : State) : option Q :=
  let pos := contentPos (mot st) in
  let minBound := Qmin (_boundsMin (tbl st)) (_boundsMax (tbl st)) in
  let maxBound := Qmax (_boundsMin (tbl st)) (_boundsMax (tbl st)) in
  if _isRefreshing (ges st) && bool_decide (_refreshState (ges st) = RefreshState.REFRESHING)
  then Some (if _isVertical cfg then (- pullRefreshThreshold cfg)%Q
             else pullRefreshThreshold cfg)
  else if _isLoadingMore (ges st)
          && bool_decide (_loadMoreState (ges st) = LoadMoreState.LOADING)
  then Some (if _isVertical cfg then (_boundsMax (tbl st) + loadMoreThreshold cfg)%Q
             else (_boundsMin (tbl st) - loadMoreThreshold cfg)%Q)
  else if Qltb pos minBound then Some minBound
  else if Qltb maxBound pos then Some maxBound
  else None.

(** The factor by which one tick of free scrolling multiplies the velocity
    [v]. *)
Definition decay (cfg : Config) (dt v : Q) : Q :=
  if useIOSDecelerationCurve cfg then
    if Qltb 2000 (Qabs v) then Math_exp cfg (- inertiaDampK cfg * (7 # 10) * dt)
    else if Qltb 500 (Qabs v) then Math_exp cfg (- inertiaDampK cfg * dt)
    else Math_exp cfg (- inertiaDampK cfg * (13 # 10) * dt)
  else Math_exp cfg (- inertiaDampK cfg * dt).

(** A list at rest inside its bounds, no touch, no tween, no refresh or
    load held: scenario C after [_buildPrefixSum], moving at [v]. *)
Definition coasting (v : Q) : State :=
  with_mot scenarioC_built (mkMotion 30 v false [] false).




Fixpoint touchStarts (evs : list VScrollViewItem.Touch) : nat :=
  match evs with
  | [] => 0
  | VScrollViewItem.TouchStart _ :: rest => S (touchStarts rest)
  | _ :: rest => touchStarts rest
  end.

(** Node [n] is in one of the idle lists of the pool. *)
Definition idle_in (p : InternalNodePool) (n : NodeId) : Prop :=
  exists t l, pools p !! t = Some l /\ n ∈ l.

(** * Properties *)

(** ** Size table *)

Lemma Qltb_lt (x y : Q) : Qltb x y = true <-> (x < y)%Q.
Proof.
  unfold Qltb. rewrite negb_true_iff, <- not_true_iff_false, Qle_bool_iff.
  split; [apply Qnot_le_lt | apply Qlt_not_le].
Qed.

Lemma Qltb_ge (x y : Q) : Qltb x y = false <-> (y <= x)%Q.
Proof. unfold Qltb. rewrite negb_false_iff. apply Qle_bool_iff. Qed.

Lemma Qle_bool_false (x y : Q) : Qle_bool x y = false <-> (y < x)%Q.
Proof.
  rewrite <- not_true_iff_false, Qle_bool_iff.
  split; [apply Qnot_le_lt | apply Qlt_not_le].
Qed.

Lemma at_Some {A} (l : list A) (i : Z) (x : A) :
  at_ l i = Some x <-> 0 <= i /\ l !! Z.to_nat i = Some x.
Proof.
  unfold at_. destruct (Z.ltb_spec i 0); split; intros H1; try easy; lia.
Qed.

Lemma at_of_nat {A} (l : list A) (i : nat) : at_ l (Z.of_nat i) = l !! i.
Proof.
  unfold at_. destruct (Z.ltb_spec (Z.of_nat i) 0); [lia |].
  now rewrite Nat2Z.id.
Qed.

Lemma at_lt {A} (l : list A) (i : Z) (x : A) :
  at_ l i = Some x -> 0 <= i < Z.of_nat (length l).
Proof.
  rewrite at_Some. intros [H0 H1]. apply lookup_lt_Some in H1. lia.
Qed.

Lemma at_is_Some {A} (l : list A) (i : Z) :
  0 <= i < Z.of_nat (length l) -> exists x, at_ l i = Some x.
Proof.
  intros H. destruct (lookup_lt_is_Some_2 l (Z.to_nat i)) as [x Hx]; [lia |].
  exists x. apply at_Some. split; [lia | exact Hx].
Qed.

Section PrefixLoop.
Variable sp : Q.

Lemma prefix_loop_length (sizes : list Q) (acc : Q) :
  length (fst (prefix_loop sp acc sizes)) = length sizes.
Proof.
  revert acc. induction sizes as [| s rest IH]; intros acc; simpl; [reflexivity |].
  specialize (IH (acc + (s + sp))%Q).
  destruct (prefix_loop sp (acc + (s + sp)) rest) as [ps acc']. simpl in *. lia.
Qed.

Lemma prefix_loop_cons (s : Q) (rest : list Q) (acc : Q) :
  fst (prefix_loop sp acc (s :: rest))
  = acc :: fst (prefix_loop sp (acc + (s + sp)) rest).
Proof.
  simpl. destruct (prefix_loop sp (acc + (s + sp)) rest). reflexivity.
Qed.

(** Consecutive positions differ by the stride of the item between them. *)
Lemma prefix_loop_step (sizes : list Q) (acc : Q) (i : nat) (p q s : Q) :
  fst (prefix_loop sp acc sizes) !! i = Some p ->
  fst (prefix_loop sp acc sizes) !! S i = Some q ->
  sizes !! i = Some s ->
  q = (p + (s + sp))%Q.
Proof.
  revert acc i. induction sizes as [| s0 rest IH]; intros acc i; [easy |].
  rewrite prefix_loop_cons. destruct i as [| i]; simpl.
  - intros [= <-] Hq [= <-]. destruct rest as [| s1 rest]; [easy |].
    rewrite prefix_loop_cons in Hq. now injection Hq as <-.
  - apply IH.
Qed.

Lemma prefix_loop_first (sizes : list Q) (acc p : Q) :
  fst (prefix_loop sp acc sizes) !! 0%nat = Some p -> p = acc.
Proof.
  destruct sizes; [easy |]. rewrite prefix_loop_cons. now intros [= <-].
Qed.

(** With non-negative strides the positions do not decrease. *)
Lemma prefix_loop_ge (sizes : list Q) (acc : Q) (i : nat) (p : Q) :
  (forall s, s ∈ sizes -> 0 <= s + sp)%Q ->
  fst (prefix_loop sp acc sizes) !! i = Some p -> (acc <= p)%Q.
Proof.
  revert acc i. induction sizes as [| s0 rest IH]; intros acc i Hs; [easy |].
  rewrite prefix_loop_cons. destruct i as [| i]; simpl.
  - intros [= <-]. lra.
  - intros Hp. apply IH in Hp.
    + pose proof (Hs s0 ltac:(left)). lra.
    + intros s Hin. apply Hs. now right.
Qed.

Lemma prefix_loop_mono (sizes : list Q) (acc : Q) (i j : nat) (p q : Q) :
  (forall s, s ∈ sizes -> 0 <= s + sp)%Q ->
  (i <= j)%nat ->
  fst (prefix_loop sp acc sizes) !! i = Some p ->
  fst (prefix_loop sp acc sizes) !! j = Some q -> (p <= q)%Q.
Proof.
  revert acc i j. induction sizes as [| s0 rest IH]; intros acc i j Hs Hij; [easy |].
  rewrite prefix_loop_cons. destruct i as [| i]; simpl.
  - intros [= <-]. destruct j as [| j]; simpl.
    + intros [= <-]. lra.
    + intros Hq. apply prefix_loop_ge in Hq.
      * pose proof (Hs s0 ltac:(left)). lra.
      * intros s Hin. apply Hs. now right.
  - destruct j as [| j]; [lia |]. simpl. apply IH; [| lia].
    intros s Hin. apply Hs. now right.
Qed.

End PrefixLoop.
Lemma shiftr1_bounds (l r : Z) : l <= r -> l <= Z.shiftr (l + r) 1 <= r.
Proof.
  intros H. rewrite Z.shiftr_div_pow2 by lia. change (2 ^ 1) with 2.
  pose proof (Z.div_mod (l + r) 2 ltac:(lia)).
  pose proof (Z.mod_pos_bound (l + r) 2 ltac:(lia)). lia.
Qed.

(** The loop returns the first index whose position exceeds [pos]. *)
Lemma posToFirstIndex_loop_spec (P : list Q) (pos : Q) (l r ans : Z) :
  nondecreasing P ->
  0 <= l -> l <= r + 1 -> r < Z.of_nat (length P) -> ans = r + 1 ->
  (forall i p, 0 <= i < l -> at_ P i = Some p -> (p <= pos)%Q) ->
  (forall i p, ans <= i -> at_ P i = Some p -> (pos < p)%Q) ->
  let res := posToFirstIndex_loop P pos l r ans in
  l <= res <= r + 1
  /\ (forall i p, 0 <= i < res -> at_ P i = Some p -> (p <= pos)%Q)
  /\ (forall i p, res <= i -> at_ P i = Some p -> (pos < p)%Q).
Proof.
  intros Hsorted. funelim (posToFirstIndex_loop P pos l r ans).
  - intros Hl Hlr Hr Hans Hlow Hhigh.
    pose proof (shiftr1_bounds l r ltac:(lia)) as Hm.
    set (m := Z.shiftr (l + r) 1) in *.
    destruct (at_is_Some positions m ltac:(lia)) as [pm Hpm].
    rewrite Hpm. simpl. destruct (Qltb pos pm) eqn:Hcmp.
    + apply Qltb_lt in Hcmp.
      match goal with
      | IH : context [posToFirstIndex_loop _ _ _ (m - 1) m] |- _ =>
          destruct IH as (Hres & Hlo & Hhi); try lia; try assumption
      end.
      * intros i p Hi Hp.
        apply at_Some in Hp as [Hi0 Hp]. apply at_Some in Hpm as [_ Hpm].
        assert (pm <= p)%Q by (apply (Hsorted (Z.to_nat m) (Z.to_nat i)); [lia | easy | easy]).
        lra.
      * repeat split; try lia; assumption.
    + apply Qltb_ge in Hcmp.
      match goal with
      | IH : context [posToFirstIndex_loop _ _ (m + 1) _ _] |- _ =>
          destruct IH as (Hres & Hlo & Hhi); try lia; try assumption
      end.
      * intros i p Hi Hp.
        apply at_Some in Hp as [Hi0 Hp]. apply at_Some in Hpm as [_ Hpm].
        assert (p <= pm)%Q by (apply (Hsorted (Z.to_nat i) (Z.to_nat m)); [lia | easy | easy]).
        lra.
      * repeat split; try lia; assumption.
  - intros Hl Hlr Hr Hans Hlow Hhigh. simpl. repeat split; try lia.
    + intros i p Hi. apply Hlow. lia.
    + assumption.
Qed.
Lemma buildPrefixSum_positions (cfg : Config) (st : State) :
  _prefixPositions (tbl (_buildPrefixSum cfg st))
  = fst (prefix_loop (spacing cfg) 0 (_itemSizes (tbl st))).
Proof.
  unfold _buildPrefixSum.
  destruct (prefix_loop (spacing cfg) 0 (_itemSizes (tbl st))). reflexivity.
Qed.

Lemma buildPrefixSum_sizes (cfg : Config) (st : State) :
  _itemSizes (tbl (_buildPrefixSum cfg st)) = _itemSizes (tbl st).
Proof.
  unfold _buildPrefixSum.
  destruct (prefix_loop (spacing cfg) 0 (_itemSizes (tbl st))). reflexivity.
Qed.

Lemma buildPrefixSum_viewport (cfg : Config) (st : State) :
  _viewportSize (_buildPrefixSum cfg st) = _viewportSize st.
Proof.
  unfold _buildPrefixSum.
  destruct (prefix_loop (spacing cfg) 0 (_itemSizes (tbl st))). reflexivity.
Qed.

Lemma posToFirstIndex_nonpos (st : State) (pos : Q) :
  (pos <= 0)%Q -> _posToFirstIndex st pos = 0.
Proof.
  intros H. unfold _posToFirstIndex.
  now rewrite (proj2 (Qle_bool_iff pos 0) H).
Qed.

(** On a non-decreasing table whose first position is not above [pos], the
    lookup returns the greatest index whose position is at most [pos]. *)
Lemma posToFirstIndex_greatest (st : State) (pos p0 : Q) :
  nondecreasing (_prefixPositions (tbl st)) ->
  _prefixPositions (tbl st) !! 0%nat = Some p0 -> (p0 <= pos)%Q -> (0 < pos)%Q ->
  exists p,
    at_ (_prefixPositions (tbl st)) (_posToFirstIndex st pos) = Some p
    /\ (p <= pos)%Q
    /\ forall j q, at_ (_prefixPositions (tbl st)) j = Some q -> (q <= pos)%Q ->
                   j <= _posToFirstIndex st pos.
Proof.
  intros Hsorted H0 Hp0 Hpos. unfold _posToFirstIndex.
  rewrite (proj2 (Qle_bool_false pos 0) Hpos).
  set (P := _prefixPositions (tbl st)) in *.
  assert (Hlen : (0 < length P)%nat) by (apply lookup_lt_Some in H0; exact H0).
  destruct (posToFirstIndex_loop_spec P pos 0 (Z.of_nat (length P) - 1)
              (Z.of_nat (length P)) Hsorted) as (Hres & Hlo & Hhi); try lia.
  { intros i p Hi Hp. apply at_lt in Hp. lia. }
  set (res := posToFirstIndex_loop P pos 0 (Z.of_nat (length P) - 1)
                (Z.of_nat (length P))) in *.
  assert (1 <= res).
  { destruct (Z_lt_ge_dec res 1) as [Hlt | Hge]; [| lia].
    assert (pos < p0)%Q by (apply (Hhi 0); [lia | now rewrite <- H0]). lra. }
  rewrite Z.max_r by lia.
  destruct (at_is_Some P (res - 1) ltac:(lia)) as [p Hp].
  exists p. split; [exact Hp |]. split.
  - apply (Hlo (res - 1)); [lia | exact Hp].
  - intros j q Hq Hle. destruct (Z_lt_ge_dec j res) as [Hlt | Hge]; [lia |].
    assert (pos < q)%Q by (apply (Hhi j); [lia | exact Hq]). lra.
Qed.

Lemma buildPrefixSum_nondecreasing (cfg : Config) (st : State) :
  (forall s, s ∈ _itemSizes (tbl st) -> 0 <= s + spacing cfg)%Q ->
  nondecreasing (_prefixPositions (tbl (_buildPrefixSum cfg st))).
Proof.
  intros Hs i j p q Hij. rewrite buildPrefixSum_positions.
  now apply prefix_loop_mono.
Qed.

(** The scan for the end of the range stops at the first index, from
    [start] on, whose position is at or beyond [endPos]. *)
Lemma visibleEnd_loop_spec (P : list Q) (endPos : Q) (n end_ : Z) :
  n = Z.of_nat (length P) -> 0 <= end_ <= n ->
  let res := visibleEnd_loop P endPos n end_ in
  end_ <= res <= n
  /\ (forall p, at_ P res = Some p -> (endPos <= p)%Q).
Proof.
  funelim (visibleEnd_loop P endPos n end_); intros Hn Hstart; simpl.
  - destruct (at_is_Some positions end_ ltac:(lia)) as [p Hp].
    rewrite Hp. simpl. destruct (Qle_bool endPos p) eqn:Hcmp.
    + split; [lia |]. intros p' Hp'. rewrite Hp in Hp'. injection Hp' as <-.
      now apply Qle_bool_iff.
    + match goal with
      | IH : context [visibleEnd_loop _ _ _ (end_ + 1)] |- _ =>
          destruct IH as (Hres & Hstop); [assumption | lia |]
      end.
      split; [lia | assumption].
  - split; [lia |]. intros p Hp. apply at_lt in Hp. lia.
Qed.

(** C2 (amended).  For a table built by [_buildPrefixSum] from non-negative
    sizes, with non-negative spacing and buffer, and for every scroll
    position, the range of [_calcVisibleRange] contains every item that
    overlaps the viewport in more than a boundary point: every [i] with
    [start i < position + viewport] and [position < start i + size i]. *)
Theorem calcVisibleRange_covers (cfg : Config) (st : State) (pos : Q) :
  (forall s, s ∈ _itemSizes (tbl st) -> 0 <= s)%Q ->
  (0 <= spacing cfg)%Q -> 0 <= buffer cfg ->
  let st' := _buildPrefixSum cfg st in
  forall i p s,
    at_ (_prefixPositions (tbl st')) i = Some p ->
    at_ (_itemSizes (tbl st')) i = Some s ->
    (p < pos + _viewportSize st')%Q -> (pos < p + s)%Q ->
    fst (_calcVisibleRange cfg st' pos) <= i < snd (_calcVisibleRange cfg st' pos).
Proof.
  intros Hsz Hsp Hbuf st' i p s Hp Hs Hbelow Habove.
  assert (Hnn : (forall s, s ∈ _itemSizes (tbl st) -> 0 <= s + spacing cfg)%Q).
  { intros s0 Hin. specialize (Hsz s0 Hin). lra. }
  pose proof (buildPrefixSum_nondecreasing cfg st Hnn) as Hsorted.
  fold st' in Hsorted.
  pose proof (buildPrefixSum_positions cfg st) as HP. fold st' in HP.
  pose proof (buildPrefixSum_sizes cfg st) as HS. fold st' in HS.
  set (P := _prefixPositions (tbl st')) in *.
  pose proof (at_lt _ _ _ Hp) as Hi.
  unfold _calcVisibleRange. fold P.
  destruct (Z.eqb_spec (Z.of_nat (length P)) 0) as [E | _]; [lia |].
  set (first := _posToFirstIndex st' pos).
  assert (Hfirst : 0 <= first <= i).
  { destruct (Qlt_le_dec 0 pos) as [Hgt | Hle].
    - destruct (lookup_lt_is_Some_2 P 0%nat ltac:(lia)) as [p0 Hp0].
      assert (p0 = 0%Q) by (rewrite HP in Hp0; now apply prefix_loop_first in Hp0).
      subst p0.
      destruct (posToFirstIndex_greatest st' pos 0%Q Hsorted Hp0 ltac:(lra) Hgt)
        as (pk & Hk & Hle & Hmax).
      fold P in Hk. fold first in Hk. fold first in Hmax.
      pose proof (at_lt _ _ _ Hk) as Hk0. split; [lia |].
      destruct (Z_lt_ge_dec i first) as [Hlt | Hge]; [| lia]. exfalso.
      destruct (at_is_Some P (i + 1) ltac:(lia)) as [q Hq].
      apply at_Some in Hp as [Hi0 Hp]. apply at_Some in Hq as [_ Hq].
      apply at_Some in Hs as [_ Hs]. apply at_Some in Hk as [_ Hk].
      replace (Z.to_nat (i + 1)) with (S (Z.to_nat i)) in Hq by lia.
      rewrite HS in Hs.
      assert (q = (p + (s + spacing cfg))%Q).
      { rewrite HP in Hp, Hq. eapply prefix_loop_step; eassumption. }
      assert (q <= pk)%Q.
      { apply (Hsorted (S (Z.to_nat i)) (Z.to_nat first)); [lia | easy | easy]. }
      subst q. lra.
    - unfold first. rewrite posToFirstIndex_nonpos by exact Hle. lia. }
  destruct (visibleEnd_loop_spec P (pos + _viewportSize st')%Q
              (Z.of_nat (length P)) first eq_refl ltac:(lia)) as (Hres & Hstop).
  set (res := visibleEnd_loop P (pos + _viewportSize st')%Q
                (Z.of_nat (length P)) first) in *.
  simpl. split; [lia |].
  assert (i < res); [| lia].
  destruct (Z_lt_ge_dec i res) as [Hlt | Hge]; [exact Hlt | exfalso].
  destruct (at_is_Some P res ltac:(lia)) as [q Hq].
  pose proof (Hstop q Hq).
  apply at_Some in Hp as [Hi0 Hp]. apply at_Some in Hq as [_ Hq].
  assert (q <= p)%Q
    by (apply (Hsorted (Z.to_nat res) (Z.to_nat i)); [lia | easy | easy]).
  lra.
Qed.


Lemma calcVisibleRange_covers_witness :
  fst (_calcVisibleRange scenarioC_config
         (_buildPrefixSum scenarioC_config scenarioC_state) 0) <= 1
  < snd (_calcVisibleRange scenarioC_config
           (_buildPrefixSum scenarioC_config scenarioC_state) 0).
Proof.
  apply (calcVisibleRange_covers scenarioC_config scenarioC_state 0%Q)
    with (p := 50%Q) (s := 50%Q); try reflexivity; try (simpl; lia).
  - intros s Hin. simpl in Hin.
    repeat (apply elem_of_cons in Hin as [-> | Hin]); try (intros [=]).
    now apply elem_of_nil in Hin.
  - intros [=].
Defined.

(** C2, as stated, fails for an item that only touches the viewport: with
    sizes [50; 50; 50], no spacing, no buffer and a viewport of 50 at
    position 50 (inside the bounds [0, 100]), item 2 spans [100, 150] and
    meets the viewport [50, 100] in the point 100, but the range is [1, 2). *)
Lemma calcVisibleRange_touching_counterexample :
  let st := _buildPrefixSum scenarioC_config threeItems_viewport50 in
  (0 <= 50 <= _boundsMax (tbl st))%Q
  /\ at_ (_prefixPositions (tbl st)) 2 = Some 100%Q
  /\ at_ (_itemSizes (tbl st)) 2 = Some 50%Q
  /\ (100 <= 50 + _viewportSize st)%Q /\ (50 <= 100 + 50)%Q
  /\ _calcVisibleRange scenarioC_config st 50 = (1, 2).
Proof. vm_compute. repeat split; congruence. Qed.

(** ** Gesture state machines *)

Lemma updateRefreshState_same (cfg : Config) (s : RefreshState.t) (off : Q) (st : State) :
  _refreshState (ges st) = s -> _updateRefreshState cfg s off st = st.
Proof. intros H. unfold _updateRefreshState. now rewrite bool_decide_eq_true_2. Qed.

Lemma updateLoadMoreState_same (cfg : Config) (s : LoadMoreState.t) (off : Q) (st : State) :
  _loadMoreState (ges st) = s -> _updateLoadMoreState cfg s off st = st.
Proof. intros H. unfold _updateLoadMoreState. now rewrite bool_decide_eq_true_2. Qed.

Lemma adjacent_distinct_changes {S : Type} `{EqDecision S} (cur : S) (ws : list (S * Q)) :
  adjacent_distinct (cur :: (changes cur ws).*1).
Proof.
  revert cur. induction ws as [| [s off] rest IH]; intros cur; [exact I |].
  simpl. destruct (bool_decide_reflect (cur = s)) as [-> | Hne]; [apply IH |].
  simpl. split; [exact Hne | apply IH].
Qed.

Lemma write_sequence (cfg : Config) (ws : list Write) (st : State) :
  onRefreshStateChangeFn cfg = true -> onLoadMoreStateChangeFn cfg = true ->
  let st' := foldl (fun st w => write cfg w st) st ws in
  refreshCalls (ges st')
  = refreshCalls (ges st) ++ changes (_refreshState (ges st)) (refreshWrites ws)
  /\ loadMoreCalls (ges st')
     = loadMoreCalls (ges st) ++ changes (_loadMoreState (ges st)) (loadMoreWrites ws).
Proof.
  intros Hr Hl. revert st. induction ws as [| w rest IH]; intros st; simpl.
  - now rewrite !app_nil_r.
  - destruct (IH (write cfg w st)) as [IHr IHl]. simpl in IHr, IHl.
    rewrite IHr, IHl. clear IH IHr IHl.
    destruct w as [s off | s off]; simpl.
    + unfold _updateRefreshState.
      destruct (bool_decide_reflect (_refreshState (ges st) = s)) as [E | Hne]; simpl.
      * now rewrite E.
      * rewrite Hr. simpl. now rewrite <- !app_assoc.
    + unfold _updateLoadMoreState.
      destruct (bool_decide_reflect (_loadMoreState (ges st) = s)) as [E | Hne]; simpl.
      * now rewrite E.
      * rewrite Hl. simpl. now rewrite <- !app_assoc.
Qed.

(** C5.  With both callbacks set, a write of the current value changes
    nothing, and after any sequence of writes to the two states each callback
    has been invoked exactly for the writes that changed its state, in
    order; consecutive invocations carry distinct state values. *)
Theorem state_callbacks_edge_triggered (cfg : Config) (ws : list Write) (st : State) :
  onRefreshStateChangeFn cfg = true -> onLoadMoreStateChangeFn cfg = true ->
  let st' := foldl (fun st w => write cfg w st) st ws in
  let fired_refresh := changes (_refreshState (ges st)) (refreshWrites ws) in
  let fired_loadMore := changes (_loadMoreState (ges st)) (loadMoreWrites ws) in
  (forall s off, _refreshState (ges st) = s -> write cfg (WriteRefresh s off) st = st)
  /\ (forall s off, _loadMoreState (ges st) = s -> write cfg (WriteLoadMore s off) st = st)
  /\ refreshCalls (ges st') = refreshCalls (ges st) ++ fired_refresh
  /\ loadMoreCalls (ges st') = loadMoreCalls (ges st) ++ fired_loadMore
  /\ adjacent_distinct (_refreshState (ges st) :: fired_refresh.*1)
  /\ adjacent_distinct (_loadMoreState (ges st) :: fired_loadMore.*1).
Proof.
  intros Hr Hl st' fr fl.
  destruct (write_sequence cfg ws st Hr Hl) as [H1 H2].
  repeat split.
  - intros s off. apply updateRefreshState_same.
  - intros s off. apply updateLoadMoreState_same.
  - exact H1.
  - exact H2.
  - apply adjacent_distinct_changes.
  - apply adjacent_distinct_changes.
Qed.

Lemma state_callbacks_edge_triggered_witness :
  refreshCalls (ges (foldl (fun st w => write scenarioC_config w st) scenarioC_state
     [WriteRefresh RefreshState.PULLING 10; WriteRefresh RefreshState.PULLING 20;
      WriteLoadMore LoadMoreState.IDLE 0; WriteRefresh RefreshState.READY 100]))
  = [(RefreshState.PULLING, 10%Q); (RefreshState.READY, 100%Q)].
Proof.
  exact (proj1 (proj2 (proj2
    (state_callbacks_edge_triggered scenarioC_config
       [WriteRefresh RefreshState.PULLING 10; WriteRefresh RefreshState.PULLING 20;
        WriteLoadMore LoadMoreState.IDLE 0; WriteRefresh RefreshState.READY 100]
       scenarioC_state eq_refl eq_refl)))).
Defined.

(** C10.  While no load-more is in progress, [finishLoadMore] returns the
    state it was given, whatever its argument: no field is written (in
    particular not [_hasMore]), no callback is invoked and nothing is
    scheduled. *)
Theorem finishLoadMore_idle_noop (cfg : Config) (hasMore : bool) (st : State) :
  _isLoadingMore (ges st) = false ->
  finishLoadMore cfg hasMore st = st.
Proof. intros H. unfold finishLoadMore. now rewrite H. Qed.

Lemma finishLoadMore_idle_noop_witness :
  finishLoadMore scenarioC_config false scenarioC_state = scenarioC_state.
Proof. exact (finishLoadMore_idle_noop scenarioC_config false scenarioC_state eq_refl). Defined.

(** ** Release velocity *)

Lemma clamp_compat (x y lo hi : Q) : (x == y)%Q -> (clamp x lo hi == clamp y lo hi)%Q.
Proof. intros H. unfold clamp. now rewrite H. Qed.

Lemma foldl_sum_deltas (l : list VelSample) (acc : Q) :
  (foldl (fun a s => a + delta s) acc l == acc + sum_deltas l)%Q.
Proof.
  revert acc. induction l as [| s rest IH]; intros acc; simpl.
  - lra.
  - rewrite IH. unfold sum_deltas. simpl. lra.
Qed.

Lemma foldl_elapsed (l : list VelSample) (x y : VelSample) (acc : Q) :
  last (x :: l) = Some y ->
  (foldl (fun a p => a + (t (snd p) - t (fst p))) acc (zip (x :: l) l)
   == acc + (t y - t x))%Q.
Proof.
  revert x acc. induction l as [| z rest IH]; intros x acc Hlast.
  - simpl in *. injection Hlast as <-. lra.
  - change (foldl (fun a p => a + (t (snd p) - t (fst p))) acc
              (zip (x :: z :: rest) (z :: rest)))%Q
      with (foldl (fun a p => a + (t (snd p) - t (fst p))) (acc + (t z - t x))
              (zip (z :: rest) rest))%Q.
    rewrite (IH z (acc + (t z - t x))%Q Hlast). lra.
Qed.

Lemma onUp_velocity (cfg : Config) (st : State) :
  _isTouching (mot st) = true ->
  ~ (_refreshState (ges st) = RefreshState.READY /\ _isRefreshing (ges st) = false) ->
  ~ (_loadMoreState (ges st) = LoadMoreState.READY /\ _isLoadingMore (ges st) = false) ->
  _velocity (mot (_onUp cfg st)) = releaseVelocity cfg (_velSamples (mot st)).
Proof.
  intros Ht Hr Hl. unfold _onUp. rewrite Ht. simpl.
  destruct (bool_decide_reflect (_refreshState (ges st) = RefreshState.READY)) as [E1 | N1];
    destruct (_isRefreshing (ges st)) eqn:E2; simpl; try (exfalso; now apply Hr).
  all: destruct (bool_decide_reflect (_loadMoreState (ges st) = LoadMoreState.READY))
         as [E3 | N3];
       destruct (_isLoadingMore (ges st)) eqn:E4; simpl; try (exfalso; now apply Hl).
  all: unfold _updateRefreshState, _updateLoadMoreState; simpl.
  all: repeat (case_bool_decide; simpl); reflexivity.
Qed.

(** C7 (amended).  On a release that triggers neither refresh nor
    load-more, [_onUp] sets the velocity to: 0 when there is no drag sample;
    the delta of the only sample times 60 when there is one; otherwise, over
    the window of the last (at most 5) samples, the sum of the deltas of all
    samples of the window but its first, divided by the time elapsed between
    the first and the last sample of the window, when that time exceeds
    1 ms, and the delta of the last sample times 60 when it does not; every
    non-zero case clamped to [[-maxVelocity, maxVelocity]]. *)
Theorem onUp_release_velocity (cfg : Config) (st : State) :
  _isTouching (mot st) = true ->
  ~ (_refreshState (ges st) = RefreshState.READY /\ _isRefreshing (ges st) = false) ->
  ~ (_loadMoreState (ges st) = LoadMoreState.READY /\ _isLoadingMore (ges st) = false) ->
  let samples := _velSamples (mot st) in
  let v := _velocity (mot (_onUp cfg st)) in
  let lim (x : Q) := clamp x (- maxVelocity cfg) (maxVelocity cfg) in
  match samples with
  | [] => v = 0%Q
  | [s] => v = lim (delta s * 60)%Q
  | _ :: _ :: _ =>
      exists first rest final,
        lastn 5 samples = first :: rest
        /\ last (first :: rest) = Some final
        /\ ((1 # 1000 < t final - t first)%Q ->
            (v == lim (sum_deltas rest / (t final - t first)))%Q)
        /\ ((t final - t first <= 1 # 1000)%Q -> v = lim (delta final * 60)%Q)
  end.
Proof.
  intros Ht Hr Hl samples v lim. subst v.
  rewrite (onUp_velocity cfg st Ht Hr Hl). fold samples.
  destruct samples as [| s0 [| s1 rest]] eqn:E; [reflexivity | reflexivity |].
  rewrite <- E. assert (Hlen : (2 <= length samples)%nat) by (rewrite E; simpl; lia).
  clear E. unfold releaseVelocity.
  destruct (Z.leb_spec 2 (Z.of_nat (length samples))) as [_ | ?]; [| lia].
  replace (Z.to_nat (Z.of_nat (length samples) - Z.min (Z.of_nat (length samples)) 5))
    with (length samples - 5)%nat by lia.
  fold (lastn 5 samples).
  assert (Hw : (2 <= length (lastn 5 samples))%nat).
  { unfold lastn. rewrite length_drop. lia. }
  destruct (lastn 5 samples) as [| first rest'] eqn:Ew; [simpl in Hw; lia |].
  assert (Hfinal : exists final, last (first :: rest') = Some final).
  { destruct (last (first :: rest')) eqn:El; [eauto |].
    apply last_None in El. discriminate. }
  destruct Hfinal as [final Hfinal].
  assert (Hsame : last samples = Some final).
  { rewrite <- Hfinal, <- Ew. unfold lastn.
    rewrite !last_lookup, length_drop, lookup_drop. f_equal. lia. }
  exists first, rest', final. split; [reflexivity |]. split; [exact Hfinal |].
  change (drop 1 (first :: rest')) with rest'.
  pose proof (foldl_elapsed rest' first final 0%Q Hfinal) as Hdt.
  pose proof (foldl_sum_deltas rest' 0%Q) as Hsum.
  set (dtSum := foldl (fun a p => (a + (t (snd p) - t (fst p)))%Q) 0%Q
                  (zip (first :: rest') rest')) in *.
  set (sum := foldl (fun a s => (a + delta s)%Q) 0%Q rest') in *.
  split.
  - intros Hbig. rewrite (proj2 (Qltb_lt (1 # 1000) dtSum)) by lra.
    apply clamp_compat. rewrite Hsum, Hdt. field. lra.
  - intros Hsmall. rewrite (proj2 (Qltb_ge (1 # 1000) dtSum)) by lra.
    now rewrite Hsame.
Qed.

Lemma onUp_release_velocity_witness :
  (_velocity (mot (_onUp scenarioC_config (dragging twoSamples scenarioC_state)))
   == 1000)%Q.
Proof.
  destruct (onUp_release_velocity scenarioC_config (dragging twoSamples scenarioC_state)
              eq_refl
              ltac:(intros [H _]; discriminate H)
              ltac:(intros [H _]; discriminate H))
    as (first & rest & final & Hw & Hf & Hbig & _).
  injection Hw as <- <-. injection Hf as <-.
  rewrite Hbig; reflexivity.
Defined.

(** C7, as stated, fails already with two samples: the delta of the oldest
    sample of the window only contributes its time stamp.  With the samples
    (t = 0, delta = 10) and (t = 0.01, delta = 10) the velocity is
    10 / 0.01 = 1000, not (10 + 10) / 0.01 = 2000. *)
Lemma onUp_release_velocity_counterexample :
  let st := dragging twoSamples scenarioC_state in
  let window := lastn 5 (_velSamples (mot st)) in
  (_velocity (mot (_onUp scenarioC_config st)) == 1000)%Q
  /\ (clamp (sum_deltas window / ((1 # 100) - 0)) (- maxVelocity scenarioC_config)
        (maxVelocity scenarioC_config) == 2000)%Q
  /\ ~ (_velocity (mot (_onUp scenarioC_config st))
        == clamp (sum_deltas window / ((1 # 100) - 0)) (- maxVelocity scenarioC_config)
             (maxVelocity scenarioC_config))%Q.
Proof. vm_compute. repeat split; congruence. Qed.

(** ** Windowing engine: what the layout leaves alone *)


Lemma same_but_win_refl (st : State) : same_but_win st st.
Proof. now destruct st. Qed.

Lemma same_but_win_trans (a b c : State) :
  same_but_win a b -> same_but_win b c -> same_but_win a c.
Proof. unfold same_but_win. intros -> ->. now destruct a. Qed.

Lemma same_but_win_with (st : State) (w : Window) : same_but_win st (with_win st w).
Proof. now destruct st. Qed.

Ltac window_only :=
  repeat match goal with
         | |- context [match ?x with _ => _ end] => destruct x
         end;
  first [apply same_but_win_refl | apply same_but_win_with].

Lemma deactivate_window (node : option NodeId) (st : State) :
  same_but_win st (deactivate node st).
Proof. unfold deactivate. window_only. Qed.

Lemma with_nodes_window (st : State) (ns : list Node) : same_but_win st (with_nodes st ns).
Proof. apply same_but_win_with. Qed.

Lemma render_window (cfg : Config) (n : NodeId) (idx : Z) (st : State) :
  same_but_win st (render cfg n idx st).
Proof. unfold render. window_only. Qed.

Lemma appear_window (n : NodeId) (idx : Z) (st : State) : same_but_win st (appear n idx st).
Proof. unfold appear. window_only. Qed.

Lemma updateItemClickHandler_window (cfg : Config) (n : NodeId) (i : Z) (st : State) :
  same_but_win st (_updateItemClickHandler cfg n i st).
Proof. unfold _updateItemClickHandler. window_only. Qed.

Lemma placeDynamic_window (cfg : Config) (n : NodeId) (idx : Z) (st : State) :
  same_but_win st (placeDynamic cfg n idx st).
Proof. apply same_but_win_with. Qed.

Lemma placeFixed_window (cfg : Config) (n : NodeId) (idx : Z) (st : State) :
  same_but_win st (placeFixed cfg n idx st).
Proof. apply same_but_win_with. Qed.

Lemma acquireSlotNode_window (cfg : Config) (idx slot : Z) (st : State) :
  same_but_win st (snd (acquireSlotNode cfg idx slot st)).
Proof. unfold acquireSlotNode. window_only. Qed.

Lemma count_relayout_window (st : State) : same_but_win st (count_relayout st).
Proof. apply same_but_win_with. Qed.

Lemma set_slotFirstIndex_window (i : Z) (st : State) :
  same_but_win st (set_slotFirstIndex i st).
Proof. apply same_but_win_with. Qed.

Lemma rotateSlots_window (cfg : Config) (diff newFirst : Z) (st : State) :
  same_but_win st (rotateSlots cfg diff newFirst st).
Proof. apply same_but_win_with. Qed.

Section LayoutFrame.
Variable upd : Z -> option Q -> State -> option State.
Variable cfg : Config.
Variable P : State -> State -> Prop.
Hypothesis P_refl : forall st, P st st.
Hypothesis P_trans : forall a b c, P a b -> P b c -> P a c.
Hypothesis P_win : forall st st', same_but_win st st' -> P st st'.
Hypothesis P_upd : forall i x st st', upd i x st = Some st' -> P st st'.

Lemma layoutSingleSlot_frame (node : option NodeId) (idx slot : Z) (st st' : State) :
  _layoutSingleSlot upd cfg node idx slot st = Some st' -> P st st'.
Proof.
  unfold _layoutSingleSlot.
  destruct (useVirtualList cfg); simpl; [| intros [= <-]; apply P_refl].
  destruct (useDynamicSize cfg).
  - pose proof (acquireSlotNode_window cfg idx slot st) as Hacq.
    destruct (acquireSlotNode cfg idx slot st) as [[newNode |] st1]; simpl in Hacq.
    + set (st4 := render cfg newNode idx _).
      assert (H4 : same_but_win st st4).
      { subst st4. eapply same_but_win_trans; [exact Hacq |].
        eapply same_but_win_trans; [apply with_nodes_window |].
        eapply same_but_win_trans; [apply updateItemClickHandler_window |].
        apply render_window. }
      destruct (sizeCorrection cfg newNode idx st4) as [size |].
      * intros Hupd. apply P_upd in Hupd. eapply P_trans; [apply P_win, H4 | exact Hupd].
      * intros [= <-]. apply P_win.
        eapply same_but_win_trans; [exact H4 |].
        eapply same_but_win_trans; [apply placeDynamic_window | apply appear_window].
    + intros [= <-]. now apply P_win.
  - destruct node as [n |]; intros [= <-]; [| apply P_refl].
    apply P_win.
    eapply same_but_win_trans; [apply with_nodes_window |].
    eapply same_but_win_trans; [apply placeFixed_window |].
    eapply same_but_win_trans; [apply updateItemClickHandler_window |].
    eapply same_but_win_trans; [apply render_window | apply appear_window].
Qed.

Lemma for_each_frame {A} (body : A -> State -> option State) (l : list A) :
  (forall x st st', body x st = Some st' -> P st st') ->
  forall st st', for_each body l st = Some st' -> P st st'.
Proof.
  intros Hbody. induction l as [| x rest IH]; intros st st'; simpl.
  - intros [= <-]. apply P_refl.
  - destruct (body x st) as [st1 |] eqn:E; simpl; [| discriminate].
    intros H. eapply P_trans; [eapply Hbody, E | eapply IH, H].
Qed.

Lemma layoutSlots_frame (firstIndex : Z) (st st' : State) :
  _layoutSlots upd cfg firstIndex st = Some st' -> P st st'.
Proof.
  unfold _layoutSlots. destruct (useVirtualList cfg); simpl; [| intros [= <-]; apply P_refl].
  intros H. eapply P_trans; [apply P_win, count_relayout_window |].
  eapply for_each_frame; [| exact H].
  intros s st1 st2. unfold layoutSlots_body.
  destruct (totalCount st1 <=? firstIndex + s).
  - intros [= <-]. apply P_win, deactivate_window.
  - apply layoutSingleSlot_frame.
Qed.

Lemma reconcile_frame (force : bool) (newFirst : Z) (st st' : State) :
  reconcile upd cfg force newFirst st = Some st' -> P st st'.
Proof.
  unfold reconcile.
  assert (Hfull : _layoutSlots upd cfg newFirst (set_slotFirstIndex newFirst st) = Some st'
                  -> P st st').
  { intros H. eapply P_trans; [apply P_win, set_slotFirstIndex_window |].
    eapply layoutSlots_frame, H. }
  destruct force; [exact Hfull |].
  destruct (newFirst - _slotFirstIndex (win st) =? 0); [intros [= <-]; apply P_refl |].
  destruct (_slots (win st) <=? Z.abs (newFirst - _slotFirstIndex (win st)));
    [exact Hfull |].
  intros H. eapply P_trans; [apply P_win, rotateSlots_window |].
  eapply for_each_frame; [| exact H].
  intros i st1 st2. unfold exposed_body.
  match goal with |- context [if ?c then Some _ else _] => destruct c end.
  - intros [= <-]. apply P_win, deactivate_window.
  - apply layoutSingleSlot_frame.
Qed.

Lemma updateVisible_frame_gen (force : bool) (st st' : State) :
  _updateVisible upd cfg force st = Some st' -> P st st'.
Proof.
  unfold _updateVisible. destruct (useVirtualList cfg); simpl.
  - apply reconcile_frame.
  - intros [= <-]. apply P_refl.
Qed.
End LayoutFrame.


Lemma frame_refl (st : State) : frame st st.
Proof. now repeat split. Qed.

Lemma frame_trans (a b c : State) : frame a b -> frame b c -> frame a c.
Proof. unfold frame. intuition congruence. Qed.

Lemma frame_win (st st' : State) : same_but_win st st' -> frame st st'.
Proof. intros ->. now repeat split. Qed.

Lemma finish_rebuild_frame (cfg : Config) (st : State) (sizes ps : list Q) (acc : Q) :
  frame st (finish_rebuild cfg st sizes ps acc).
Proof. now repeat split. Qed.

Lemma rebuildPrefixSumFrom_frame (cfg : Config) (i : Z) (st : State) :
  frame st (_rebuildPrefixSumFrom cfg i st).
Proof.
  unfold _rebuildPrefixSumFrom, _buildPrefixSum.
  repeat match goal with
         | |- context [match ?x with _ => _ end] => destruct x
         end; apply finish_rebuild_frame.
Qed.

Lemma updateItemHeight_frame (fuel : nat) (cfg : Config) (i : Z) (x : option Q)
    (st st' : State) :
  updateItemHeight fuel cfg i x st = Some st' -> frame st st'.
Proof.
  revert i x st st'. induction fuel as [| fuel IH]; intros i x st st'; [discriminate |].
  simpl.
  repeat match goal with
         | |- context [match ?c with _ => _ end] => destruct c
         end; try (intros [= <-]; apply frame_refl).
  intros H.
  eapply frame_trans;
    [| eapply (updateVisible_frame_gen _ cfg frame frame_refl frame_trans frame_win IH), H].
  eapply frame_trans; [| apply rebuildPrefixSumFrom_frame]. now repeat split.
Qed.

Lemma updateVisible_frame (fuel : nat) (cfg : Config) (force : bool) (st st' : State) :
  updateVisible fuel cfg force st = Some st' -> frame st st'.
Proof.
  apply (updateVisible_frame_gen _ cfg frame frame_refl frame_trans frame_win).
  intros i x. apply updateItemHeight_frame.
Qed.

(** ** Windowing engine: layouts without size corrections *)

Lemma quiet_step_refl (st : State) : quiet_step st st.
Proof. split; [apply same_but_win_refl | now repeat split]. Qed.

Lemma quiet_step_trans (a b c : State) : quiet_step a b -> quiet_step b c -> quiet_step a c.
Proof.
  intros (H1 & H2 & H3 & H7) (H4 & H5 & H6 & H8).
  split; [eapply same_but_win_trans; eassumption |].
  repeat split; congruence.
Qed.

Lemma quiet_step_frame (st st' : State) : quiet_step st st' -> frame st st'.
Proof. intros [H _]. now apply frame_win. Qed.

Lemma quiet_step_tbl (st st' : State) : quiet_step st st' -> tbl st' = tbl st.
Proof. intros [-> _]. reflexivity. Qed.

Ltac quiet_prim :=
  repeat match goal with
         | |- context [match ?x with _ => _ end] => destruct x
         end;
  (split; [first [apply same_but_win_refl | apply same_but_win_with] | now repeat split]).

Lemma deactivate_quiet (node : option NodeId) (st : State) : quiet_step st (deactivate node st).
Proof. unfold deactivate. quiet_prim. Qed.

Lemma with_nodes_quiet (st : State) (ns : list Node) : quiet_step st (with_nodes st ns).
Proof. unfold with_nodes. quiet_prim. Qed.

Lemma render_quiet (cfg : Config) (n : NodeId) (idx : Z) (st : State) :
  quiet_step st (render cfg n idx st).
Proof. unfold render. quiet_prim. Qed.

Lemma appear_quiet (n : NodeId) (idx : Z) (st : State) : quiet_step st (appear n idx st).
Proof. unfold appear. quiet_prim. Qed.

Lemma updateItemClickHandler_quiet (cfg : Config) (n : NodeId) (i : Z) (st : State) :
  quiet_step st (_updateItemClickHandler cfg n i st).
Proof. unfold _updateItemClickHandler, with_nodes. quiet_prim. Qed.

Lemma placeDynamic_quiet (cfg : Config) (n : NodeId) (idx : Z) (st : State) :
  quiet_step st (placeDynamic cfg n idx st).
Proof. unfold placeDynamic, with_nodes. quiet_prim. Qed.

Lemma placeFixed_quiet (cfg : Config) (n : NodeId) (idx : Z) (st : State) :
  quiet_step st (placeFixed cfg n idx st).
Proof. unfold placeFixed, with_nodes. quiet_prim. Qed.

Lemma acquireSlotNode_quiet (cfg : Config) (idx slot : Z) (st : State) :
  quiet_step st (snd (acquireSlotNode cfg idx slot st)).
Proof. unfold acquireSlotNode. quiet_prim. Qed.

Lemma settled_tbl (cfg : Config) (st st' : State) :
  tbl st' = tbl st -> totalCount st' = totalCount st -> settled cfg st -> settled cfg st'.
Proof. unfold settled. intros -> ->. auto. Qed.

Lemma settled_quiet_step (cfg : Config) (st st' : State) :
  quiet_step st st' -> settled cfg st -> settled cfg st'.
Proof.
  intros H. apply settled_tbl; [now apply quiet_step_tbl |].
  now destruct (quiet_step_frame _ _ H).
Qed.

Lemma quiet_quiet_step (cfg : Config) (st st' : State) :
  quiet_step st st' -> quiet cfg st -> quiet cfg st'.
Proof. intros H [Hf | Hs]; [now left | right; eapply settled_quiet_step; eassumption]. Qed.

Lemma Qeq_bool_eq (x y : Q) : (x == y)%Q -> Qeq_bool x y = true.
Proof. apply Qeq_bool_iff. Qed.

(** On a settled table the check after the render callback passes. *)
Lemma sizeCorrection_settled (cfg : Config) (n : NodeId) (idx : Z) (st : State) :
  settled cfg st -> 0 <= idx < totalCount st ->
  sizeCorrection cfg n idx (render cfg n idx st) = None.
Proof.
  intros Hs Hi. destruct (Hs idx Hi) as (s & Hat & Hsrc).
  unfold sizeCorrection.
  rewrite (quiet_step_tbl _ _ (render_quiet cfg n idx st)), Hat.
  destruct (getItemHeightFn cfg) as [f |].
  - now rewrite (Qeq_bool_eq _ _ Hsrc).
  - unfold render. destruct (renderItemFn cfg) as [r |] eqn:Er.
    + cbn [win with_win nodes]. rewrite list_lookup_alter_eq.
      match goal with |- context [_ <$> ?o] => destruct o as [node |] end;
        [| reflexivity].
      change (_ <$> Some node) with
        (Some (let '(w', h') := r idx (width node, height node) in
               node_setContentSize w' h' node)).
      specialize (Hsrc (width node) (height node)).
      destruct (r idx (width node, height node)) as [w' h'].
      unfold _getNodeMainSize. cbn [node_setContentSize height width].
      destruct (Qltb 1 _) eqn:E; [| reflexivity].
      apply Qltb_lt in E. destruct (_isVertical cfg); lra.
    + match goal with |- context [match ?o with Some _ => _ | None => _ end] =>
        destruct o as [node |] end; [| reflexivity].
      specialize (Hsrc (width node) (height node)). cbv beta iota zeta in Hsrc.
      unfold _getNodeMainSize.
      destruct (Qltb 1 _) eqn:E; [| reflexivity].
      apply Qltb_lt in E. destruct (_isVertical cfg); lra.
Qed.

Section QuietLayout.
Variable upd : Z -> option Q -> State -> option State.
Variable cfg : Config.

Lemma layoutSingleSlot_quiet (node : option NodeId) (idx slot : Z) (st : State) :
  quiet cfg st -> 0 <= idx < totalCount st ->
  exists st', _layoutSingleSlot upd cfg node idx slot st = Some st' /\ quiet_step st st'.
Proof.
  intros Hq Hi. unfold _layoutSingleSlot.
  destruct (useVirtualList cfg); simpl; [| eexists; split; [reflexivity | apply quiet_step_refl]].
  destruct (useDynamicSize cfg) eqn:Ed.
  - destruct Hq as [Hq | Hs]; [congruence |].
    pose proof (acquireSlotNode_quiet cfg idx slot st) as Hacq.
    destruct (acquireSlotNode cfg idx slot st) as [[newNode |] st1]; simpl in Hacq.
    + set (st3 := _updateItemClickHandler cfg newNode idx _).
      assert (H3 : quiet_step st st3).
      { subst st3. eapply quiet_step_trans; [exact Hacq |].
        eapply quiet_step_trans; [apply with_nodes_quiet |].
        apply updateItemClickHandler_quiet. }
      rewrite sizeCorrection_settled.
      * eexists. split; [reflexivity |].
        eapply quiet_step_trans; [exact H3 |].
        eapply quiet_step_trans; [apply render_quiet |].
        eapply quiet_step_trans; [apply placeDynamic_quiet | apply appear_quiet].
      * eapply settled_quiet_step; eassumption.
      * destruct (quiet_step_frame _ _ H3) as [-> _]. exact Hi.
    + eexists. split; [reflexivity | exact Hacq].
  - destruct node as [n |]; (eexists; split; [reflexivity |]); [| apply quiet_step_refl].
    eapply quiet_step_trans; [apply with_nodes_quiet |].
    eapply quiet_step_trans; [apply placeFixed_quiet |].
    eapply quiet_step_trans; [apply updateItemClickHandler_quiet |].
    eapply quiet_step_trans; [apply render_quiet | apply appear_quiet].
Qed.
End QuietLayout.

Lemma for_each_inv {A} (body : A -> State -> option State) (l : list A)
    (Inv : State -> Prop) (R : State -> State -> Prop) :
  (forall st, R st st) -> (forall a b c, R a b -> R b c -> R a c) ->
  (forall x st, x ∈ l -> Inv st -> exists st', body x st = Some st' /\ R st st' /\ Inv st') ->
  forall st, Inv st -> exists st', for_each body l st = Some st' /\ R st st' /\ Inv st'.
Proof.
  intros Hrefl Htrans. induction l as [| x rest IH]; intros Hbody st Hinv; simpl.
  - exists st. auto.
  - destruct (Hbody x st ltac:(left) Hinv) as (st1 & E & HR & Hinv1). rewrite E. simpl.
    destruct (IH (fun y s Hy => Hbody y s ltac:(now right)) st1 Hinv1)
      as (st2 & E2 & HR2 & Hinv2).
    exists st2. eauto.
Qed.

Section QuietReconcile.
Variable upd : Z -> option Q -> State -> option State.
Variable cfg : Config.

Lemma layoutSlots_quiet (firstIndex : Z) (st : State) :
  quiet cfg st -> 0 <= firstIndex ->
  exists st', _layoutSlots upd cfg firstIndex st = Some st'
              /\ same_but_win st st'
              /\ _slots (win st') = _slots (win st)
              /\ _slotFirstIndex (win st') = _slotFirstIndex (win st)
              /\ relayouts (win st')
                 = (if useVirtualList cfg then S (relayouts (win st))
                    else relayouts (win st)).
Proof.
  intros Hq Hf. unfold _layoutSlots.
  destruct (useVirtualList cfg); simpl;
    [| eexists; split; [reflexivity |]; split; [apply same_but_win_refl | auto]].
  destruct (for_each_inv (layoutSlots_body upd cfg firstIndex)
              (seqZ 0 (_slots (win st))) (quiet cfg) quiet_step
              quiet_step_refl quiet_step_trans) with (st := count_relayout st)
    as (st' & E & HR & _).
  - intros s st1 Hs Hq1. apply elem_of_seqZ in Hs. unfold layoutSlots_body.
    destruct (Z.leb_spec (totalCount st1) (firstIndex + s)).
    + eexists. split; [reflexivity |]. split; [apply deactivate_quiet |].
      eapply quiet_quiet_step; [apply deactivate_quiet | exact Hq1].
    + destruct (layoutSingleSlot_quiet upd cfg (slotNode (win st1) s)
                  (firstIndex + s) s st1 Hq1 ltac:(lia)) as (st2 & E & HR).
      exists st2. split; [exact E |]. split; [exact HR |].
      eapply quiet_quiet_step; eassumption.
  - destruct Hq as [Hq | Hq]; [now left | right].
    eapply settled_tbl; [| | exact Hq]; reflexivity.
  - exists st'. split; [exact E |]. destruct HR as (Hw & Hs & Hi & Hr).
    split; [eapply same_but_win_trans; [apply count_relayout_window | exact Hw] |].
    auto.
Qed.

(** Without size corrections [reconcile] returns, and leaves the window
    first index at [newFirst]. *)
Lemma reconcile_quiet (force : bool) (newFirst : Z) (st : State) :
  quiet cfg st -> 0 <= newFirst ->
  exists st', reconcile upd cfg force newFirst st = Some st'
              /\ same_but_win st st'
              /\ _slots (win st') = _slots (win st)
              /\ (useVirtualList cfg = true -> _slotFirstIndex (win st') = newFirst)
              /\ (force = true ->
                  relayouts (win st')
                  = (if useVirtualList cfg then S (relayouts (win st))
                     else relayouts (win st))).
Proof.
  intros Hq Hf. unfold reconcile.
  assert (Hfull : exists st',
             _layoutSlots upd cfg newFirst (set_slotFirstIndex newFirst st) = Some st'
             /\ same_but_win st st'
             /\ _slots (win st') = _slots (win st)
             /\ (useVirtualList cfg = true -> _slotFirstIndex (win st') = newFirst)
             /\ (relayouts (win st')
                 = (if useVirtualList cfg then S (relayouts (win st))
                    else relayouts (win st)))).
  { destruct (layoutSlots_quiet newFirst (set_slotFirstIndex newFirst st))
      as (st' & E & HR & Hs & Hi & Hr); [| exact Hf |].
    - destruct Hq as [Hq | Hq]; [now left | right].
      eapply settled_tbl; [| | exact Hq]; reflexivity.
    - exists st'. split; [exact E |].
      split; [| split; [exact Hs | split; [intros _; exact Hi | exact Hr]]].
      eapply same_but_win_trans; [apply set_slotFirstIndex_window | exact HR]. }
  destruct force.
  { destruct Hfull as (st' & E & H1 & H2 & H3 & H4). exists st'. auto 10. }
  destruct (Z.eqb_spec (newFirst - _slotFirstIndex (win st)) 0) as [E0 | Hne].
  { exists st. split; [reflexivity |]. split; [apply same_but_win_refl |].
    split; [reflexivity |]. split; [intros _; lia | discriminate]. }
  destruct (Z.leb_spec (_slots (win st)) (Z.abs (newFirst - _slotFirstIndex (win st))))
    as [Hbig | Hsmall].
  { destruct Hfull as (st' & E & H1 & H2 & H3 & H4). exists st'.
    split; [exact E |]. split; [exact H1 |]. split; [exact H2 |].
    split; [exact H3 | discriminate]. }
  set (diff := newFirst - _slotFirstIndex (win st)) in *.
  set (st0 := rotateSlots cfg diff newFirst st).
  destruct (for_each_inv (exposed_body upd cfg diff) (seqZ 0 (Z.abs diff))
              (fun s => quiet cfg s /\ quiet_step st0 s) quiet_step
              quiet_step_refl quiet_step_trans) with (st := st0)
    as (st' & E & HR & _).
  - intros i st1 Hi (Hq1 & Hst1). apply elem_of_seqZ in Hi. unfold exposed_body.
    pose proof Hst1 as (Hw1 & Hs1 & Hf1 & Hr1).
    assert (Hstep : forall st2, quiet_step st1 st2 ->
              quiet_step st1 st2 /\ quiet cfg st2 /\ quiet_step st0 st2).
    { intros st2 H2. split; [exact H2 |]. split; [eapply quiet_quiet_step; eassumption |].
      eapply quiet_step_trans; eassumption. }
    match goal with |- context [if ?c then Some _ else _] => destruct c eqn:Ec end.
    + eexists. split; [reflexivity |]. apply Hstep, deactivate_quiet.
    + apply Z.leb_gt in Ec.
      match type of Ec with ?idx < _ =>
        destruct (layoutSingleSlot_quiet upd cfg
                    (slotNode (win st1)
                       (if 0 <? diff then _slots (win st1) - Z.abs diff + i else i))
                    idx (if 0 <? diff then _slots (win st1) - Z.abs diff + i else i)
                    st1 Hq1) as (st2 & E & HR)
      end.
      * split; [| exact Ec]. rewrite Hf1, Hs1. subst st0. simpl.
        destruct (0 <? diff); lia.
      * exists st2. split; [exact E |]. now apply Hstep.
  - split; [| apply quiet_step_refl].
    destruct Hq as [Hq | Hq]; [now left | right].
    eapply settled_tbl; [| | exact Hq]; reflexivity.
  - exists st'. destruct HR as (Hw & Hs & Hi & Hr).
    split; [exact E |]. split; [| split; [| split]].
    + eapply same_but_win_trans; [apply rotateSlots_window | exact Hw].
    + rewrite Hs. reflexivity.
    + intros _. rewrite Hi. reflexivity.
    + discriminate.
Qed.

Lemma newFirstIndex_nonneg (st : State) : 0 <= newFirstIndex cfg st.
Proof.
  unfold newFirstIndex, _calcVisibleRange, clampZ.
  repeat match goal with
         | |- context [if ?c then _ else _] => destruct c
         end; simpl; lia.
Qed.

Lemma updateVisible_quiet (force : bool) (st : State) :
  quiet cfg st ->
  exists st', _updateVisible upd cfg force st = Some st'
              /\ same_but_win st st'
              /\ _slots (win st') = _slots (win st)
              /\ (force = true ->
                  relayouts (win st')
                  = (if useVirtualList cfg then S (relayouts (win st))
                     else relayouts (win st))).
Proof.
  intros Hq. unfold _updateVisible. destruct (useVirtualList cfg) eqn:Ev; simpl.
  - destruct (reconcile_quiet force (newFirstIndex cfg st) st Hq (newFirstIndex_nonneg st))
      as (st' & E & Hw & Hs & _ & Hr).
    exists st'. rewrite Ev in Hr. auto.
  - exists st. split; [reflexivity |]. split; [apply same_but_win_refl | auto].
Qed.
End QuietReconcile.

(** ** Pull gestures *)

Lemma Math_round_idem (x : Q) : Math_round (Math_round x) = Math_round x.
Proof.
  unfold Math_round. f_equal.
  set (k := Qfloor (x + (1 # 2))).
  pose proof (Qfloor_le (inject_Z k + (1 # 2))) as Hle.
  pose proof (Qlt_floor (inject_Z k + (1 # 2))) as Hlt.
  set (m := Qfloor (inject_Z k + (1 # 2))) in *.
  rewrite inject_Z_plus in Hlt. change (inject_Z 1) with 1%Q in Hlt.
  assert (Hmk : (m <= k)%Z).
  { destruct (Z_le_gt_dec m k) as [H | H]; [exact H | exfalso].
    assert (Hc : (inject_Z (k + 1) <= inject_Z m)%Q) by (rewrite <- Zle_Qle; lia).
    rewrite inject_Z_plus in Hc. change (inject_Z 1) with 1%Q in Hc. lra. }
  assert (Hkm : (k <= m)%Z).
  { destruct (Z_le_gt_dec k m) as [H | H]; [exact H | exfalso].
    assert (Hc : (inject_Z (m + 1) <= inject_Z k)%Q) by (rewrite <- Zle_Qle; lia).
    rewrite inject_Z_plus in Hc. change (inject_Z 1) with 1%Q in Hc. lra. }
  lia.
Qed.

Lemma align_idem (cfg : Config) (x : Q) : align cfg (align cfg x) = align cfg x.
Proof. unfold align. destruct (pixelAlign cfg); [apply Math_round_idem | reflexivity]. Qed.

Lemma onMove_frame (fuel : nat) (cfg : Config) (e : MoveEvent) (st st' : State) :
  _isTouching (mot st) = true ->
  _onMove fuel cfg e st = Some st' ->
  ges st' = ges (onMove_gesture cfg e st) /\ mot st' = mot (onMove_gesture cfg e st).
Proof.
  intros Ht. unfold _onMove. rewrite Ht. simpl.
  destruct (useVirtualList cfg).
  - intros H. apply updateVisible_frame in H. destruct H as (_ & _ & Hg & Hm). now split.
  - now intros [= <-].
Qed.

Lemma pullRefresh_table (cfg : Config) (delta pos lo hi fd : Q) (st : State) :
  tbl (snd (pullRefresh cfg delta pos lo hi fd st)) = tbl st
  /\ totalCount (snd (pullRefresh cfg delta pos lo hi fd st)) = totalCount st.
Proof.
  unfold pullRefresh, _updateRefreshState.
  repeat match goal with
         | |- context [match ?c with _ => _ end] => destruct c
         end; now split.
Qed.

Lemma pullLoadMore_table (cfg : Config) (delta pos lo hi fd : Q) (st : State) :
  tbl (snd (pullLoadMore cfg delta pos lo hi fd st)) = tbl st
  /\ totalCount (snd (pullLoadMore cfg delta pos lo hi fd st)) = totalCount st.
Proof.
  unfold pullLoadMore, _updateLoadMoreState.
  repeat match goal with
         | |- context [match ?c with _ => _ end] => destruct c
         end; now split.
Qed.

Lemma onMove_gesture_table (cfg : Config) (e : MoveEvent) (st : State) :
  tbl (onMove_gesture cfg e st) = tbl st
  /\ totalCount (onMove_gesture cfg e st) = totalCount st.
Proof.
  unfold onMove_gesture.
  match goal with
  | |- context [pullRefresh ?c ?d ?p ?lo ?hi ?fd st] =>
      pose proof (pullRefresh_table c d p lo hi fd st) as [H1 H2];
      destruct (pullRefresh c d p lo hi fd st) as [fd1 st1]
  end.
  match goal with
  | |- context [pullLoadMore ?c ?d ?p ?lo ?hi ?fd st1] =>
      pose proof (pullLoadMore_table c d p lo hi fd st1) as [H3 H4];
      destruct (pullLoadMore c d p lo hi fd st1) as [fd2 st2]
  end.
  simpl in *. split; congruence.
Qed.

Lemma onMove_gesture_quiet (cfg : Config) (e : MoveEvent) (st : State) :
  quiet cfg st -> quiet cfg (onMove_gesture cfg e st).
Proof.
  intros [Hq | Hq]; [now left | right].
  destruct (onMove_gesture_table cfg e st) as [H1 H2].
  eapply settled_tbl; eassumption.
Qed.

(** A drag move returns when the layout cannot ask for size corrections. *)
Lemma onMove_returns (fuel : nat) (cfg : Config) (e : MoveEvent) (st : State) :
  quiet cfg st -> exists st', _onMove fuel cfg e st = Some st'.
Proof.
  intros Hq. unfold _onMove. destruct (_isTouching (mot st)); simpl; [| eauto].
  destruct (useVirtualList cfg); [| eauto].
  destruct (updateVisible_quiet (updateItemHeight fuel cfg) cfg false
              (onMove_gesture cfg e st) (onMove_gesture_quiet cfg e st Hq))
    as (st' & E & _).
  exists st'. exact E.
Qed.

(** C6 (amended).  For a drag move processed while pull-refresh is enabled,
    no refresh is in progress, the content is at or past the top boundary
    and the delta pulls further past it: the delta added to the position is
    the raw delta times
    [resistance = 1 - min(overOffset / maxOffset, 1) * (1 - dampingRate)],
    the position then being rounded to the nearest integer when [pixelAlign]
    is on; [_pullOffset] becomes
    [min(overOffset + |delta * resistance|, maxOffset)], which is at most
    [maxOffset]; and the refresh state becomes READY when that offset is at
    least the threshold and PULLING otherwise.  The handler returns whenever
    the layout it ends with needs no size correction. *)
Theorem onMove_pull_refresh (fuel : nat) (cfg : Config) (e : MoveEvent) (st : State) :
  _isTouching (mot st) = true ->
  enablePullRefresh cfg = true ->
  _isRefreshing (ges st) = false ->
  (0 < pullRefreshMaxOffset cfg)%Q ->
  let delta := if _isVertical cfg then deltaY e else deltaX e in
  let pos := contentPos (mot st) in
  let minBound := Qmin (_boundsMin (tbl st)) (_boundsMax (tbl st)) in
  let maxBound := Qmax (_boundsMin (tbl st)) (_boundsMax (tbl st)) in
  (if _isVertical cfg then pos <= minBound /\ delta < 0
   else maxBound <= pos /\ 0 < delta)%Q ->
  let overOffset := if _isVertical cfg then (minBound - pos)%Q else (pos - maxBound)%Q in
  let resistance :=
    (1 - Qmin (overOffset / pullRefreshMaxOffset cfg) 1 * (1 - pullDampingRate cfg))%Q in
  let offset := Qmin (overOffset + Qabs (delta * resistance)) (pullRefreshMaxOffset cfg) in
  (quiet cfg st -> exists st', _onMove fuel cfg e st = Some st')
  /\ forall st', _onMove fuel cfg e st = Some st' ->
       contentPos (mot st') = align cfg (pos + delta * resistance)
       /\ _pullOffset (ges st') = offset
       /\ (offset <= pullRefreshMaxOffset cfg)%Q
       /\ _refreshState (ges st')
          = (if Qle_bool (pullRefreshThreshold cfg) offset
             then RefreshState.READY else RefreshState.PULLING).
Proof.
  intros Ht Hen Hnr Hmax delta pos minBound maxBound Hat overOffset resistance offset.
  split; [apply onMove_returns |].
  intros st' Hmove.
  destruct (onMove_frame fuel cfg e st st' Ht Hmove) as [Hg Hm].
  rewrite Hg, Hm. clear Hg Hm Hmove.
  unfold onMove_gesture. fold delta pos minBound maxBound.
  assert (Hpull : pullRefresh cfg delta pos minBound maxBound delta st
                  = ((delta * resistance)%Q,
                     if Qle_bool (pullRefreshThreshold cfg) offset
                     then _updateRefreshState cfg RefreshState.READY offset
                            (set_pullOffset offset st)
                     else _updateRefreshState cfg RefreshState.PULLING offset
                            (set_pullOffset offset st))).
  { unfold pullRefresh. rewrite Hen, Hnr. simpl negb. cbn [andb].
    fold overOffset. fold resistance. fold offset.
    destruct (_isVertical cfg); destruct Hat as [H1 H2].
    - rewrite (proj2 (Qle_bool_iff pos minBound) H1), (proj2 (Qltb_lt delta 0) H2).
      reflexivity.
    - rewrite (proj2 (Qle_bool_iff maxBound pos) H1), (proj2 (Qltb_lt 0 delta) H2).
      reflexivity. }
  rewrite Hpull. clear Hpull.
  set (st1 := if Qle_bool (pullRefreshThreshold cfg) offset then _ else _).
  assert (Hload : pullLoadMore cfg delta pos minBound maxBound (delta * resistance) st1
                  = ((delta * resistance)%Q, st1)).
  { unfold pullLoadMore.
    destruct (enableLoadMore cfg && negb (_isLoadingMore (ges st1)) && _hasMore (ges st1));
      [| reflexivity].
    destruct (_isVertical cfg); destruct Hat as [H1 H2].
    - rewrite (proj2 (Qltb_ge 0 delta)) by lra. now rewrite andb_false_r.
    - rewrite (proj2 (Qltb_ge delta 0)) by lra. now rewrite andb_false_r. }
  rewrite Hload. clear Hload. cbn [set_velSamples _setContentMainPos with_mot mot ges contentPos].
  split; [apply align_idem |].
  assert (Hst1 : _pullOffset (ges st1) = offset
                 /\ _refreshState (ges st1)
                    = (if Qle_bool (pullRefreshThreshold cfg) offset
                       then RefreshState.READY else RefreshState.PULLING)).
  { subst st1. unfold _updateRefreshState.
    destruct (Qle_bool (pullRefreshThreshold cfg) offset);
      case_bool_decide; simpl; auto. }
  destruct Hst1 as [-> ->]. split; [reflexivity |]. split; [| reflexivity].
  apply Q.le_min_r.
Qed.

Lemma onMove_pull_refresh_witness :
  exists st',
    _onMove 1 (scenarioD_config false) (mkMove 0 (-10) 1000) (pulled false (-100)) = Some st'
    /\ (contentPos (mot st') == -100 - 10 * (2 # 3))%Q
    /\ _refreshState (ges st') = RefreshState.READY.
Proof.
  destruct (onMove_pull_refresh 1 (scenarioD_config false) (mkMove 0 (-10) 1000)
              (pulled false (-100)) eq_refl eq_refl eq_refl eq_refl
              ltac:(vm_compute; split; [intros [=] | reflexivity])) as [_ H].
  destruct (_onMove 1 (scenarioD_config false) (mkMove 0 (-10) 1000) (pulled false (-100)))
    as [st' |] eqn:E; [| vm_compute in E; discriminate E].
  exists st'. split; [reflexivity |].
  destruct (H st' eq_refl) as (Hpos & _ & _ & Hstate).
  split; [rewrite Hpos; reflexivity | rewrite Hstate; reflexivity].
Defined.

(** C6, as stated, fails with [pixelAlign] on (the default): at overscroll
    100 a raw delta of -10 is damped to -10 * 2/3, and the position moves
    from -100 to -107, that is by -7. *)
Lemma onMove_pull_refresh_counterexample :
  let st := pulled true (-100) in
  let st' := default st (_onMove 1 (scenarioD_config true) (mkMove 0 (-10) 1000) st) in
  _onMove 1 (scenarioD_config true) (mkMove 0 (-10) 1000) st = Some st'
  /\ contentPos (mot st) = (-100)%Q
  /\ contentPos (mot st') = (-107)%Q
  /\ ~ (contentPos (mot st') - contentPos (mot st)
        == -10 * (1 - Qmin (100 / 150) 1 * (1 - (1 # 2))))%Q.
Proof. vm_compute. repeat split; congruence. Qed.

(** ** Load-more: the NO_MORE state *)

Lemma finishLoadMore_false_from_loading (cfg : Config) (st : State) :
  _isLoadingMore (ges st) = true ->
  _loadMoreState (ges st) = LoadMoreState.LOADING ->
  let st' := finishLoadMore cfg false st in
  _loadMoreState (ges st') = LoadMoreState.NO_MORE
  /\ _loadOffset (ges st') = 0%Q
  /\ _hasMore (ges st') = false
  /\ _isLoadingMore (ges st') = false
  /\ timers (ges st') = timers (ges st).
Proof.
  intros H1 H2. unfold finishLoadMore, _updateLoadMoreState. rewrite H1. simpl.
  rewrite H2. simpl. repeat split.
Qed.

Lemma resetLoadMoreState_rearms (cfg : Config) (st : State) :
  _loadMoreState (ges (resetLoadMoreState cfg st)) = LoadMoreState.IDLE
  /\ _hasMore (ges (resetLoadMoreState cfg st)) = true.
Proof.
  unfold resetLoadMoreState, _updateLoadMoreState. simpl.
  case_bool_decide; simpl; auto.
Qed.

Lemma update_frame (fuel : nat) (cfg : Config) (dt : Q) (st st' : State) :
  update fuel cfg dt st = Some st' -> ges st' = ges st.
Proof.
  unfold update.
  destruct (_isTouching (mot st) || _scrollTween (mot st)); [now intros [= <-] |].
  assert (Hm : ges (fst (update_motion cfg dt st)) = ges st).
  { unfold update_motion.
    repeat match goal with
           | |- context [match ?c with _ => _ end] => destruct c
           end; reflexivity. }
  destruct (update_motion cfg dt st) as [st1 moved]. simpl in Hm.
  destruct (moved && useVirtualList cfg).
  - intros H. apply updateVisible_frame in H. destruct H as (_ & _ & Hg & _). congruence.
  - intros [= <-]. exact Hm.
Qed.

Lemma pullLoadMore_blocked (cfg : Config) (delta pos lo hi fd : Q) (st : State) :
  _hasMore (ges st) = false ->
  pullLoadMore cfg delta pos lo hi fd st = (fd, st).
Proof. intros H. unfold pullLoadMore. rewrite H. now rewrite andb_false_r. Qed.

Lemma pullRefresh_loadMore (cfg : Config) (delta pos lo hi fd : Q) (st : State) :
  let g := ges (snd (pullRefresh cfg delta pos lo hi fd st)) in
  _hasMore g = _hasMore (ges st) /\ _isLoadingMore g = _isLoadingMore (ges st)
  /\ _loadMoreState g = _loadMoreState (ges st)
  /\ loadMoreCalls g = loadMoreCalls (ges st).
Proof.
  unfold pullRefresh, _updateRefreshState.
  repeat match goal with
         | |- context [match ?c with _ => _ end] => destruct c
         end; simpl; auto.
Qed.

(** While [_hasMore] is off a drag move does not touch the load-more
    gesture. *)
Lemma onMove_gesture_blocked (cfg : Config) (e : MoveEvent) (st : State) :
  _hasMore (ges st) = false ->
  let g := ges (onMove_gesture cfg e st) in
  _hasMore g = false /\ _isLoadingMore g = _isLoadingMore (ges st)
  /\ _loadMoreState g = _loadMoreState (ges st)
  /\ loadMoreCalls g = loadMoreCalls (ges st).
Proof.
  intros H. unfold onMove_gesture.
  match goal with
  | |- context [pullRefresh ?c ?d ?p ?lo ?hi ?fd st] =>
      pose proof (pullRefresh_loadMore c d p lo hi fd st) as (H1 & H2 & H3 & H4);
      destruct (pullRefresh c d p lo hi fd st) as [fd1 st1]
  end.
  simpl in H1, H2, H3, H4.
  rewrite pullLoadMore_blocked by congruence. simpl. repeat split; congruence.
Qed.

Lemma onUp_loadMore (cfg : Config) (st : State) :
  exhausted st -> exhausted (_onUp cfg st).
Proof.
  intros (H1 & H2 & H3). unfold _onUp.
  destruct (_isTouching (mot st)); simpl; [| now repeat split].
  unfold exhausted, _triggerRefresh, _triggerLoadMore.
  destruct (bool_decide (_refreshState (ges st) = RefreshState.READY)
            && negb (_isRefreshing (ges st))).
  { unfold _updateRefreshState. simpl. case_bool_decide; simpl; auto. }
  assert (Hnr : bool_decide (_loadMoreState (ges st) = LoadMoreState.READY) = false).
  { apply bool_decide_eq_false_2. destruct H3; congruence. }
  rewrite Hnr. simpl.
  set (st1 := if bool_decide (_refreshState (ges st) <> RefreshState.REFRESHING)
              then _ else _).
  assert (Hst1 : _hasMore (ges st1) = false /\ _isLoadingMore (ges st1) = false
                 /\ _loadMoreState (ges st1) = _loadMoreState (ges st)).
  { subst st1. unfold _updateRefreshState.
    repeat (case_bool_decide; simpl); auto. }
  destruct Hst1 as (G1 & G2 & G3).
  unfold _updateLoadMoreState. simpl.
  repeat (case_bool_decide; simpl); rewrite ?G1, ?G2, ?G3; auto.
Qed.

(** Once the load-more gesture has run dry it stays so under every event
    but [resetLoadMoreState]; and the state NO_MORE itself is kept by every
    event but that one and the release of a touch. *)
Lemma exhausted_step (fuel : nat) (cfg : Config) (ev : Event) (st st' : State) :
  exhausted st -> ev <> ResetLoadMore ->
  step fuel cfg ev st = Some st' ->
  exhausted st'
  /\ (ev <> Up -> _loadMoreState (ges st') = _loadMoreState (ges st)
                  /\ loadMoreCalls (ges st') = loadMoreCalls (ges st)).
Proof.
  intros Hex Hev. pose proof Hex as (H1 & H2 & H3).
  destruct ev; simpl; try congruence.
  - intros [= <-]. split; [exact Hex | now split].
  - unfold _onMove. destruct (_isTouching (mot st)); simpl;
      [| intros [= <-]; split; [exact Hex | now split]].
    intros H.
    pose proof (onMove_gesture_blocked cfg e st H1) as (G1 & G2 & G3 & G4).
    assert (Hg : ges st' = ges (onMove_gesture cfg e st)).
    { destruct (useVirtualList cfg); [| congruence].
      apply updateVisible_frame in H. now destruct H as (_ & _ & Hg & _). }
    clear H. unfold exhausted. rewrite Hg.
    split; [| split; congruence]. repeat split; congruence.
  - intros [= <-]. split; [now apply onUp_loadMore | congruence].
  - intros H. apply update_frame in H. unfold exhausted. rewrite H.
    split; [exact Hex | now split].
  - intros [= <-]. unfold exhausted, finishRefresh, schedule, _updateRefreshState.
    repeat match goal with
           | |- context [match ?c with _ => _ end] => destruct c
           end; simpl; auto.
  - intros [= <-]. unfold finishLoadMore. rewrite H2.
    split; [exact Hex | now split].
  - intros [= <-]. unfold exhausted, fireTimer, _updateRefreshState, _updateLoadMoreState.
    destruct tm; repeat (case_bool_decide; simpl); auto; destruct H3; congruence.
  - intros H. apply updateItemHeight_frame in H. destruct H as (_ & _ & Hg & _).
    unfold exhausted. rewrite Hg. split; [exact Hex | now split].
Qed.

(** A release resets NO_MORE to IDLE (and reports it), unless the same
    release starts a refresh. *)
Lemma onUp_resets_noMore (cfg : Config) (st : State) :
  _isTouching (mot st) = true ->
  _loadMoreState (ges st) = LoadMoreState.NO_MORE ->
  ~ (_refreshState (ges st) = RefreshState.READY /\ _isRefreshing (ges st) = false) ->
  onLoadMoreStateChangeFn cfg = true ->
  _loadMoreState (ges (_onUp cfg st)) = LoadMoreState.IDLE
  /\ _hasMore (ges (_onUp cfg st)) = _hasMore (ges st)
  /\ loadMoreCalls (ges (_onUp cfg st))
     = loadMoreCalls (ges st) ++ [(LoadMoreState.IDLE, 0%Q)].
Proof.
  intros Ht Hs Hr Hcb. unfold _onUp. rewrite Ht. simpl.
  assert (Hn : bool_decide (_refreshState (ges st) = RefreshState.READY)
               && negb (_isRefreshing (ges st)) = false).
  { destruct (bool_decide_reflect (_refreshState (ges st) = RefreshState.READY));
      destruct (_isRefreshing (ges st)); simpl; try reflexivity.
    exfalso. now apply Hr. }
  rewrite Hn, Hs. simpl.
  set (st1 := if bool_decide (_refreshState (ges st) <> RefreshState.REFRESHING)
              then _ else _).
  assert (Hst1 : _hasMore (ges st1) = _hasMore (ges st)
                 /\ _loadMoreState (ges st1) = LoadMoreState.NO_MORE
                 /\ loadMoreCalls (ges st1) = loadMoreCalls (ges st)).
  { subst st1. unfold _updateRefreshState.
    repeat (case_bool_decide; simpl); auto. }
  destruct Hst1 as (G1 & G2 & G3).
  rewrite G2. simpl. unfold _updateLoadMoreState. simpl. rewrite G2, Hcb. simpl.
  rewrite G1, G3. auto.
Qed.

(** C8, evaluated.  After scenario E the load-more state is NO_MORE with
    offset 0 and [_hasMore] off, and nothing is scheduled; a touch that is
    pressed and released then sets the state to IDLE and reports it, while
    [_hasMore] stays off, although [resetLoadMoreState] was not called. *)
Theorem noMore_reset_by_release :
  let st0 := started (scenarioD_config true) 3 80 in
  let st1 := default st0 (run 1 (scenarioD_config true) scenarioE_events st0) in
  let st2 := default st1 (run 1 (scenarioD_config true) [Down; Up] st1) in
  run 1 (scenarioD_config true) scenarioE_events st0 = Some st1
  /\ _loadMoreState (ges st1) = LoadMoreState.NO_MORE
  /\ _loadOffset (ges st1) = 0%Q
  /\ _hasMore (ges st1) = false
  /\ timers (ges st1) = []
  /\ run 1 (scenarioD_config true) [Down; Up] st1 = Some st2
  /\ _loadMoreState (ges st2) = LoadMoreState.IDLE
  /\ _hasMore (ges st2) = false
  /\ (loadMoreCalls (ges st2)).*1
     = [LoadMoreState.READY; LoadMoreState.LOADING; LoadMoreState.NO_MORE;
        LoadMoreState.IDLE].
Proof. vm_compute. repeat split. Qed.

(** ** Size updates *)

Lemma settled_sizes (cfg : Config) (st st' : State) :
  _itemSizes (tbl st') = _itemSizes (tbl st) -> totalCount st' = totalCount st ->
  settled cfg st -> settled cfg st'.
Proof. unfold settled. intros -> ->. auto. Qed.

Lemma rebuildPrefixSumFrom_sizes (cfg : Config) (i : Z) (st : State) :
  _itemSizes (tbl (_rebuildPrefixSumFrom cfg i st)) = _itemSizes (tbl st)
  /\ rebuilds (tbl (_rebuildPrefixSumFrom cfg i st)) = S (rebuilds (tbl st))
  /\ win (_rebuildPrefixSumFrom cfg i st) = win st.
Proof.
  unfold _rebuildPrefixSumFrom, _buildPrefixSum.
  repeat match goal with
         | |- context [match ?x with _ => _ end] => destruct x
         end; now repeat split.
Qed.

Lemma at_set_at {A} (l : list A) (i : Z) (x y : A) :
  at_ l i = Some y -> at_ (set_at l i x) i = Some x.
Proof.
  intros H. pose proof (at_lt _ _ _ H). apply at_Some. split; [lia |].
  unfold set_at. apply list_lookup_insert_eq. lia.
Qed.

(** A call with the size that the table already holds returns at once. *)
Lemma updateItemHeight_same (fuel : nat) (cfg : Config) (i : Z) (x s : Q) (st : State) :
  at_ (_itemSizes (tbl st)) i = Some s -> (s == x)%Q ->
  updateItemHeight (S fuel) cfg i (Some x) st = Some st.
Proof.
  intros Hat Heq. simpl.
  destruct (useDynamicSize cfg); [| reflexivity]. simpl.
  destruct ((i <? 0) || (totalCount st <=? i)); [reflexivity |].
  now rewrite Hat, (Qeq_bool_eq _ _ Heq).
Qed.

(** C9 (amended).  In dynamic-size mode, for a valid index [i] and a size
    [x] that differs from the stored one and with which the table is settled
    (so that the relayout does not correct any size, that of [i] included):
    the first call of [updateItemHeight(i, x)] returns after exactly one
    prefix-sum rebuild and one relayout, with [x] stored for [i]; a second
    call returns the very same state, so it writes nothing and triggers no
    rebuild and no relayout. *)
Theorem updateItemHeight_twice (fuel : nat) (cfg : Config) (i : Z) (x : Q) (st : State) :
  useDynamicSize cfg = true ->
  0 <= i < totalCount st ->
  (exists s, at_ (_itemSizes (tbl st)) i = Some s /\ ~ (s == x)%Q) ->
  settled cfg (withSizes (set_at (_itemSizes (tbl st)) i x) st) ->
  exists st1,
    updateItemHeight (S fuel) cfg i (Some x) st = Some st1
    /\ rebuilds (tbl st1) = S (rebuilds (tbl st))
    /\ relayouts (win st1)
       = (if useVirtualList cfg then S (relayouts (win st)) else relayouts (win st))
    /\ at_ (_itemSizes (tbl st1)) i = Some x
    /\ updateItemHeight (S fuel) cfg i (Some x) st1 = Some st1.
Proof.
  intros Hdyn Hi (s & Hat & Hne) Hset.
  set (st1 := withSizes (set_at (_itemSizes (tbl st)) i x) st) in *.
  destruct (rebuildPrefixSumFrom_sizes cfg i st1) as (Hsz & Hrb & Hwin).
  set (st2 := _rebuildPrefixSumFrom cfg i st1) in *.
  destruct (rebuildPrefixSumFrom_frame cfg i st1) as (Htc & _).
  fold st2 in Htc.
  assert (Hq : quiet cfg st2).
  { right. eapply settled_sizes; [exact Hsz | exact Htc | exact Hset]. }
  destruct (updateVisible_quiet (updateItemHeight fuel cfg) cfg true st2 Hq)
    as (st' & E & Hw & _ & Hr).
  exists st'.
  assert (Hcall : updateItemHeight (S fuel) cfg i (Some x) st = Some st').
  { simpl. rewrite Hdyn. simpl.
    destruct (Z.ltb_spec i 0); [lia |]. destruct (Z.leb_spec (totalCount st) i); [lia |].
    simpl. rewrite Hat.
    destruct (Qeq_bool s x) eqn:Eq; [apply Qeq_bool_iff in Eq; contradiction |].
    exact E. }
  assert (Htbl : tbl st' = tbl st2) by (rewrite Hw; reflexivity).
  assert (Hx : at_ (_itemSizes (tbl st')) i = Some x).
  { rewrite Htbl, Hsz. subst st1. simpl. eapply at_set_at, Hat. }
  split; [exact Hcall |]. split; [rewrite Htbl, Hrb; reflexivity |].
  split; [rewrite (Hr eq_refl), Hwin; reflexivity |].
  split; [exact Hx |].
  eapply updateItemHeight_same; [exact Hx | reflexivity].
Qed.

Lemma updateItemHeight_twice_witness :
  exists st1,
    updateItemHeight 1 resized_config 0 (Some 70%Q) (started (scenarioD_config true) 3 80)
    = Some st1
    /\ rebuilds (tbl st1) = 2%nat
    /\ updateItemHeight 1 resized_config 0 (Some 70%Q) st1 = Some st1.
Proof.
  destruct (updateItemHeight_twice 0 resized_config 0 70%Q
              (started (scenarioD_config true) 3 80) eq_refl ltac:(vm_compute; split; congruence))
    as (st1 & E & Hrb & _ & _ & E2).
  - exists 50%Q. split; [reflexivity | intros H; vm_compute in H; discriminate H].
  - intros idx Hidx. change (totalCount _) with 3 in Hidx.
    assert (Hcases : idx = 0 \/ idx = 1 \/ idx = 2) by lia.
    destruct Hcases as [-> | [-> | ->]]; eexists; (split; [reflexivity |]); reflexivity.
  - exists st1. split; [exact E |]. split; [exact Hrb | exact E2].
Defined.

(** C9, as stated, fails when [x] disagrees with the size source: with
    [getItemHeightFn] reporting 50 for item 0, [updateItemHeight(0, 70)]
    stores 70, rebuilds, and the relayout it runs puts 50 back and rebuilds
    again; the second call finds 50, not 70, and does the same. *)
Lemma updateItemHeight_twice_counterexample :
  let st0 := started (scenarioD_config true) 3 80 in
  let st1 := default st0 (updateItemHeight 3 (scenarioD_config true) 0 (Some 70%Q) st0) in
  let st2 := default st1 (updateItemHeight 3 (scenarioD_config true) 0 (Some 70%Q) st1) in
  updateItemHeight 3 (scenarioD_config true) 0 (Some 70%Q) st0 = Some st1
  /\ updateItemHeight 3 (scenarioD_config true) 0 (Some 70%Q) st1 = Some st2
  /\ rebuilds (tbl st0) = 1%nat
  /\ rebuilds (tbl st1) = 3%nat
  /\ at_ (_itemSizes (tbl st1)) 0 = Some 50%Q
  /\ rebuilds (tbl st2) = 5%nat
  /\ relayouts (win st2) = S (S (relayouts (win st1))).
Proof. vm_compute. repeat split. Qed.

(** ** Node pool *)

Lemma pool_ok_weaken (p : InternalNodePool) (h h' : NodeId -> Prop) (len len' : nat) :
  (forall n, h' n -> h n) -> (len <= len')%nat -> pool_ok p h len -> pool_ok p h' len'.
Proof.
  intros Hh Hlen [H1 H2]. split; [| exact H2].
  intros t l Hl. destruct (H1 t l Hl) as [Hnd Hin]. split; [exact Hnd |].
  intros n Hn. destruct (Hin n Hn) as [Hnh Hb]. split; [| lia].
  intros Hc. apply Hnh, Hh, Hc.
Qed.

(** [put] of a held node: the node leaves the held set and joins the idle
    list of its type (or is destroyed when the type is unknown). *)
Lemma pool_put_ok (p : InternalNodePool) (h : NodeId -> Prop) (ns : list Node)
    (n : NodeId) (c : Z) :
  pool_ok p h (length ns) -> h n -> (n < length ns)%nat ->
  let p' := fst (InternalNodePool_put (Some n) c p ns) in
  let ns' := snd (InternalNodePool_put (Some n) c p ns) in
  pool_ok p' (fun m => h m /\ m <> n) (length ns')
  /\ length ns' = length ns
  /\ (forall m, m <> n -> ns' !! m = ns !! m)
  /\ (forall t, is_Some (pools p' !! t) <-> is_Some (pools p !! t)).
Proof.
  intros [H1 H2] Hn Hlen. unfold InternalNodePool_put.
  destruct (pools p !! c) as [l |] eqn:Ec; cbn [fst snd pools].
  - rewrite length_alter. split; [| split; [reflexivity | split]].
    + split.
      * cbn [pools]. intros t l' Hl'. destruct (decide (c = t)) as [<- | Hne].
        -- rewrite lookup_insert_eq in Hl'. injection Hl' as <-.
           destruct (H1 c l Ec) as [Hnd Hin]. split.
           ++ constructor; [| exact Hnd]. intros Hc. now destruct (Hin n Hc).
           ++ intros m Hm. apply elem_of_cons in Hm as [-> | Hm].
              ** split; [intros [_ Hc]; now apply Hc | exact Hlen].
              ** destruct (Hin m Hm) as [Hnh Hb]. split; [intros [Hc _]; now apply Hnh | exact Hb].
        -- rewrite lookup_insert_ne in Hl' by exact Hne.
           destruct (H1 t l' Hl') as [Hnd Hin]. split; [exact Hnd |].
           intros m Hm. destruct (Hin m Hm) as [Hnh Hb].
           split; [intros [Hc _]; now apply Hnh | exact Hb].
      * cbn [pools]. intros t1 t2 l1 l2 Hne Hl1 Hl2 m Hm1 Hm2.
        destruct (decide (c = t1)) as [<- | Hne1].
        -- rewrite lookup_insert_eq in Hl1. injection Hl1 as <-.
           rewrite lookup_insert_ne in Hl2 by exact Hne.
           apply elem_of_cons in Hm1 as [-> | Hm1].
           ++ destruct (H1 t2 l2 Hl2) as [_ Hin]. now destruct (Hin n Hm2).
           ++ exact (H2 c t2 l l2 Hne Ec Hl2 m Hm1 Hm2).
        -- rewrite lookup_insert_ne in Hl1 by exact Hne1.
           destruct (decide (c = t2)) as [<- | Hne2].
           ++ rewrite lookup_insert_eq in Hl2. injection Hl2 as <-.
              apply elem_of_cons in Hm2 as [-> | Hm2].
              ** destruct (H1 t1 l1 Hl1) as [_ Hin]. now destruct (Hin n Hm1).
              ** exact (H2 t1 c l1 l Hne Hl1 Ec m Hm1 Hm2).
           ++ rewrite lookup_insert_ne in Hl2 by exact Hne2.
              exact (H2 t1 t2 l1 l2 Hne Hl1 Hl2 m Hm1 Hm2).
    + intros m Hm. apply list_lookup_alter_ne. congruence.
    + intros t. destruct (decide (c = t)) as [<- | Hne].
      * rewrite lookup_insert_eq, Ec. split; eauto.
      * now rewrite lookup_insert_ne.
  - rewrite length_alter. split; [| split; [reflexivity | split]].
    + eapply pool_ok_weaken; [| reflexivity | split; [exact H1 | exact H2]].
      now intros m [Hm _].
    + intros m Hm. apply list_lookup_alter_ne. congruence.
    + reflexivity.
Qed.

(** [get] of a recognised type: the node handed out is not held, comes
    from the idle list of the type or is a fresh copy of the prefab, and no
    other node of the store is touched. *)
Lemma pool_get_ok (cfg : Config) (p : InternalNodePool) (h : NodeId -> Prop)
    (ns : list Node) (t : Z) :
  pool_ok p h (length ns) -> (forall m, h m -> (m < length ns)%nat) ->
  is_Some (pools p !! t) -> is_Some (at_ (itemPrefabs cfg) t) ->
  exists n p' ns',
    InternalNodePool_get cfg t p ns = (Some n, p', ns')
    /\ pool_ok p' (fun m => h m \/ m = n) (length ns')
    /\ ~ h n
    /\ is_Some (ns' !! n)
    /\ (length ns <= length ns')%nat
    /\ (forall m, m <> n -> (m < length ns)%nat -> ns' !! m = ns !! m)
    /\ (forall t', is_Some (pools p' !! t') <-> is_Some (pools p !! t')).
Proof.
  intros [H1 H2] Hb [l Hl] [tpl Htpl]. unfold InternalNodePool_get. rewrite Hl.
  destruct l as [| n rest].
  - rewrite Htpl. exists (length ns), p, (ns ++ [tpl]).
    split; [reflexivity |]. rewrite length_app. cbn [length].
    split; [| split; [| split; [| split; [| split]]]].
    + split; [| exact H2].
      intros t' l' Hl'. destruct (H1 t' l' Hl') as [Hnd Hin]. split; [exact Hnd |].
      intros m Hm. destruct (Hin m Hm) as [Hnh Hlt].
      split; [| lia]. intros [Hc | ->]; [now apply Hnh | lia].
    + intros Hc. apply Hb in Hc. lia.
    + rewrite lookup_app_r by lia. rewrite Nat.sub_diag. simpl. eauto.
    + lia.
    + intros m _ Hm. now rewrite lookup_app_l.
    + reflexivity.
  - destruct (H1 t (n :: rest) Hl) as [Hnd Hin].
    apply NoDup_cons in Hnd as [Hnotin Hnd].
    destruct (Hin n ltac:(left)) as [Hnh Hlt].
    exists n, (mkPool (<[t := rest]> (pools p))), (alter (node_set_active true) n ns).
    split; [reflexivity |]. rewrite length_alter.
    split; [| split; [exact Hnh | split; [| split; [lia | split]]]].
    + split.
      * intros t' l'. cbn [pools]. destruct (decide (t = t')) as [<- | Hne].
        -- rewrite lookup_insert_eq. intros [= <-]. split; [exact Hnd |].
           intros m Hm. destruct (Hin m ltac:(now right)) as [Hmh Hmb].
           split; [| exact Hmb]. intros [Hc | ->]; [now apply Hmh | contradiction].
        -- rewrite lookup_insert_ne by exact Hne. intros Hl'.
           destruct (H1 t' l' Hl') as [Hnd' Hin']. split; [exact Hnd' |].
           intros m Hm. destruct (Hin' m Hm) as [Hmh Hmb]. split; [| exact Hmb].
           intros [Hc | ->]; [now apply Hmh |].
           exact (H2 t t' (n :: rest) l' Hne Hl Hl' n ltac:(left) Hm).
      * intros t1 t2 l1 l2 Hne. cbn [pools].
        destruct (decide (t = t1)) as [<- | Hne1].
        -- rewrite lookup_insert_eq, lookup_insert_ne by exact Hne.
           intros [= <-] Hl2 m Hm. apply (H2 t t2 (n :: rest) l2 Hne Hl Hl2). now right.
        -- rewrite lookup_insert_ne by exact Hne1.
           destruct (decide (t = t2)) as [<- | Hne2].
           ++ rewrite lookup_insert_eq. intros Hl1 [= <-] m Hm1 Hm2.
              apply (H2 t1 t (l1) (n :: rest) Hne Hl1 Hl m Hm1). now right.
           ++ rewrite lookup_insert_ne by exact Hne2. apply H2. exact Hne.
    + rewrite list_lookup_alter_eq.
      destruct (lookup_lt_is_Some_2 ns n Hlt) as [x Hx]. rewrite Hx. simpl. eauto.
    + intros m Hm _. apply list_lookup_alter_ne. congruence.
    + intros t'. cbn [pools]. destruct (decide (t = t')) as [<- | Hne].
      * rewrite lookup_insert_eq, Hl. split; eauto.
      * now rewrite lookup_insert_ne.
Qed.

(** ** Slot arrays *)

Lemma at_set_at_eq {A} (l : list A) (i : Z) (x : A) :
  0 <= i < Z.of_nat (length l) -> at_ (set_at l i x) i = Some x.
Proof.
  intros H. apply at_Some. split; [lia |].
  unfold set_at. apply list_lookup_insert_eq. lia.
Qed.

Lemma at_set_at_ne {A} (l : list A) (i j : Z) (x : A) :
  0 <= i -> i <> j -> at_ (set_at l i x) j = at_ l j.
Proof.
  intros Hi Hne. unfold at_, set_at. destruct (j <? 0) eqn:E; [reflexivity |].
  apply Z.ltb_ge in E. apply list_lookup_insert_ne. lia.
Qed.

Lemma length_set_at {A} (l : list A) (i : Z) (x : A) : length (set_at l i x) = length l.
Proof. apply length_insert. Qed.

Lemma slotNode_in_range (w : Window) (s : Z) (n : NodeId) :
  slotNode w s = Some n -> 0 <= s < Z.of_nat (length (_slotNodes w)).
Proof.
  unfold slotNode. destruct (at_ (_slotNodes w) s) as [o |] eqn:E; [| discriminate].
  intros _. eapply at_lt, E.
Qed.

Lemma owned_transfer (cfg : Config) (st st' : State) :
  _slotNodes (win st') = _slotNodes (win st) ->
  _nodePool (win st') = _nodePool (win st) ->
  (length (nodes (win st)) <= length (nodes (win st')))%nat ->
  owned cfg st -> owned cfg st'.
Proof.
  intros Hs Hp Hl [H1 H2 H3 H4].
  assert (Hsn : forall i, slotNode (win st') i = slotNode (win st) i).
  { intros i. unfold slotNode. now rewrite Hs. }
  assert (Hh : forall n, held st' n -> held st n).
  { intros n [i Hi]. exists i. now rewrite <- Hsn. }
  constructor.
  - intros i j n. rewrite !Hsn. apply H1.
  - intros n Hn. apply Hh, H2 in Hn. lia.
  - intros p Hp'. rewrite Hp in Hp'. eapply pool_ok_weaken; [exact Hh | exact Hl | now apply H3].
  - intros p t Hp'. rewrite Hp in Hp'. now apply H4.
Qed.

Lemma window_wf_transfer (cfg : Config) (st st' : State) :
  _slotNodes (win st') = _slotNodes (win st) ->
  _slotPrefabIndices (win st') = _slotPrefabIndices (win st) ->
  _nodePool (win st') = _nodePool (win st) ->
  _slots (win st') = _slots (win st) ->
  window_wf cfg st -> window_wf cfg st'.
Proof.
  intros Hs Hi Hp Hn [H1 H2 H3 H4].
  constructor; unfold slotNode in *; rewrite ?Hs, ?Hi, ?Hp, ?Hn; assumption.
Qed.

(** The node that the dynamic branch binds, for an item of a recognised
    type: the slot ends up holding it, no other slot changes, no node held
    by another slot is touched, and ownership is kept. *)
Lemma acquireSlotNode_effect (cfg : Config) (idx slot : Z) (st : State) :
  owned cfg st -> window_wf cfg st -> useDynamicSize cfg = true ->
  0 <= slot < _slots (win st) ->
  is_Some (at_ (itemPrefabs cfg) (targetType cfg idx)) ->
  exists n st1,
    acquireSlotNode cfg idx slot st = (Some n, st1)
    /\ quiet_step st st1
    /\ slotNode (win st1) slot = Some n
    /\ (forall j, j <> slot -> slotNode (win st1) j = slotNode (win st) j)
    /\ is_Some (nodes (win st1) !! n)
    /\ (forall m, m <> n -> held st1 m -> nodes (win st1) !! m = nodes (win st) !! m)
    /\ owned cfg st1 /\ window_wf cfg st1.
Proof.
  intros Hown Hwf Hdyn Hslot Htype.
  pose proof Hown as [O1 O2 O3 O4]. pose proof Hwf as [W1 W2 W3 W4].
  unfold acquireSlotNode.
  set (target := targetType cfg idx) in *.
  set (w := win st) in *.
  destruct (bool_decide (at_ (_slotPrefabIndices w) slot = Some target)
            && bool_decide (is_Some (slotNode w slot))) eqn:Ereuse.
  { apply andb_true_iff in Ereuse as [_ Hn]. apply bool_decide_eq_true in Hn as [n Hn].
    exists n, st. rewrite Hn. split; [reflexivity |]. split; [apply quiet_step_refl |].
    split; [exact Hn |]. split; [reflexivity |].
    split; [apply lookup_lt_is_Some_2, O2; now exists slot |].
    split; [reflexivity | split; assumption]. }
  destruct (W3 Hdyn) as [pool Hpool]. fold w in Hpool. rewrite Hpool.
  specialize (O3 pool Hpool). fold w in O3.
  set (old := slotNode w slot).
  set (h := fun m => held st m /\ Some m <> old).
  set (put := match old, at_ (_slotPrefabIndices w) slot with
              | Some o, Some c =>
                  if 0 <=? c then InternalNodePool_put (Some o) c pool (nodes w)
                  else (pool, nodes w)
              | _, _ => (pool, nodes w)
              end).
  assert (Hput : pool_ok (fst put) h (length (snd put))
                 /\ length (snd put) = length (nodes w)
                 /\ (forall m, Some m <> old -> snd put !! m = nodes w !! m)
                 /\ (forall t, is_Some (pools (fst put) !! t) <-> is_Some (pools pool !! t))).
  { assert (Hkeep : pool_ok pool h (length (nodes w))
                    /\ length (nodes w) = length (nodes w)
                    /\ (forall m, Some m <> old -> nodes w !! m = nodes w !! m)
                    /\ (forall t, is_Some (pools pool !! t) <-> is_Some (pools pool !! t))).
    { split; [| now repeat split].
      eapply pool_ok_weaken; [| reflexivity | exact O3]. now intros m [Hm _]. }
    subst put. destruct old as [o |] eqn:Eold; [| exact Hkeep].
    destruct (at_ (_slotPrefabIndices w) slot) as [c |]; [| exact Hkeep].
    destruct (0 <=? c); [| exact Hkeep].
    destruct (pool_put_ok pool (held st) (nodes w) o c O3) as (P1 & P2 & P3 & P4).
    - now exists slot.
    - apply O2. now exists slot.
    - split; [| split; [exact P2 | split; [| exact P4]]].
      + eapply pool_ok_weaken; [| reflexivity | exact P1].
        intros m [Hm Hne]. split; [exact Hm | congruence].
      + intros m Hm. apply P3. congruence. }
  destruct put as [pool1 ns1]. cbn [fst snd] in Hput.
  destruct Hput as (P1 & P2 & P3 & P4).
  destruct (pool_get_ok cfg pool1 h ns1 target P1) as (n & pool2 & ns2 & Eget & G1 & G2 & G3 & G4 & G5 & G6).
  { intros m [Hm _]. rewrite P2. now apply O2. }
  { apply P4, (O4 pool target Hpool), Htype. }
  { exact Htype. }
  rewrite Eget. eexists n, _. split; [reflexivity |].
  assert (Hrange : 0 <= slot < Z.of_nat (length (_slotNodes w))) by (rewrite W1; exact Hslot).
  set (st1 := with_win st _).
  assert (S1 : slotNode (win st1) slot = Some n).
  { subst st1. unfold slotNode. cbn [win with_win _slotNodes].
    now rewrite at_set_at_eq. }
  assert (S2 : forall j, j <> slot -> slotNode (win st1) j = slotNode (win st) j).
  { intros j Hj. subst st1. unfold slotNode. cbn [win with_win _slotNodes].
    rewrite at_set_at_ne by lia. reflexivity. }
  assert (Hheld : forall m, held st1 m -> m = n \/ h m).
  { intros m [i Hi]. destruct (Z.eq_dec i slot) as [-> | Hne].
    - left. congruence.
    - right. rewrite S2 in Hi by exact Hne. split; [now exists i |].
      intros Hc. subst old. apply Hne. eapply O1; [exact Hi | fold w; congruence]. }
  split; [subst st1; split; [apply same_but_win_with | now repeat split] |].
  split; [exact S1 |]. split; [exact S2 |].
  assert (Hn1 : is_Some (nodes (win st1) !! n)).
  { subst st1. cbn [win with_win nodes]. rewrite list_lookup_alter_eq.
    destruct G3 as [x ->]. simpl. eauto. }
  split; [exact Hn1 |].
  assert (Hlen1 : length (nodes (win st1)) = length ns2).
  { subst st1. cbn [win with_win nodes]. apply length_alter. }
  split; [| split].
  - intros m Hm Hheldm. destruct (Hheld m Hheldm) as [-> | [Hhm Hold]]; [congruence |].
    subst st1. cbn [win with_win nodes].
    rewrite list_lookup_alter_ne by congruence.
    rewrite G5; [now apply P3 | exact Hm |]. rewrite P2. now apply O2.
  - constructor.
    + intros i j m Hi Hj.
      destruct (Z.eq_dec i slot) as [-> | Hni]; destruct (Z.eq_dec j slot) as [-> | Hnj];
        [reflexivity | | |].
      * exfalso. rewrite S1 in Hi. injection Hi as <-.
        destruct (Hheld n ltac:(now exists j)) as [_ | Hc]; [| contradiction].
        rewrite S2 in Hj by exact Hnj. apply G2. split; [now exists j |].
        intros Hc. subst old. apply Hnj. eapply O1; [exact Hj | fold w; congruence].
      * exfalso. rewrite S1 in Hj. injection Hj as <-.
        rewrite S2 in Hi by exact Hni. apply G2. split; [now exists i |].
        intros Hc. subst old. apply Hni. eapply O1; [exact Hi | fold w; congruence].
      * rewrite S2 in Hi, Hj by assumption. eapply O1; eassumption.
    + intros m Hm. destruct (Hheld m Hm) as [-> | [Hhm _]].
      * now apply lookup_lt_is_Some_1.
      * rewrite Hlen1. apply O2 in Hhm. fold w in Hhm. lia.
    + intros p Hp. subst st1. cbn [win with_win _nodePool] in Hp. injection Hp as <-.
      rewrite Hlen1. eapply pool_ok_weaken; [| reflexivity | exact G1].
      intros m Hm. destruct (Hheld m Hm); auto.
    + intros p t Hp. subst st1. cbn [win with_win _nodePool] in Hp. injection Hp as <-.
      rewrite G6, P4. now apply O4.
  - constructor; subst st1; cbn [win with_win _slotNodes _slots _nodePool _slotPrefabIndices].
    + rewrite length_set_at. exact W1.
    + congruence.
    + eauto.
    + intros _. rewrite !length_set_at. now apply W4.
Qed.

(** ** Binding a slot *)

Lemma bind_dynamic (cfg : Config) (n : NodeId) (idx : Z) (st : State) :
  useVirtualList cfg = true ->
  let st' :=
    appear n idx
      (placeDynamic cfg n idx
         (render cfg n idx
            (_updateItemClickHandler cfg n idx
               (with_nodes st (alter (node_set_active true) n (nodes (win st))))))) in
  quiet_step st st'
  /\ _slotNodes (win st') = _slotNodes (win st)
  /\ _slotPrefabIndices (win st') = _slotPrefabIndices (win st)
  /\ _nodePool (win st') = _nodePool (win st)
  /\ length (nodes (win st')) = length (nodes (win st))
  /\ (forall m, m <> n -> nodes (win st') !! m = nodes (win st) !! m)
  /\ (forall node, nodes (win st) !! n = Some node ->
        exists node', nodes (win st') !! n = Some node'
                      /\ active node' = true /\ dataIndex node' = idx).
Proof.
  intros Hv st'. subst st'.
  split.
  { eapply quiet_step_trans; [apply with_nodes_quiet |].
    eapply quiet_step_trans; [apply updateItemClickHandler_quiet |].
    eapply quiet_step_trans; [apply render_quiet |].
    eapply quiet_step_trans; [apply placeDynamic_quiet | apply appear_quiet]. }
  unfold appear, placeDynamic, render, _updateItemClickHandler, with_nodes. rewrite Hv.
  cbn [negb].
  destruct (renderItemFn cfg) as [r |];
    cbn [win with_win nodes _slotNodes _slotPrefabIndices _nodePool _needAnimateIndices tbl];
    case_bool_decide;
    cbn [win with_win nodes _slotNodes _slotPrefabIndices _nodePool _needAnimateIndices tbl].
  all: rewrite ?length_alter.
  all: repeat (split; [reflexivity |]).
  all: split; [intros m Hm; rewrite !list_lookup_alter_ne by congruence; reflexivity |].
  all: intros node Hnode; rewrite !list_lookup_alter_eq, Hnode; cbn [fmap option_fmap option_map].
  all: eexists; split; [reflexivity |].
  all: try destruct (r idx _) as [w' h'].
  all: destruct (_isVertical cfg); split; reflexivity.
Qed.

Lemma bind_fixed (cfg : Config) (n : NodeId) (idx : Z) (st : State) :
  useVirtualList cfg = true ->
  let st' :=
    appear n idx
      (render cfg n idx
         (_updateItemClickHandler cfg n idx
            (placeFixed cfg n idx
               (with_nodes st (alter (node_set_active true) n (nodes (win st))))))) in
  quiet_step st st'
  /\ _slotNodes (win st') = _slotNodes (win st)
  /\ _slotPrefabIndices (win st') = _slotPrefabIndices (win st)
  /\ _nodePool (win st') = _nodePool (win st)
  /\ length (nodes (win st')) = length (nodes (win st))
  /\ (forall m, m <> n -> nodes (win st') !! m = nodes (win st) !! m)
  /\ (forall node, nodes (win st) !! n = Some node ->
        exists node', nodes (win st') !! n = Some node'
                      /\ active node' = true /\ dataIndex node' = idx).
Proof.
  intros Hv st'. subst st'.
  split.
  { eapply quiet_step_trans; [apply with_nodes_quiet |].
    eapply quiet_step_trans; [apply placeFixed_quiet |].
    eapply quiet_step_trans; [apply updateItemClickHandler_quiet |].
    eapply quiet_step_trans; [apply render_quiet | apply appear_quiet]. }
  unfold appear, placeFixed, render, _updateItemClickHandler, with_nodes. rewrite Hv.
  cbn [negb].
  destruct (renderItemFn cfg) as [r |];
    cbn [win with_win nodes _slotNodes _slotPrefabIndices _nodePool _needAnimateIndices tbl];
    case_bool_decide;
    cbn [win with_win nodes _slotNodes _slotPrefabIndices _nodePool _needAnimateIndices tbl].
  all: rewrite ?length_alter.
  all: repeat (split; [reflexivity |]).
  all: split; [intros m Hm; rewrite !list_lookup_alter_ne by congruence; reflexivity |].
  all: intros node Hnode; rewrite !list_lookup_alter_eq, Hnode; cbn [fmap option_fmap option_map].
  all: eexists; split; [reflexivity |].
  all: try destruct (r idx _) as [w' h'].
  all: destruct (_isVertical cfg); split; reflexivity.
Qed.

Lemma shown_eq (st : State) (s : Z) (n : NodeId) (node : Node) :
  slotNode (win st) s = Some n -> nodes (win st) !! n = Some node ->
  shown st s = if active node then Some (dataIndex node) else None.
Proof. intros H1 H2. unfold shown. rewrite H1. simpl. rewrite H2. reflexivity. Qed.

Lemma shown_none (st : State) (s : Z) : slotNode (win st) s = None -> shown st s = None.
Proof. intros H. unfold shown. now rewrite H. Qed.

(** Two states that give a slot the same node, in the same condition, show
    the same item there. *)
Lemma shown_same (st st' : State) (s : Z) :
  slotNode (win st') s = slotNode (win st) s ->
  (forall n, slotNode (win st) s = Some n -> nodes (win st') !! n = nodes (win st) !! n) ->
  shown st' s = shown st s.
Proof.
  intros H1 H2. unfold shown. rewrite H1.
  destruct (slotNode (win st) s) as [n |]; [| reflexivity].
  simpl. now rewrite H2.
Qed.

Section BindSlot.
Variable upd : Z -> option Q -> State -> option State.
Variable cfg : Config.
Hypothesis Hvirtual : useVirtualList cfg = true.

(** Binding slot [slot] to item [idx], when no size correction is due
    and the type of the item is recognised: the slot shows [idx]
    afterwards, what the other slots show is unchanged, and ownership and
    the shape of the slot arrays are kept. *)
Lemma layoutSingleSlot_spec (idx slot : Z) (st : State) :
  quiet cfg st -> owned cfg st -> window_wf cfg st ->
  0 <= slot < _slots (win st) -> 0 <= idx < totalCount st ->
  (useDynamicSize cfg = true -> is_Some (at_ (itemPrefabs cfg) (targetType cfg idx))) ->
  exists st',
    _layoutSingleSlot upd cfg (slotNode (win st) slot) idx slot st = Some st'
    /\ quiet_step st st' /\ owned cfg st' /\ window_wf cfg st'
    /\ shown st' slot = Some idx
    /\ (forall j, j <> slot -> shown st' j = shown st j)
    /\ (useDynamicSize cfg = false -> _slotNodes (win st') = _slotNodes (win st)).
Proof.
  intros Hq Hown Hwf Hslot Hidx Htype.
  unfold _layoutSingleSlot. rewrite Hvirtual. cbn [negb].
  destruct (useDynamicSize cfg) eqn:Hdyn.
  - destruct Hq as [Hq | Hset]; [congruence |].
    destruct (acquireSlotNode_effect cfg idx slot st Hown Hwf Hdyn Hslot (Htype eq_refl))
      as (n & st1 & Eacq & Q1 & S1 & S2 & [node Hnode] & N1 & Hown1 & Hwf1).
    rewrite Eacq.
    pose proof (bind_dynamic cfg n idx st1 Hvirtual) as (Q2 & B1 & B2 & B3 & B4 & B5 & B6).
    set (st3 := _updateItemClickHandler cfg n idx _) in *.
    assert (Q3 : quiet_step st st3).
    { eapply quiet_step_trans; [exact Q1 |].
      eapply quiet_step_trans; [apply with_nodes_quiet |].
      apply updateItemClickHandler_quiet. }
    rewrite sizeCorrection_settled;
      [| eapply settled_quiet_step; eassumption
       | destruct (quiet_step_frame _ _ Q3) as [-> _]; exact Hidx].
    eexists. split; [reflexivity |].
    set (st' := appear n idx _) in *.
    assert (Hsn : forall j, slotNode (win st') j = slotNode (win st1) j).
    { intros j. unfold slotNode. now rewrite B1. }
    split; [exact (quiet_step_trans _ _ _ Q1 Q2) |].
    split; [eapply owned_transfer; [exact B1 | exact B3 | lia | exact Hown1] |].
    split; [apply (window_wf_transfer cfg st1 st' B1 B2 B3 (proj1 (proj2 Q2)) Hwf1) |].
    split.
    + destruct (B6 node Hnode) as (node' & Hn' & Ha & Hd).
      rewrite (shown_eq st' slot n node'); [now rewrite Ha, Hd | now rewrite Hsn | exact Hn'].
    + split; [| discriminate].
      intros j Hj. apply shown_same; [rewrite Hsn; now apply S2 |].
      intros m Hm. rewrite <- S2 in Hm by exact Hj.
      assert (m <> n).
      { intros ->. apply Hj. eapply (owned_slots _ _ Hown1); eassumption. }
      rewrite B5 by assumption. apply N1; [assumption | now exists j].
  - destruct (wf_fixed _ _ Hwf Hdyn slot Hslot) as [n Hn]. rewrite Hn.
    pose proof (bind_fixed cfg n idx st Hvirtual) as (Q2 & B1 & B2 & B3 & B4 & B5 & B6).
    eexists. split; [reflexivity |].
    set (st' := appear n idx _) in *.
    assert (Hsn : forall j, slotNode (win st') j = slotNode (win st) j).
    { intros j. unfold slotNode. now rewrite B1. }
    split; [exact Q2 |].
    split; [eapply owned_transfer; [exact B1 | exact B3 | lia | exact Hown] |].
    split; [apply (window_wf_transfer cfg st st' B1 B2 B3 (proj1 (proj2 Q2)) Hwf) |].
    destruct (lookup_lt_is_Some_2 (nodes (win st)) n) as [node Hnode].
    { apply (owned_store _ _ Hown). now exists slot. }
    split.
    + destruct (B6 node Hnode) as (node' & Hn' & Ha & Hd).
      rewrite (shown_eq st' slot n node'); [now rewrite Ha, Hd | now rewrite Hsn | exact Hn'].
    + split; [| intros _; exact B1].
      intros j Hj. apply shown_same; [apply Hsn |].
      intros m Hm. apply B5. intros ->. apply Hj.
      eapply (owned_slots _ _ Hown); eassumption.
Qed.

(** Deactivating a slot: it shows nothing afterwards; the rest is kept. *)
Lemma deactivate_spec (slot : Z) (st : State) :
  owned cfg st -> window_wf cfg st ->
  let st' := deactivate (slotNode (win st) slot) st in
  quiet_step st st' /\ owned cfg st' /\ window_wf cfg st'
  /\ shown st' slot = None
  /\ (forall j, j <> slot -> shown st' j = shown st j)
  /\ _slotNodes (win st') = _slotNodes (win st).
Proof.
  intros Hown Hwf st'. subst st'.
  split; [apply deactivate_quiet |].
  destruct (slotNode (win st) slot) as [n |] eqn:Hn; cbn [deactivate].
  - set (st' := with_win st _).
    assert (Hsn : forall j, slotNode (win st') j = slotNode (win st) j) by reflexivity.
    split; [apply (owned_transfer cfg st st' eq_refl eq_refl); [| exact Hown];
            subst st'; cbn [win with_win nodes]; rewrite length_alter; lia |].
    split; [exact (window_wf_transfer cfg st st' eq_refl eq_refl eq_refl eq_refl Hwf) |].
    split.
    + destruct (lookup_lt_is_Some_2 (nodes (win st)) n) as [node Hnode].
      { apply (owned_store _ _ Hown). now exists slot. }
      rewrite (shown_eq st' slot n (node_set_active false node)); [reflexivity | exact Hn |].
      subst st'. cbn [win with_win nodes]. now rewrite list_lookup_alter_eq, Hnode.
    + split; [| reflexivity].
      intros j Hj. apply shown_same; [apply Hsn |].
      intros m Hm. subst st'. cbn [win with_win nodes].
      apply list_lookup_alter_ne. intros ->. apply Hj.
      eapply (owned_slots _ _ Hown); eassumption.
  - split; [exact Hown |]. split; [exact Hwf |].
    split; [now apply shown_none | split; reflexivity].
Qed.
End BindSlot.

(** ** Reconciliation *)

Lemma for_each_slots {A} (body : A -> State -> option State) (slot_of : A -> Z)
    (target : A -> option Z) (Inv : State -> Prop) (l : list A) :
  NoDup (slot_of <$> l) ->
  (forall x st, x ∈ l -> Inv st ->
     exists st', body x st = Some st' /\ Inv st'
                 /\ shown st' (slot_of x) = target x
                 /\ forall j, j <> slot_of x -> shown st' j = shown st j) ->
  forall st, Inv st ->
    exists st', for_each body l st = Some st' /\ Inv st'
                /\ (forall x, x ∈ l -> shown st' (slot_of x) = target x)
                /\ (forall j, j ∉ slot_of <$> l -> shown st' j = shown st j).
Proof.
  induction l as [| x rest IH]; intros Hnd Hbody st Hinv.
  - exists st. split; [reflexivity |]. split; [exact Hinv |].
    split; [intros x Hx; now apply elem_of_nil in Hx | reflexivity].
  - rewrite fmap_cons in Hnd. apply NoDup_cons in Hnd as [Hx Hnd].
    destruct (Hbody x st ltac:(left) Hinv) as (st1 & E1 & Hinv1 & Hs1 & Ho1).
    destruct (IH Hnd (fun y s Hy => Hbody y s ltac:(now right)) st1 Hinv1)
      as (st' & E & Hinv' & Hs & Ho).
    exists st'. simpl. rewrite E1. simpl. split; [exact E |]. split; [exact Hinv' |].
    split.
    + intros y Hy. apply elem_of_cons in Hy as [-> | Hy]; [| now apply Hs].
      rewrite Ho by exact Hx. exact Hs1.
    + intros j Hj. apply not_elem_of_cons in Hj as [Hjx Hj].
      rewrite Ho by exact Hj. now apply Ho1.
Qed.

Lemma layout_inv_refl (cfg : Config) (st : State) :
  quiet cfg st -> owned cfg st -> window_wf cfg st -> layout_inv cfg st st.
Proof.
  intros Hq Ho Hw. split; [exact Hq |]. split; [exact Ho |]. split; [exact Hw |].
  split; [apply quiet_step_refl | reflexivity].
Qed.

Lemma expected_frame (st st' : State) (first s : Z) :
  totalCount st' = totalCount st -> expected st' first s = expected st first s.
Proof. unfold expected. now intros ->. Qed.

Section Reconcile.
Variable upd : Z -> option Q -> State -> option State.
Variable cfg : Config.
Hypothesis Hvirtual : useVirtualList cfg = true.

(** One iteration of a layout loop, on slot [slot] for the window that
    begins at [first]. *)
Lemma layout_body_spec (st0 st : State) (first slot : Z) :
  (useDynamicSize cfg = true -> types_valid cfg st0) ->
  layout_inv cfg st0 st -> 0 <= first -> 0 <= slot < _slots (win st0) ->
  exists st',
    (if totalCount st <=? first + slot
     then Some (deactivate (slotNode (win st) slot) st)
     else _layoutSingleSlot upd cfg (slotNode (win st) slot) (first + slot) slot st)
    = Some st'
    /\ layout_inv cfg st0 st'
    /\ shown st' slot = expected st0 first slot
    /\ forall j, j <> slot -> shown st' j = shown st j.
Proof.
  intros Htypes (Hq & Hown & Hwf & Hstep & Hfix) Hfirst Hslot.
  pose proof Hstep as (_ & Hslots & _).
  destruct (quiet_step_frame _ _ Hstep) as (Htc & _).
  unfold expected. rewrite <- Htc.
  destruct (Z.leb_spec (totalCount st) (first + slot)) as [Hout | Hin].
  - destruct (deactivate_spec cfg slot st Hown Hwf) as (Q & O & W & S1 & S2 & S3).
    eexists. split; [reflexivity |].
    destruct (Z.ltb_spec (first + slot) (totalCount st)); [lia |].
    split; [| split; assumption].
    split; [eapply quiet_quiet_step; eassumption |].
    split; [exact O |]. split; [exact W |].
    split; [eapply quiet_step_trans; eassumption |].
    intros Hf. rewrite S3. now apply Hfix.
  - destruct (layoutSingleSlot_spec upd cfg Hvirtual (first + slot) slot st Hq Hown Hwf)
      as (st' & E & Q & O & W & S1 & S2 & S3); [lia | lia | |].
    { intros Hd. apply (Htypes Hd). lia. }
    exists st'. split; [exact E |].
    destruct (Z.ltb_spec (first + slot) (totalCount st)); [| lia].
    split; [| split; assumption].
    split; [eapply quiet_quiet_step; eassumption |].
    split; [exact O |]. split; [exact W |].
    split; [eapply quiet_step_trans; eassumption |].
    intros Hf. rewrite (S3 Hf). now apply Hfix.
Qed.

Lemma NoDup_seqZ_shift (c n : Z) : NoDup ((fun i => c + i) <$> seqZ 0 n).
Proof.
  apply NoDup_fmap_2; [| apply NoDup_seqZ]. intros i j Hij. lia.
Qed.

(** The full relayout binds every slot. *)
Lemma layoutSlots_spec (first : Z) (st : State) :
  (useDynamicSize cfg = true -> types_valid cfg st) ->
  quiet cfg st -> owned cfg st -> window_wf cfg st -> 0 <= first ->
  exists st',
    _layoutSlots upd cfg first st = Some st'
    /\ same_but_win st st'
    /\ _slots (win st') = _slots (win st)
    /\ _slotFirstIndex (win st') = _slotFirstIndex (win st)
    /\ owned cfg st' /\ window_wf cfg st'
    /\ (forall s, 0 <= s < _slots (win st) -> shown st' s = expected st first s)
    /\ (useDynamicSize cfg = false -> _slotNodes (win st') = _slotNodes (win st)).
Proof.
  intros Htypes Hq Hown Hwf Hfirst. unfold _layoutSlots. rewrite Hvirtual. cbn [negb].
  set (st0 := count_relayout st).
  assert (Hinv0 : layout_inv cfg st0 st0).
  { apply layout_inv_refl.
    - destruct Hq as [Hq | Hq]; [now left | right].
      eapply settled_tbl; [| | exact Hq]; reflexivity.
    - exact (owned_transfer cfg st st0 eq_refl eq_refl ltac:(reflexivity) Hown).
    - exact (window_wf_transfer cfg st st0 eq_refl eq_refl eq_refl eq_refl Hwf). }
  destruct (for_each_slots (layoutSlots_body upd cfg first) (fun s => s)
              (fun s => expected st0 first s) (layout_inv cfg st0)
              (seqZ 0 (_slots (win st)))) with (st := st0)
    as (st' & E & (_ & O & W & Hstep & Hfix) & Hs & _).
  - rewrite list_fmap_id. apply NoDup_seqZ.
  - intros s st1 Hs Hinv1. apply elem_of_seqZ in Hs. unfold layoutSlots_body.
    apply layout_body_spec; [exact Htypes | exact Hinv1 | exact Hfirst |].
    subst st0. cbn [win with_win count_relayout _slots]. lia.
  - exact Hinv0.
  - exists st'. split; [exact E |]. destruct Hstep as (Hw & Hsl & Hfi & _).
    split; [eapply same_but_win_trans; [apply count_relayout_window | exact Hw] |].
    split; [exact Hsl |]. split; [exact Hfi |]. split; [exact O |]. split; [exact W |].
    split; [| exact Hfix].
    intros s Hs'. apply Hs. apply elem_of_seqZ. lia.
Qed.
End Reconcile.

(** ** Rotation of the slot arrays *)

Lemma rotate_array_eq {A} (diff : Z) (l : list A) :
  0 < Z.abs diff <= Z.of_nat (length l) ->
  let k := if 0 <? diff then Z.to_nat diff else (length l - Z.to_nat (- diff))%nat in
  rotate_array diff l = drop k l ++ take k l.
Proof.
  intros Hd. unfold rotate_array, splice. destruct (Z.ltb_spec 0 diff) as [Hpos | Hneg]; simpl.
  - rewrite Z.abs_eq by lia. change (Z.to_nat 0) with 0%nat.
    rewrite ?drop_0, ?take_0. reflexivity.
  - rewrite Z.abs_neq in * by lia.
    replace (Z.to_nat (Z.of_nat (length l) + diff))
      with (length l - Z.to_nat (- diff))%nat by lia.
    set (d := Z.to_nat (- diff)) in *.
    rewrite (drop_ge l (length l - d + d)) by lia.
    rewrite app_nil_r, take_ge; [reflexivity |]. rewrite length_drop. lia.
Qed.

Lemma rotate_array_length {A} (diff : Z) (l : list A) :
  0 < Z.abs diff <= Z.of_nat (length l) -> length (rotate_array diff l) = length l.
Proof.
  intros Hd. rewrite rotate_array_eq by exact Hd.
  rewrite length_app, length_drop, length_take. lia.
Qed.


Lemma rotate_array_at {A} (diff : Z) (l : list A) (s : Z) :
  0 < Z.abs diff < Z.of_nat (length l) -> 0 <= s < Z.of_nat (length l) ->
  at_ (rotate_array diff l) s = at_ l (rotated_from (Z.of_nat (length l)) diff s).
Proof.
  intros Hd Hs. rewrite rotate_array_eq by lia. unfold rotated_from, at_.
  destruct (Z.ltb_spec s 0); [lia |].
  destruct (Z.ltb_spec 0 diff) as [Hpos | Hneg].
  - destruct (Z.ltb_spec s (Z.of_nat (length l) - diff)) as [Hlo | Hhi].
    + destruct (Z.ltb_spec (s + diff) 0); [lia |].
      rewrite lookup_app_l by (rewrite length_drop; lia).
      rewrite lookup_drop. f_equal. lia.
    + destruct (Z.ltb_spec (s - (Z.of_nat (length l) - diff)) 0); [lia |].
      rewrite lookup_app_r by (rewrite length_drop; lia).
      rewrite length_drop, lookup_take_lt by lia. f_equal. lia.
  - rewrite Z.abs_neq in Hd by lia.
    destruct (Z.ltb_spec s (- diff)) as [Hlo | Hhi].
    + destruct (Z.ltb_spec (s + (Z.of_nat (length l) + diff)) 0); [lia |].
      rewrite lookup_app_l by (rewrite length_drop; lia).
      rewrite lookup_drop. f_equal. lia.
    + destruct (Z.ltb_spec (s + diff) 0); [lia |].
      rewrite lookup_app_r by (rewrite length_drop; lia).
      rewrite length_drop, lookup_take_lt by lia. f_equal. lia.
Qed.

Lemma rotated_from_range (S diff s : Z) :
  0 < Z.abs diff < S -> 0 <= s < S -> 0 <= rotated_from S diff s < S.
Proof.
  intros Hd Hs. unfold rotated_from.
  repeat match goal with |- context [?a <? ?b] => destruct (Z.ltb_spec a b) end; lia.
Qed.

Lemma rotated_from_inj (S diff i j : Z) :
  0 < Z.abs diff < S -> 0 <= i < S -> 0 <= j < S ->
  rotated_from S diff i = rotated_from S diff j -> i = j.
Proof.
  intros Hd Hi Hj. unfold rotated_from.
  repeat match goal with |- context [?a <? ?b] => destruct (Z.ltb_spec a b) end; lia.
Qed.

Section Rotate.
Variable cfg : Config.

Lemma rotateSlots_slotNode (diff newFirst s : Z) (st : State) :
  window_wf cfg st -> 0 < Z.abs diff < _slots (win st) ->
  slotNode (win (rotateSlots cfg diff newFirst st)) s
  = if (0 <=? s) && (s <? _slots (win st))
    then slotNode (win st) (rotated_from (_slots (win st)) diff s)
    else None.
Proof.
  intros Hwf Hd. pose proof (wf_length _ _ Hwf) as Hlen.
  unfold slotNode, rotateSlots. cbn [win with_win _slotNodes].
  destruct (Z.leb_spec 0 s) as [H0 | H0]; destruct (Z.ltb_spec s (_slots (win st))) as [H1 | H1];
    cbn [andb].
  - rewrite rotate_array_at by lia. now rewrite Hlen.
  - destruct (at_ (rotate_array diff (_slotNodes (win st))) s) eqn:E; [| reflexivity].
    apply at_lt in E. rewrite rotate_array_length in E by lia. lia.
  - unfold at_. destruct (Z.ltb_spec s 0); [reflexivity | lia].
  - unfold at_. destruct (Z.ltb_spec s 0); [reflexivity | lia].
Qed.

(** The rotation keeps ownership and the shape of the slot arrays, and
    slot [s] of the rotated window shows what slot [rotated_from s] showed
    before. *)
Lemma rotateSlots_spec (diff newFirst : Z) (st : State) :
  owned cfg st -> window_wf cfg st -> 0 < Z.abs diff < _slots (win st) ->
  let st' := rotateSlots cfg diff newFirst st in
  owned cfg st' /\ window_wf cfg st'
  /\ (forall s, 0 <= s < _slots (win st) ->
        shown st' s = shown st (rotated_from (_slots (win st)) diff s)).
Proof.
  intros Hown Hwf Hd st'.
  pose proof (wf_length _ _ Hwf) as Hlen.
  assert (Hsn : forall s, slotNode (win st') s
                = if (0 <=? s) && (s <? _slots (win st))
                  then slotNode (win st) (rotated_from (_slots (win st)) diff s)
                  else None).
  { intros s. now apply rotateSlots_slotNode. }
  assert (Hin : forall s n, slotNode (win st') s = Some n ->
            0 <= s < _slots (win st)
            /\ slotNode (win st) (rotated_from (_slots (win st)) diff s) = Some n).
  { intros s n. rewrite Hsn.
    destruct (Z.leb_spec 0 s); destruct (Z.ltb_spec s (_slots (win st)));
      cbn [andb]; try discriminate. intros Hsome. split; [lia | exact Hsome]. }
  assert (Hheld : forall n, held st' n -> held st n).
  { intros n [s Hs]. apply Hin in Hs as [_ Hs]. eexists. exact Hs. }
  split; [| split].
  - destruct Hown as [O1 O2 O3 O4]. constructor.
    + intros i j n Hi Hj. apply Hin in Hi as [Hi1 Hi2]. apply Hin in Hj as [Hj1 Hj2].
      eapply rotated_from_inj; [exact Hd | exact Hi1 | exact Hj1 |].
      eapply O1; eassumption.
    + intros n Hn. apply Hheld, O2 in Hn. exact Hn.
    + intros p Hp. eapply pool_ok_weaken; [exact Hheld | reflexivity | now apply O3].
    + intros p t Hp. now apply O4.
  - destruct Hwf as [W1 W2 W3 W4]. constructor;
      subst st'; unfold rotateSlots;
      cbn [win with_win _slotNodes _slots _nodePool _slotPrefabIndices].
    + rewrite rotate_array_length by lia. exact W1.
    + intros Hf s Hs. fold (rotateSlots cfg diff newFirst st). rewrite Hsn.
      destruct (Z.leb_spec 0 s); destruct (Z.ltb_spec s (_slots (win st)));
        cbn [andb]; try lia.
      apply W2; [exact Hf |]. apply rotated_from_range; lia.
    + exact W3.
    + intros Hdyn. rewrite Hdyn. cbn [andb]. specialize (W4 Hdyn).
      rewrite (rotate_array_length diff (_slotNodes (win st))) by lia.
      destruct (Z.ltb_spec 0 (Z.of_nat (length (_slotPrefabIndices (win st)))));
        [| exact W4].
      rewrite rotate_array_length by lia. exact W4.
  - intros s Hs. unfold shown. rewrite Hsn.
    destruct (Z.leb_spec 0 s); destruct (Z.ltb_spec s (_slots (win st)));
      cbn [andb]; try lia.
    reflexivity.
Qed.
End Rotate.

(** ** The two paths of [_updateVisible] *)

Section Refinement.
Variable upd : Z -> option Q -> State -> option State.
Variable cfg : Config.
Hypothesis Hvirtual : useVirtualList cfg = true.

Lemma reconcile_full_spec (newFirst : Z) (st : State) :
  (useDynamicSize cfg = true -> types_valid cfg st) ->
  quiet cfg st -> owned cfg st -> window_wf cfg st -> 0 <= newFirst ->
  exists full,
    reconcile upd cfg true newFirst st = Some full
    /\ (forall s, 0 <= s < _slots (win st) -> shown full s = expected st newFirst s)
    /\ window_ok full /\ owned cfg full /\ window_wf cfg full
    /\ _slots (win full) = _slots (win st)
    /\ _slotFirstIndex (win full) = newFirst.
Proof.
  intros Htypes Hq Hown Hwf Hfirst. unfold reconcile.
  set (st0 := set_slotFirstIndex newFirst st).
  destruct (layoutSlots_spec upd cfg Hvirtual newFirst st0)
    as (full & E & Hw & Hs & Hf & O & W & Hshown & _).
  - exact Htypes.
  - destruct Hq as [Hq | Hq]; [now left | right].
    eapply settled_tbl; [| | exact Hq]; reflexivity.
  - exact (owned_transfer cfg st st0 eq_refl eq_refl ltac:(reflexivity) Hown).
  - exact (window_wf_transfer cfg st st0 eq_refl eq_refl eq_refl eq_refl Hwf).
  - exact Hfirst.
  - exists full. split; [exact E |]. split; [exact Hshown |].
    assert (Htc : totalCount full = totalCount st).
    { destruct (frame_win _ _ Hw) as [Htc _]. exact Htc. }
    split; [| auto].
    intros s Hs'. rewrite Hs in Hs'. rewrite Hf. cbn [st0 set_slotFirstIndex win with_win _slotFirstIndex].
    rewrite (Hshown s Hs'). unfold expected. now rewrite Htc.
Qed.

Lemma reconcile_incremental_spec (newFirst : Z) (st : State) :
  (useDynamicSize cfg = true -> types_valid cfg st) ->
  quiet cfg st -> owned cfg st -> window_wf cfg st -> window_ok st ->
  0 <= newFirst ->
  0 < Z.abs (newFirst - _slotFirstIndex (win st)) < _slots (win st) ->
  exists inc,
    reconcile upd cfg false newFirst st = Some inc
    /\ (forall s, 0 <= s < _slots (win st) -> shown inc s = expected st newFirst s)
    /\ window_ok inc /\ owned cfg inc /\ window_wf cfg inc
    /\ (useDynamicSize cfg = false ->
        _slotNodes (win inc)
        = rotate_array (newFirst - _slotFirstIndex (win st)) (_slotNodes (win st))).
Proof.
  intros Htypes Hq Hown Hwf Hok Hfirst Hd. unfold reconcile.
  set (diff := newFirst - _slotFirstIndex (win st)) in *.
  destruct (Z.eqb_spec diff 0); [lia |].
  destruct (Z.leb_spec (_slots (win st)) (Z.abs diff)); [lia |].
  set (rot := rotateSlots cfg diff newFirst st).
  destruct (rotateSlots_spec cfg diff newFirst st Hown Hwf Hd) as (Orot & Wrot & Srot).
  fold rot in Orot, Wrot, Srot.
  set (S := _slots (win st)) in *.
  set (slot_of := fun i : Z => if 0 <? diff then S - Z.abs diff + i else i).
  destruct (for_each_slots (exposed_body upd cfg diff) slot_of
              (fun i => expected rot newFirst (slot_of i)) (layout_inv cfg rot)
              (seqZ 0 (Z.abs diff))) with (st := rot)
    as (inc & E & (_ & O & W & Hstep & Hfix) & Hexp & Hrest).
  - subst slot_of. cbn beta. destruct (0 <? diff).
    + apply NoDup_seqZ_shift.
    + rewrite list_fmap_id. apply NoDup_seqZ.
  - intros i st1 Hi Hinv1. apply elem_of_seqZ in Hi.
    pose proof Hinv1 as (_ & _ & _ & (_ & Hs1 & Hf1 & _) & _).
    unfold exposed_body. rewrite Hs1, Hf1.
    change (_slots (win rot)) with S. change (_slotFirstIndex (win rot)) with newFirst.
    fold (slot_of i).
    apply layout_body_spec; [exact Hvirtual | exact Htypes | exact Hinv1 | exact Hfirst |].
    change (_slots (win rot)) with S. subst slot_of. cbn beta. destruct (0 <? diff); lia.
  - apply layout_inv_refl; [| exact Orot | exact Wrot].
    destruct Hq as [Hq | Hq]; [now left | right].
    eapply settled_tbl; [| | exact Hq]; reflexivity.
  - exists inc. split; [exact E |].
    destruct Hstep as (Hw & Hsl & Hfi & _).
    assert (Htc : totalCount inc = totalCount st).
    { destruct (frame_win _ _ Hw) as [Htc _]. exact Htc. }
    assert (Hshown : forall s, 0 <= s < S -> shown inc s = expected st newFirst s).
    { intros s Hs.
      destruct (decide (s ∈ slot_of <$> seqZ 0 (Z.abs diff))) as [Hin | Hout].
      - apply list_elem_of_fmap in Hin as (i & -> & Hi).
        rewrite (Hexp i Hi). reflexivity.
      - rewrite (Hrest s Hout), (Srot s Hs).
        assert (Hfrom : rotated_from S diff s = s + diff).
        { unfold rotated_from.
          destruct (Z.ltb_spec 0 diff) as [Hpos | Hneg].
          - destruct (Z.ltb_spec s (S - diff)) as [Hlo | Hhi]; [reflexivity |].
            exfalso. apply Hout. apply list_elem_of_fmap.
            exists (s - (S - diff)). subst slot_of. cbn beta.
            destruct (Z.ltb_spec 0 diff); [| lia].
            split; [lia |]. apply elem_of_seqZ. lia.
          - destruct (Z.ltb_spec s (- diff)) as [Hlo | Hhi]; [| reflexivity].
            exfalso. apply Hout. apply list_elem_of_fmap.
            exists s. subst slot_of. cbn beta.
            destruct (Z.ltb_spec 0 diff); [lia |].
            split; [reflexivity |]. apply elem_of_seqZ. lia. }
        rewrite Hfrom, (Hok (s + diff)).
        + unfold expected. subst diff.
          replace (_slotFirstIndex (win st) + (s + (newFirst - _slotFirstIndex (win st))))
            with (newFirst + s) by lia.
          reflexivity.
        + pose proof (rotated_from_range S diff s Hd Hs). fold S. lia. }
    split; [exact Hshown |].
    split; [| split; [exact O | split; [exact W |]]].
    + intros s Hs. rewrite Hsl in Hs. change (_slots (win rot)) with S in Hs.
      rewrite Hfi. change (_slotFirstIndex (win rot)) with newFirst.
      rewrite (Hshown s Hs). unfold expected. now rewrite Htc.
    + intros Hf. now rewrite (Hfix Hf).
Qed.

End Refinement.

(** ** Initialisation establishes the window *)

Lemma pool_new_lookup (prefabs : list Node) (t : Z) (l : list nat) :
  pools (InternalNodePool_new prefabs) !! t = Some l ->
  l = [] /\ 0 <= t < Z.of_nat (length prefabs).
Proof.
  unfold InternalNodePool_new. cbn [pools]. intros H.
  apply elem_of_list_to_map_2 in H. apply list_elem_of_fmap in H as (i & [= -> ->] & Hi).
  apply elem_of_seqZ in Hi. split; [reflexivity | lia].
Qed.

Lemma pool_new_is_Some (prefabs : list Node) (t : Z) :
  0 <= t < Z.of_nat (length prefabs) ->
  pools (InternalNodePool_new prefabs) !! t = Some [].
Proof.
  intros Ht. unfold InternalNodePool_new. cbn [pools].
  apply elem_of_list_to_map_1.
  - rewrite <- list_fmap_compose.
    apply NoDup_fmap_2; [| apply NoDup_seqZ]. intros i j [=]. assumption.
  - apply list_elem_of_fmap. exists t. split; [reflexivity |]. apply elem_of_seqZ. lia.
Qed.

Lemma Qdiv_nonneg (a b : Q) : (0 <= a)%Q -> (0 <= b)%Q -> (0 <= a / b)%Q.
Proof.
  intros Ha Hb. unfold Qdiv. apply Qmult_le_0_compat; [exact Ha |].
  now apply Qinv_le_0_compat.
Qed.

Lemma Qceiling_nonneg (x : Q) : (0 <= x)%Q -> 0 <= Qceiling x.
Proof. intros H. apply (Qceiling_resp_le 0 x) in H. exact H. Qed.

Lemma slotNode_replicate_None (w : Window) (k : nat) (s : Z) :
  _slotNodes w = replicate k None -> slotNode w s = None.
Proof.
  intros E. unfold slotNode, at_. rewrite E. destruct (s <? 0); [reflexivity |].
  destruct (replicate k None !! Z.to_nat s) as [o |] eqn:El; [| reflexivity].
  apply lookup_replicate_1 in El as [-> _]. reflexivity.
Qed.

Lemma buildPrefixSum_contentSize_nonneg (cfg : Config) (st : State) :
  (0 <= _contentSize (tbl (_buildPrefixSum cfg st)))%Q.
Proof.
  unfold _buildPrefixSum.
  destruct (prefix_loop (spacing cfg) 0 (_itemSizes (tbl st))) as [ps acc].
  cbn [finish_rebuild tbl with_tbl _contentSize].
  destruct (Qltb (acc - spacing cfg) 0) eqn:E; [lra |]. now apply Qltb_ge in E.
Qed.

Lemma initialSizes_at (cfg : Config) (count idx : Z) (f : Z -> Q) :
  getItemHeightFn cfg = Some f -> 0 <= idx < count ->
  at_ (initialSizes cfg count) idx = Some (f idx).
Proof.
  intros Hf Hidx. unfold initialSizes. rewrite Hf. apply at_Some. split; [lia |].
  rewrite list_lookup_fmap, lookup_seqZ_lt by lia. simpl. f_equal. f_equal. lia.
Qed.

(** [start()] in dynamic-size mode with [getItemHeightFn] set and every
    item of a recognised type: the layout returns, and leaves a settled
    table, every node owned once, well-formed slot arrays and the slots
    showing the window that begins at item 0. *)
Lemma initDynamicSizeMode_spec (fuel : nat) (cfg : Config) (count : Z) (viewport : Q)
    (f : Z -> Q) :
  useVirtualList cfg = true -> useDynamicSize cfg = true ->
  getItemHeightFn cfg = Some f ->
  0 <= count -> (0 <= viewport)%Q -> 0 <= buffer cfg ->
  (forall idx, 0 <= idx < count -> is_Some (at_ (itemPrefabs cfg) (targetType cfg idx))) ->
  exists st,
    _initDynamicSizeMode fuel cfg (newState count viewport) = Some st
    /\ totalCount st = count
    /\ settled cfg st /\ owned cfg st /\ window_wf cfg st /\ window_ok st
    /\ _slotFirstIndex (win st) = 0.
Proof.
  intros Hv Hd Hf Hcount Hvp Hbuf Htypes.
  unfold _initDynamicSizeMode, _initDynamicSlots, layoutSlots.
  set (st1 := _buildPrefixSum cfg _).
  assert (Hsizes : _itemSizes (tbl st1) = initialSizes cfg count) by apply buildPrefixSum_sizes.
  assert (Htc1 : totalCount st1 = count).
  { subst st1. unfold _buildPrefixSum.
    destruct (prefix_loop _ _ _). reflexivity. }
  assert (Hvp1 : _viewportSize st1 = viewport).
  { subst st1. rewrite buildPrefixSum_viewport. reflexivity. }
  assert (Hwin1 : win st1 = win (newState count viewport)).
  { subst st1. unfold _buildPrefixSum. destruct (prefix_loop _ _ _). reflexivity. }
  pose proof (buildPrefixSum_contentSize_nonneg cfg
                (with_tbl (newState count viewport)
                   (mkSizeTable (initialSizes cfg count) [] 0 0 0 0 0))) as Hcs.
  change (_buildPrefixSum cfg _) with st1 in Hcs.
  cbn [with_win totalCount _viewportSize tbl win _nodePool].
  rewrite Htc1, Hvp1.
  set (slots := Z.min _ _).
  assert (Hslots : 0 <= slots).
  { subst slots.
    assert (0 <= Qceiling (viewport / 80)) by (apply Qceiling_nonneg, Qdiv_nonneg; lra).
    assert (0 <= Qceiling (viewport / 50)) by (apply Qceiling_nonneg, Qdiv_nonneg; lra).
    match goal with |- context [Qceiling (viewport / ?a)] =>
      assert (0 <= Qceiling (viewport / a))
    end.
    { apply Qceiling_nonneg, Qdiv_nonneg; [exact Hvp |].
      destruct (Qeq_bool _ 0); [lra |].
      apply Qdiv_nonneg; [exact Hcs |]. rewrite <- (Zle_Qle 0). exact Hcount. }
    lia. }
  match goal with |- context [_layoutSlots _ _ 0 ?s] => set (pre := s) end.
  assert (Hnone : forall s, slotNode (win pre) s = None).
  { intros s. eapply slotNode_replicate_None. reflexivity. }
  assert (Hpool : _nodePool (win pre) = Some (InternalNodePool_new (itemPrefabs cfg))).
  { reflexivity. }
  assert (Htcp : totalCount pre = count) by (first [exact Htc1 | reflexivity]).
  assert (Htblp : tbl pre = tbl st1) by reflexivity.
  assert (Hset : settled cfg pre).
  { intros idx Hidx. rewrite Htcp in Hidx.
    exists (f idx). rewrite Htblp, Hsizes.
    split; [now apply initialSizes_at |]. rewrite Hf. reflexivity. }
  assert (Hown : owned cfg pre).
  { constructor.
    - intros i j n Hi. rewrite Hnone in Hi. discriminate.
    - intros n [i Hi]. rewrite Hnone in Hi. discriminate.
    - intros p Hp. rewrite Hpool in Hp. injection Hp as <-. split.
      + intros t l Hl. apply pool_new_lookup in Hl as [-> _].
        split; [constructor |]. intros n Hn. now apply elem_of_nil in Hn.
      + intros t1 t2 l1 l2 _ Hl1 _ n Hn. apply pool_new_lookup in Hl1 as [-> _].
        now apply elem_of_nil in Hn.
    - intros p t Hp. rewrite Hpool in Hp. injection Hp as <-. split.
      + intros [l Hl]. apply pool_new_lookup in Hl as [_ Ht]. now apply at_is_Some.
      + intros [x Hx]. apply at_lt in Hx. rewrite pool_new_is_Some by exact Hx. eauto. }
  assert (Hwf : window_wf cfg pre).
  { constructor; cbn [pre win _slotNodes _slots _nodePool _slotPrefabIndices with_win].
    - rewrite length_replicate. lia.
    - congruence.
    - eauto.
    - intros _. now rewrite !length_replicate. }
  destruct (layoutSlots_spec (updateItemHeight fuel cfg) cfg Hv 0 pre)
    as (st & E & Hw & Hs & Hfi & O & W & Hshown & _);
    [intros _ idx Hidx; apply Htypes; now rewrite <- Htcp
    | now right | exact Hown | exact Hwf | lia |].
  exists st. split; [exact E |].
  assert (Htc : totalCount st = count).
  { destruct (frame_win _ _ Hw) as [Htc _]. now rewrite Htc. }
  split; [exact Htc |].
  split; [eapply settled_tbl; [| | exact Hset]; [now rewrite Hw | congruence] |].
  split; [exact O |]. split; [exact W |].
  split; [| rewrite Hfi; reflexivity].
  intros s Hs'. rewrite Hs in Hs'. rewrite Hfi, (Hshown s Hs').
  unfold expected. now rewrite Htc, Htcp.
Qed.

Lemma NoDup_omap_id (l : list (option nat)) :
  (forall (i j n : nat), l !! i = Some (Some n) -> l !! j = Some (Some n) -> i = j) ->
  NoDup (omap id l).
Proof.
  induction l as [| [x |] rest IH]; intros Hinj; simpl.
  - constructor.
  - constructor.
    + intros Hin. apply list_elem_of_omap in Hin as (y & Hy & Hyx). simpl in Hyx. subst y.
      apply list_elem_of_lookup in Hy as [k Hk].
      specialize (Hinj 0%nat (S k) x eq_refl Hk). discriminate.
    + apply IH. intros i j n Hi Hj.
      specialize (Hinj (S i) (S j) n Hi Hj). lia.
  - apply IH. intros i j n Hi Hj.
    specialize (Hinj (S i) (S j) n Hi Hj). lia.
Qed.

(** Under ownership the slots hold pairwise distinct nodes, at most
    [_slots] of them. *)
Lemma owned_bound (cfg : Config) (st : State) :
  owned cfg st -> window_wf cfg st ->
  NoDup (omap id (_slotNodes (win st)))
  /\ Z.of_nat (length (omap id (_slotNodes (win st)))) <= _slots (win st).
Proof.
  intros Hown Hwf. split.
  - apply NoDup_omap_id. intros i j n Hi Hj.
    assert (Z.of_nat i = Z.of_nat j); [| lia].
    eapply (owned_slots _ _ Hown); unfold slotNode; rewrite at_of_nat;
      [rewrite Hi | rewrite Hj]; reflexivity.
  - rewrite <- (wf_length _ _ Hwf). apply inj_le.
    induction (_slotNodes (win st)) as [| [x |] rest IH]; [reflexivity | |].
    + change (omap id (Some x :: rest)) with (x :: omap id rest). simpl. lia.
    + change (omap id (None :: rest)) with (omap id rest). simpl. lia.
Qed.


(** ** Recycling with an unrecognised item type *)

Lemma unknownType_run :
  let cfg := unknownType_config in
  let st0 := started cfg 4 100 in
  let st1 := default st0 (layoutSingleSlot 1 cfg (slotNode (win st0) 0) 2 0 st0) in
  let st2 := default st0 (run 1 cfg [Down; Move (mkMove 0 100 1000)] st0) in
  targetType cfg 2 = 7 /\ at_ (itemPrefabs cfg) 7 = None
  /\ _slotNodes (win st0) = [Some 0%nat; Some 1%nat]
  /\ idle st0 0 = Some [] /\ idle st0 1 = Some []
  /\ layoutSingleSlot 1 cfg (slotNode (win st0) 0) 2 0 st0 = Some st1
  /\ slotNode (win st1) 0 = Some 0%nat /\ idle st1 0 = Some [0%nat]
  /\ run 1 cfg [Down; Move (mkMove 0 100 1000)] st0 = Some st2
  /\ slotNode (win st2) 0 = Some 0%nat /\ slotNode (win st2) 1 = Some 0%nat
  /\ shown st2 0 = Some 3 /\ shown st2 1 = Some 3.
Proof. vm_compute. repeat split. Qed.

Lemma idle_held_not_owned cfg st slot n t l :
  slotNode (win st) slot = Some n -> idle st t = Some l -> n ∈ l -> ~ owned cfg st.
Proof.
  intros Hs Hi Hin Hown. unfold idle in Hi.
  destruct (_nodePool (win st)) as [p |] eqn:Ep; [| discriminate].
  cbn [mbind option_bind] in Hi.
  destruct (owned_idle _ _ Hown p Ep) as [Hidle _].
  destruct (Hidle t l Hi) as [_ Hall].
  destruct (Hall n Hin) as [Hnot _].
  apply Hnot. now exists slot.
Qed.

Lemma shared_not_owned cfg st i j n :
  i <> j -> slotNode (win st) i = Some n -> slotNode (win st) j = Some n -> ~ owned cfg st.
Proof. intros Hne Hi Hj Hown. exact (Hne (owned_slots _ _ Hown i j n Hi Hj)). Qed.

(** C4, evaluated.  With two prefabs and an item (index 2) whose type is not
    the index of a prefab: after [start], slots 0 and 1 hold nodes 0 and 1
    and both idle lists are empty.  Binding slot 0 to item 2 releases node 0
    to the idle list of type 0 and returns on the failed [get], so node 0 is
    held by slot 0 and idle at once; and after a drag of 100, whose
    relayout binds slot 0 to item 2 and slot 1 to item 3, slots 0 and 1
    both hold node 0.  Ownership fails in both states. *)
Theorem unknown_type_breaks_ownership :
  let cfg := unknownType_config in
  let st0 := started cfg 4 100 in
  let st1 := default st0 (layoutSingleSlot 1 cfg (slotNode (win st0) 0) 2 0 st0) in
  let st2 := default st0 (run 1 cfg [Down; Move (mkMove 0 100 1000)] st0) in
  layoutSingleSlot 1 cfg (slotNode (win st0) 0) 2 0 st0 = Some st1
  /\ slotNode (win st1) 0 = Some 0%nat /\ idle st1 0 = Some [0%nat]
  /\ ~ owned cfg st1
  /\ run 1 cfg [Down; Move (mkMove 0 100 1000)] st0 = Some st2
  /\ slotNode (win st2) 0 = Some 0%nat /\ slotNode (win st2) 1 = Some 0%nat
  /\ ~ owned cfg st2.
Proof.
  pose proof unknownType_run as H. cbv zeta in H |- *.
  destruct H as (_ & _ & _ & _ & _ & E1 & S1 & I1 & E2 & S20 & S21 & _).
  split; [exact E1 |]. split; [exact S1 |]. split; [exact I1 |]. split.
  - exact (idle_held_not_owned _ _ _ _ _ _ S1 I1 (list_elem_of_here _ _)).
  - split; [exact E2 |]. split; [exact S20 |]. split; [exact S21 |].
    exact (shared_not_owned _ _ 0 1 _ ltac:(discriminate) S20 S21).
Qed.

(** ** The size table in closed form *)

Lemma prefix_loop_app (sp acc : Q) (l1 l2 : list Q) :
  prefix_loop sp acc (l1 ++ l2)
  = (fst (prefix_loop sp acc l1)
       ++ fst (prefix_loop sp (snd (prefix_loop sp acc l1)) l2),
     snd (prefix_loop sp (snd (prefix_loop sp acc l1)) l2)).
Proof.
  revert acc. induction l1 as [| s l1 IH]; intros acc; cbn [app prefix_loop].
  - cbn [fst snd]. now destruct (prefix_loop sp acc l2).
  - rewrite IH. destruct (prefix_loop sp (acc + (s + sp)) l1) as [ps a]. reflexivity.
Qed.

Lemma prefix_loop_sum (sp : Q) (sizes : list Q) (acc : Q) :
  (snd (prefix_loop sp acc sizes) == acc + stride_sum sp sizes)%Q
  /\ forall (i : nat) p, fst (prefix_loop sp acc sizes) !! i = Some p ->
       (p == acc + stride_sum sp (take i sizes))%Q.
Proof.
  revert acc. induction sizes as [| s rest IH]; intros acc; cbn [prefix_loop].
  - split; [cbn; lra |]. intros i p H. cbn in H. discriminate.
  - destruct (IH (acc + (s + sp))%Q) as [IH1 IH2].
    destruct (prefix_loop sp (acc + (s + sp)) rest) as [ps a]. cbn [fst snd] in *.
    split.
    + rewrite IH1. cbn [stride_sum foldr]. fold (stride_sum sp rest). lra.
    + intros [| i] p H; cbn in H.
      * injection H as <-. cbn. lra.
      * rewrite (IH2 i p H). cbn [take stride_sum foldr].
        fold (stride_sum sp (take i rest)). lra.
Qed.

Lemma prefix_loop_Qeq (sp : Q) (sizes : list Q) (a b : Q) :
  (a == b)%Q ->
  Forall2 Qeq (fst (prefix_loop sp a sizes)) (fst (prefix_loop sp b sizes))
  /\ (snd (prefix_loop sp a sizes) == snd (prefix_loop sp b sizes))%Q.
Proof.
  revert a b. induction sizes as [| s rest IH]; intros a b Hab; cbn [prefix_loop].
  - split; [constructor | exact Hab].
  - destruct (IH (a + (s + sp))%Q (b + (s + sp))%Q) as [IH1 IH2]; [now rewrite Hab |].
    destruct (prefix_loop sp (a + (s + sp)) rest) as [ps1 a1].
    destruct (prefix_loop sp (b + (s + sp)) rest) as [ps2 a2].
    cbn [fst snd] in *. split; [now constructor | exact IH2].
Qed.

Lemma Qltb_compat (a b c d : Q) : (a == b)%Q -> (c == d)%Q -> Qltb a c = Qltb b d.
Proof.
  intros H1 H2. destruct (Qltb b d) eqn:E.
  - apply Qltb_lt. apply Qltb_lt in E. now rewrite H1, H2.
  - apply Qltb_ge. apply Qltb_ge in E. now rewrite H1, H2.
Qed.

Lemma finish_rebuild_Qeq (cfg : Config) (st : State) (sizes ps1 ps2 : list Q) (a b : Q) :
  Forall2 Qeq ps1 ps2 -> (a == b)%Q ->
  tbl_equiv (tbl (finish_rebuild cfg st sizes ps1 a))
            (tbl (finish_rebuild cfg st sizes ps2 b)).
Proof.
  intros Hps Hab. unfold finish_rebuild, tbl_equiv. cbn [tbl with_tbl _itemSizes
    _prefixPositions _contentSize _boundsMin _boundsMax contentMainSize].
  rewrite (Qltb_compat (a - spacing cfg) (b - spacing cfg) 0 0)
    by (rewrite ?Hab; reflexivity).
  assert (Hcs : ((if Qltb (b - spacing cfg) 0 then 0 else a - spacing cfg)
                 == (if Qltb (b - spacing cfg) 0 then 0 else b - spacing cfg))%Q).
  { destruct (Qltb (b - spacing cfg) 0); [reflexivity | now rewrite Hab]. }
  split; [reflexivity |]. split; [exact Hps |]. split; [exact Hcs |].
  destruct (_isVertical cfg); repeat split; try reflexivity; now rewrite Hcs.
Qed.

Lemma Forall2_Qeq_refl (l : list Q) : Forall2 Qeq l l.
Proof. induction l; constructor; [reflexivity | assumption]. Qed.

Lemma tbl_equiv_refl (a : SizeTable) : tbl_equiv a a.
Proof.
  unfold tbl_equiv. split; [reflexivity |]. split; [apply Forall2_Qeq_refl |].
  repeat split; reflexivity.
Qed.

Lemma Forall2_Qeq_trans (l1 l2 l3 : list Q) :
  Forall2 Qeq l1 l2 -> Forall2 Qeq l2 l3 -> Forall2 Qeq l1 l3.
Proof.
  intros H. revert l3. induction H as [| x y l l' Hxy _ IH]; intros l3 H3.
  - inversion H3. constructor.
  - inversion H3 as [| ? z ? l3' Hyz Hrest]; subst. constructor.
    + now rewrite Hxy.
    + now apply IH.
Qed.

Lemma Forall2_Qeq_sym (l1 l2 : list Q) : Forall2 Qeq l1 l2 -> Forall2 Qeq l2 l1.
Proof. induction 1; constructor; [now symmetry | assumption]. Qed.

Lemma tbl_equiv_trans (a b c : SizeTable) : tbl_equiv a b -> tbl_equiv b c -> tbl_equiv a c.
Proof.
  intros (A1 & A2 & A3 & A4 & A5 & A6) (B1 & B2 & B3 & B4 & B5 & B6).
  unfold tbl_equiv. split; [congruence |]. split; [eapply Forall2_Qeq_trans; eassumption |].
  repeat split; etransitivity; eassumption.
Qed.

(** After [_buildPrefixSum], whatever the sizes: there is one position per
    size; the position of item [i] is the sum of the strides (size plus
    spacing) of the items before it; the content size is the sum of all
    strides less one spacing, or 0 when that is negative; the bounds
    enclose 0 and span the excess of the content over the viewport (0 when
    the content fits); and the content node is as long as the larger of
    content and viewport. *)
Theorem buildPrefixSum_closed_form (cfg : Config) (st : State) :
  let st' := _buildPrefixSum cfg st in
  let sizes := _itemSizes (tbl st) in
  length (_prefixPositions (tbl st')) = length sizes
  /\ (forall (i : nat) p, _prefixPositions (tbl st') !! i = Some p ->
        (p == stride_sum (spacing cfg) (take i sizes))%Q)
  /\ (_contentSize (tbl st') == Qmax 0 (stride_sum (spacing cfg) sizes - spacing cfg))%Q
  /\ (_boundsMin (tbl st') <= 0)%Q /\ (0 <= _boundsMax (tbl st'))%Q
  /\ (_boundsMax (tbl st') - _boundsMin (tbl st')
      == Qmax 0 (_contentSize (tbl st') - _viewportSize st))%Q
  /\ (contentMainSize (tbl st') == Qmax (_contentSize (tbl st')) (_viewportSize st))%Q.
Proof.
  intros st' sizes. subst st'. unfold _buildPrefixSum. fold sizes.
  pose proof (prefix_loop_length (spacing cfg) sizes 0) as Hlen.
  destruct (prefix_loop_sum (spacing cfg) sizes 0) as [Hacc Hpos].
  destruct (prefix_loop (spacing cfg) 0 sizes) as [ps acc]. cbn [fst snd] in *.
  unfold finish_rebuild. cbn [tbl with_tbl _itemSizes _prefixPositions _contentSize
    _boundsMin _boundsMax contentMainSize].
  split; [exact Hlen |]. split.
  { intros i p H. rewrite (Hpos i p H). lra. }
  assert (Hcs : ((if Qltb (acc - spacing cfg) 0 then 0 else acc - spacing cfg)
                 == Qmax 0 (stride_sum (spacing cfg) sizes - spacing cfg))%Q).
  { destruct (Qltb (acc - spacing cfg) 0) eqn:E.
    - apply Qltb_lt in E. symmetry. apply Q.max_l. rewrite Hacc in E. lra.
    - apply Qltb_ge in E. rewrite Q.max_r; [rewrite Hacc; lra |]. rewrite Hacc in E. lra. }
  split; [exact Hcs |].
  set (cs := if Qltb (acc - spacing cfg) 0 then 0%Q else (acc - spacing cfg)%Q) in *.
  pose proof (Q.le_max_l 0 (cs - _viewportSize st)) as Hover.
  destruct (_isVertical cfg); repeat split; try reflexivity; try lra.
Qed.

(** ** Incremental rebuild against full rebuild *)

Lemma stride_sum_app (sp : Q) (l1 l2 : list Q) :
  (stride_sum sp (l1 ++ l2) == stride_sum sp l1 + stride_sum sp l2)%Q.
Proof.
  unfold stride_sum. induction l1 as [| s l1 IH]; cbn [app foldr].
  - lra.
  - rewrite IH. lra.
Qed.

Lemma buildPrefixSum_same_sizes (cfg : Config) (a b : State) :
  _itemSizes (tbl a) = _itemSizes (tbl b) -> _viewportSize a = _viewportSize b ->
  tbl_equiv (tbl (_buildPrefixSum cfg a)) (tbl (_buildPrefixSum cfg b)).
Proof.
  intros Hs Hv. unfold _buildPrefixSum. rewrite Hs.
  destruct (prefix_loop (spacing cfg) 0 (_itemSizes (tbl b))) as [ps acc].
  unfold finish_rebuild, tbl_equiv. cbn [tbl with_tbl _itemSizes _prefixPositions
    _contentSize _boundsMin _boundsMax contentMainSize]. rewrite Hv.
  split; [reflexivity |]. split; [apply Forall2_Qeq_refl |]. repeat split; reflexivity.
Qed.

Lemma rebuildPrefixSumFrom_equiv (cfg : Config) (k : Z) (st : State) :
  0 <= k < Z.of_nat (length (_itemSizes (tbl st))) ->
  Forall2 Qeq (take (Z.to_nat k) (_prefixPositions (tbl st)))
    (take (Z.to_nat k) (_prefixPositions (tbl (_buildPrefixSum cfg st)))) ->
  tbl_equiv (tbl (_rebuildPrefixSumFrom cfg k st)) (tbl (_buildPrefixSum cfg st)).
Proof.
  intros Hk Hpre. unfold _rebuildPrefixSumFrom.
  destruct (Z.eqb_spec k 0) as [-> | Hk0]; [apply tbl_equiv_refl |].
  rewrite buildPrefixSum_positions in Hpre.
  unfold _buildPrefixSum.
  set (S := _itemSizes (tbl st)) in *. set (P := _prefixPositions (tbl st)) in *.
  set (sp := spacing cfg) in *. set (kn := Z.to_nat k) in *.
  assert (Hkn : (0 < kn < length S)%nat) by (subst kn; lia).
  destruct (lookup_lt_is_Some_2 S (kn - 1)) as [s Hs]; [lia |].
  assert (Htake : take kn S = take (kn - 1) S ++ [s]).
  { replace kn with (Datatypes.S (kn - 1)) at 1 by lia. now apply take_S_r. }
  assert (Hsplit : prefix_loop sp 0 S
                   = (fst (prefix_loop sp 0 (take kn S))
                        ++ fst (prefix_loop sp (snd (prefix_loop sp 0 (take kn S)))
                                  (drop kn S)),
                      snd (prefix_loop sp (snd (prefix_loop sp 0 (take kn S)))
                             (drop kn S)))).
  { rewrite <- (take_drop kn S) at 1. apply prefix_loop_app. }
  pose proof (prefix_loop_length sp (take kn S) 0) as Hlen1.
  rewrite length_take in Hlen1.
  assert (Hfull : take kn (fst (prefix_loop sp 0 S)) = fst (prefix_loop sp 0 (take kn S))).
  { rewrite <- (take_drop kn S) at 1. rewrite prefix_loop_app. cbn [fst].
    rewrite take_app_length'; [reflexivity | lia]. }
  rewrite Hfull in Hpre.
  (* the running sum at k *)
  destruct (prefix_loop_sum sp (take kn S) 0) as [Ha1 Hp1].
  set (a1 := snd (prefix_loop sp 0 (take kn S))) in *.
  destruct (lookup_lt_is_Some_2 (fst (prefix_loop sp 0 (take kn S))) (kn - 1)) as [pf Hpf];
    [lia |].
  assert (Hpk : exists p, P !! (kn - 1)%nat = Some p /\ (p == pf)%Q).
  { pose proof (Forall2_lookup_r _ _ _ (kn - 1)%nat pf Hpre Hpf) as (p & Hp & Hq).
    exists p. split; [| exact Hq]. rewrite lookup_take_lt in Hp by lia. exact Hp. }
  destruct Hpk as (p & Hp & Hppf).
  assert (Hacc : (default 0 (at_ P (k - 1)) + default 0 (at_ S (k - 1)) + sp == a1)%Q).
  { unfold at_. destruct (Z.ltb_spec (k - 1) 0); [lia |].
    replace (Z.to_nat (k - 1)) with (kn - 1)%nat by (subst kn; lia).
    rewrite Hp, Hs. cbn [default]. rewrite Hppf, Ha1.
    rewrite (Hp1 _ _ Hpf). rewrite Htake.
    rewrite take_app_length' by (rewrite length_take; lia).
    rewrite stride_sum_app. cbn [stride_sum foldr]. unfold id. lra. }
  destruct (prefix_loop_Qeq sp (drop kn S) _ _ Hacc) as [Hps Hfin].
  destruct (prefix_loop sp (default 0 (at_ P (k - 1)) + default 0 (at_ S (k - 1)) + sp)%Q
              (drop kn S)) as [ps acc'].
  cbn [fst snd] in *. rewrite Hsplit.
  apply finish_rebuild_Qeq; [| exact Hfin].
  apply Forall2_app; [exact Hpre | exact Hps].
Qed.

(** ** The table stays the one of a full rebuild *)

Lemma table_ok_same (cfg : Config) (st st' : State) :
  tbl st' = tbl st -> totalCount st' = totalCount st ->
  _viewportSize st' = _viewportSize st -> table_ok cfg st -> table_ok cfg st'.
Proof.
  intros Ht Hc Hv [Hlen Heq]. split; [now rewrite Ht, Hc |].
  rewrite Ht. eapply tbl_equiv_trans; [exact Heq |].
  apply buildPrefixSum_same_sizes; [now rewrite Ht | now rewrite Hv].
Qed.

Lemma table_ok_window (cfg : Config) (st st' : State) :
  same_but_win st st' -> table_ok cfg st -> table_ok cfg st'.
Proof. intros ->. now apply table_ok_same. Qed.

Lemma prefix_positions_take (sp : Q) (kn : nat) (l : list Q) :
  (kn <= length l)%nat ->
  take kn (fst (prefix_loop sp 0 l)) = fst (prefix_loop sp 0 (take kn l)).
Proof.
  intros Hl. rewrite <- (take_drop kn l) at 1. rewrite prefix_loop_app. cbn [fst].
  rewrite take_app_length'; [reflexivity |].
  rewrite prefix_loop_length, length_take. lia.
Qed.

(** Sizes that agree with the old ones below [k]: the rebuild from [k] on
    the old positions gives the table of a full rebuild. *)
Lemma rebuild_after_writes (cfg : Config) (k : Z) (sizes : list Q) (st : State) :
  0 <= k < Z.of_nat (length sizes) ->
  length sizes = length (_itemSizes (tbl st)) ->
  take (Z.to_nat k) sizes = take (Z.to_nat k) (_itemSizes (tbl st)) ->
  Forall2 Qeq (_prefixPositions (tbl st))
    (fst (prefix_loop (spacing cfg) 0 (_itemSizes (tbl st)))) ->
  tbl_equiv (tbl (_rebuildPrefixSumFrom cfg k (withSizes sizes st)))
    (tbl (_buildPrefixSum cfg (withSizes sizes st))).
Proof.
  intros Hk Hlen Htake Hpos.
  apply rebuildPrefixSumFrom_equiv.
  - cbn [withSizes tbl with_tbl _itemSizes]. exact Hk.
  - rewrite buildPrefixSum_positions.
    cbn [withSizes tbl with_tbl _itemSizes _prefixPositions].
    rewrite prefix_positions_take by lia. rewrite Htake.
    rewrite <- prefix_positions_take by lia.
    now apply Forall2_take.
Qed.

Lemma table_ok_rewrite (cfg : Config) (k : Z) (sizes : list Q) (st : State) :
  0 <= k < totalCount st ->
  length sizes = length (_itemSizes (tbl st)) ->
  take (Z.to_nat k) sizes = take (Z.to_nat k) (_itemSizes (tbl st)) ->
  table_ok cfg st ->
  table_ok cfg (_rebuildPrefixSumFrom cfg k (withSizes sizes st)).
Proof.
  intros Hk Hlen Htake [Hcount (_ & Hpos & _)].
  rewrite buildPrefixSum_positions in Hpos.
  set (st1 := withSizes sizes st).
  destruct (rebuildPrefixSumFrom_sizes cfg k st1) as (Hsz & _ & _).
  destruct (rebuildPrefixSumFrom_frame cfg k st1) as (Htc & Hvp & _ & _).
  split.
  - rewrite Hsz, Htc. cbn [st1 withSizes tbl with_tbl _itemSizes totalCount]. lia.
  - eapply tbl_equiv_trans.
    + apply rebuild_after_writes; [lia | exact Hlen | exact Htake | exact Hpos].
    + apply buildPrefixSum_same_sizes; [now rewrite Hsz | now rewrite Hvp].
Qed.

Lemma table_ok_resize (cfg : Config) (i : Z) (x : Q) (st : State) :
  0 <= i < totalCount st -> table_ok cfg st ->
  table_ok cfg (_rebuildPrefixSumFrom cfg i (withSizes (set_at (_itemSizes (tbl st)) i x) st)).
Proof.
  intros Hi Hok. apply table_ok_rewrite; [exact Hi | apply length_set_at | | exact Hok].
  unfold set_at. apply take_insert_ge. lia.
Qed.

Lemma updateItemHeight_keeps_table (fuel : nat) (cfg : Config) :
  forall (i : Z) (x : option Q) (st st' : State),
    updateItemHeight fuel cfg i x st = Some st' -> table_ok cfg st -> table_ok cfg st'.
Proof.
  induction fuel as [| fuel IH]; intros i x st st' H Hok; [discriminate |].
  cbn [updateItemHeight] in H.
  destruct (negb (useDynamicSize cfg)); [now injection H as <- |].
  destruct ((i <? 0) || (totalCount st <=? i)) eqn:Hrange; [now injection H as <- |].
  apply orb_false_iff in Hrange as [H1 H2].
  apply Z.ltb_ge in H1. apply Z.leb_gt in H2.
  set (size := match x with
               | Some x0 => Some x0
               | None => match getItemHeightFn cfg with
                         | Some f => Some (f i)
                         | None => None
                         end
               end) in H.
  destruct size as [size |]; [| now injection H as <-].
  destruct (match at_ (_itemSizes (tbl st)) i with
            | Some s => Qeq_bool s size
            | None => false
            end); [now injection H as <- |].
  refine (updateVisible_frame_gen (updateItemHeight fuel cfg) cfg
            (fun a b => table_ok cfg a -> table_ok cfg b)
            (fun a Ha => Ha) (fun a b c Hab Hbc Ha => Hbc (Hab Ha))
            (fun a b Hw => table_ok_window cfg a b Hw)
            (fun j y a b Hu => IH j y a b Hu) true _ st' H _).
  apply (table_ok_resize cfg i size st); [lia | exact Hok].
Qed.

(** ** What the gesture handlers leave alone *)

Lemma same_list_refl (st : State) : same_list st st.
Proof. now repeat split. Qed.

Lemma same_list_trans (a b c : State) : same_list a b -> same_list b c -> same_list a c.
Proof. unfold same_list. intuition congruence. Qed.

Ltac gesture_only :=
  repeat match goal with
         | |- context [match ?c with _ => _ end] => destruct c
         end;
  repeat split; reflexivity.

Lemma updateRefreshState_same_list (cfg : Config) (s : RefreshState.t) (off : Q) (st : State) :
  same_list st (_updateRefreshState cfg s off st).
Proof. unfold _updateRefreshState. gesture_only. Qed.

Lemma updateLoadMoreState_same_list (cfg : Config) (s : LoadMoreState.t) (off : Q)
    (st : State) :
  same_list st (_updateLoadMoreState cfg s off st).
Proof. unfold _updateLoadMoreState. gesture_only. Qed.

Lemma pullRefresh_same_list (cfg : Config) (delta pos lo hi fd : Q) (st : State) :
  same_list st (snd (pullRefresh cfg delta pos lo hi fd st)).
Proof. unfold pullRefresh, _updateRefreshState. gesture_only. Qed.

Lemma pullLoadMore_same_list (cfg : Config) (delta pos lo hi fd : Q) (st : State) :
  same_list st (snd (pullLoadMore cfg delta pos lo hi fd st)).
Proof. unfold pullLoadMore, _updateLoadMoreState. gesture_only. Qed.

Lemma onMove_gesture_same_list (cfg : Config) (e : MoveEvent) (st : State) :
  same_list st (onMove_gesture cfg e st).
Proof.
  unfold onMove_gesture.
  match goal with
  | |- context [pullRefresh ?c ?d ?p ?lo ?hi ?fd st] =>
      pose proof (pullRefresh_same_list c d p lo hi fd st) as H1;
      destruct (pullRefresh c d p lo hi fd st) as [fd1 st1]
  end.
  match goal with
  | |- context [pullLoadMore ?c ?d ?p ?lo ?hi ?fd st1] =>
      pose proof (pullLoadMore_same_list c d p lo hi fd st1) as H2;
      destruct (pullLoadMore c d p lo hi fd st1) as [fd2 st2]
  end.
  cbn [snd] in *. eapply same_list_trans; [exact H1 |].
  eapply same_list_trans; [exact H2 |]. now repeat split.
Qed.

Lemma onDown_same_list (st : State) : same_list st (_onDown st).
Proof. now repeat split. Qed.

Lemma onUp_same_list (cfg : Config) (st : State) : same_list st (_onUp cfg st).
Proof.
  unfold _onUp, _triggerRefresh, _triggerLoadMore, _updateRefreshState,
    _updateLoadMoreState.
  gesture_only.
Qed.

Lemma update_motion_same_list (cfg : Config) (dt : Q) (st : State) :
  same_list st (fst (update_motion cfg dt st)).
Proof. unfold update_motion. gesture_only. Qed.

Lemma finishRefresh_same_list (cfg : Config) (b : bool) (st : State) :
  same_list st (finishRefresh cfg b st).
Proof. unfold finishRefresh, _updateRefreshState. gesture_only. Qed.

Lemma finishLoadMore_same_list (cfg : Config) (b : bool) (st : State) :
  same_list st (finishLoadMore cfg b st).
Proof. unfold finishLoadMore, _updateLoadMoreState. gesture_only. Qed.

Lemma resetLoadMoreState_same_list (cfg : Config) (st : State) :
  same_list st (resetLoadMoreState cfg st).
Proof. unfold resetLoadMoreState, _updateLoadMoreState. gesture_only. Qed.

Lemma fireTimer_same_list (cfg : Config) (tm : Timer) (st : State) :
  same_list st (fireTimer cfg tm st).
Proof. unfold fireTimer, _updateRefreshState, _updateLoadMoreState. gesture_only. Qed.


(** ** Batch size update *)


(** ** What keeps the size table consistent *)


Lemma layoutSlots_keeps_table (fuel : nat) (cfg : Config) (first : Z) (st st' : State) :
  layoutSlots fuel cfg first st = Some st' -> table_ok cfg st -> table_ok cfg st'.
Proof.
  intros H.
  exact (layoutSlots_frame (updateItemHeight fuel cfg) cfg
           (fun a b => table_ok cfg a -> table_ok cfg b)
           (fun a Ha => Ha) (fun a b c Hab Hbc Ha => Hbc (Hab Ha))
           (fun a b Hw => table_ok_window cfg a b Hw)
           (fun j y a b Hu => updateItemHeight_keeps_table fuel cfg j y a b Hu)
           first st st' H).
Qed.



Lemma length_resizeSizes (cfg : Config) (cache : gmap Z Q) (total : Z) (sizes : list Q) :
  0 <= total -> Z.of_nat (length (resizeSizes cfg cache total sizes)) = total.
Proof.
  intros Ht. unfold resizeSizes.
  destruct (Z.ltb_spec (Z.of_nat (length sizes)) total).
  - rewrite length_app, length_fmap, length_seqZ. lia.
  - destruct (Z.ltb_spec total (Z.of_nat (length sizes))).
    + rewrite length_take. lia.
    + lia.
Qed.

Lemma table_ok_build (cfg : Config) (st : State) :
  Z.of_nat (length (_itemSizes (tbl st))) = totalCount st ->
  table_ok cfg (_buildPrefixSum cfg st).
Proof.
  intros Hlen. split.
  - rewrite buildPrefixSum_sizes.
    unfold _buildPrefixSum. destruct (prefix_loop _ _ _). exact Hlen.
  - apply buildPrefixSum_same_sizes.
    + now rewrite buildPrefixSum_sizes.
    + now rewrite buildPrefixSum_viewport.
Qed.

Lemma expandSlots_window (cfg : Config) (st : State) :
  same_but_win st (_expandSlotsIfNeeded cfg st).
Proof.
  unfold _expandSlotsIfNeeded.
  match goal with |- context [if ?b then _ else _] => destruct b end;
    [apply same_but_win_with | apply same_but_win_refl].
Qed.







(** ** Size table: extras *)






(** ** Batch update: extras *)

(** A batch of one entry is [updateItemHeight] with that size. *)
Theorem updateItemHeights_singleton (fuel : nat) (cfg : Config) (i : Z) (h : Q)
    (st : State) :
  updateItemHeights fuel cfg [(i, h)] st = updateItemHeight (S fuel) cfg i (Some h) st.
Proof.
  unfold updateItemHeights. cbn [updateItemHeight updateItemHeights_loop].
  destruct (negb (useDynamicSize cfg)); [reflexivity |].
  destruct ((i <? 0) || (totalCount st <=? i)) eqn:Hrange; [reflexivity |].
  apply orb_false_iff in Hrange as [H1 H2].
  apply Z.ltb_ge in H1. apply Z.leb_gt in H2.
  destruct (match at_ (_itemSizes (tbl st)) i with
            | Some s => Qeq_bool s h
            | None => false
            end); [reflexivity |].
  cbn [negb]. rewrite Z.min_r by lia. reflexivity.
Qed.

Lemma updateItemHeights_loop_same (total : Z) (updates : list (Z * Q)) (sizes : list Q)
    (m : Z) (c : bool) :
  Forall (fun u => u.1 < 0 \/ total <= u.1
                   \/ exists s, at_ sizes u.1 = Some s /\ (s == u.2)%Q) updates ->
  updateItemHeights_loop total updates sizes m c = (sizes, m, c).
Proof.
  induction 1 as [| [i h] rest Hu _ IH]; cbn [updateItemHeights_loop]; [reflexivity |].
  cbn [fst snd] in Hu.
  destruct ((i <? 0) || (total <=? i)) eqn:Hrange; [exact IH |].
  apply orb_false_iff in Hrange as [H1 H2].
  apply Z.ltb_ge in H1. apply Z.leb_gt in H2.
  destruct Hu as [? | [? | (s & Hs & Hq)]]; [lia | lia |].
  rewrite Hs, (Qeq_bool_eq _ _ Hq). exact IH.
Qed.

(** A batch in which every entry is out of range or carries the size that
    the table already holds changes nothing: no rebuild, no relayout. *)
Theorem updateItemHeights_no_change (fuel : nat) (cfg : Config) (updates : list (Z * Q))
    (st : State) :
  Forall (fun u => u.1 < 0 \/ totalCount st <= u.1
                   \/ exists s, at_ (_itemSizes (tbl st)) u.1 = Some s /\ (s == u.2)%Q)
    updates ->
  updateItemHeights fuel cfg updates st = Some st.
Proof.
  intros H. unfold updateItemHeights.
  destruct (negb (useDynamicSize cfg)); [reflexivity |].
  destruct updates as [| u rest]; [reflexivity |].
  rewrite (updateItemHeights_loop_same _ _ _ _ _ H). reflexivity.
Qed.

Lemma updateItemHeights_no_change_witness :
  updateItemHeights 0 scenarioC_config [(-1, 10%Q); (7, 10%Q); (1, 100 # 2)] scenarioC_built
  = Some scenarioC_built.
Proof.
  apply (updateItemHeights_no_change 0 scenarioC_config
           [(-1, 10%Q); (7, 10%Q); (1, 100 # 2)] scenarioC_built).
  apply List.Forall_cons; [left; cbn; lia |].
  apply List.Forall_cons; [right; left; vm_compute; intros [=] |].
  apply List.Forall_cons; [| apply List.Forall_nil].
  right. right. exists 50%Q. split; reflexivity.
Defined.

(** The writes of a batch: for an index inside the table the size stored
    after the loop is the height of the last entry for that index, and the
    old size when the batch has no entry for it. *)
Theorem updateItemHeights_last_write_wins (total : Z) (updates : list (Z * Q)) (i : Z) :
  forall (sizes : list Q) (m : Z) (c : bool) (s : Q),
    0 <= i < total -> at_ sizes i = Some s ->
    exists s',
      at_ (updateItemHeights_loop total updates sizes m c).1.1 i = Some s'
      /\ match lastUpdate i updates with
         | Some h => (s' == h)%Q
         | None => s' = s
         end.
Proof.
  induction updates as [| [j h] rest IH]; intros sizes m c s Hi Hs;
    cbn [updateItemHeights_loop lastUpdate].
  - exists s. now split.
  - assert (Hkeep : forall m' c',
              exists s', at_ (updateItemHeights_loop total rest sizes m' c').1.1 i = Some s'
                /\ match lastUpdate i rest with
                   | Some h' => (s' == h')%Q
                   | None => s' = s
                   end) by (intros; now apply IH).
    destruct ((j <? 0) || (total <=? j)) eqn:Hrange.
    { destruct (Hkeep m c) as (s' & A & B). exists s'. split; [exact A |].
      destruct (lastUpdate i rest); [exact B |].
      destruct (Z.eqb_spec j i) as [-> | _]; [| exact B].
      apply orb_true_iff in Hrange as [H | H]; [apply Z.ltb_lt in H | apply Z.leb_le in H];
        lia. }
    apply orb_false_iff in Hrange as [H1 H2].
    apply Z.ltb_ge in H1. apply Z.leb_gt in H2.
    destruct (match at_ sizes j with
              | Some s0 => Qeq_bool s0 h
              | None => false
              end) eqn:Hsame.
    { destruct (Hkeep m c) as (s' & A & B). exists s'. split; [exact A |].
      destruct (lastUpdate i rest); [exact B |].
      destruct (Z.eqb_spec j i) as [-> | _]; [| exact B].
      subst s'. rewrite Hs in Hsame. now apply Qeq_bool_iff. }
    destruct (Z.eqb_spec j i) as [-> | Hne].
    + destruct (IH (set_at sizes i h) (Z.min m i) true h Hi) as (s' & A & B).
      { eapply at_set_at. exact Hs. }
      exists s'. split; [exact A |].
      destruct (lastUpdate i rest); [exact B | now subst].
    + destruct (IH (set_at sizes j h) (Z.min m j) true s Hi) as (s' & A & B).
      { rewrite at_set_at_ne by lia. exact Hs. }
      exists s'. split; [exact A |]. destruct (lastUpdate i rest); exact B.
Qed.

Lemma updateItemHeights_last_write_wins_witness :
  exists s',
    at_ (updateItemHeights_loop 3 [(1, 70%Q); (0, 10%Q); (1, 60%Q)] [50; 50; 50]%Q 3 false).1.1 1
    = Some s'
    /\ (s' == 60)%Q.
Proof.
  exact (updateItemHeights_last_write_wins 3 [(1, 70%Q); (0, 10%Q); (1, 60%Q)] 1
           [50; 50; 50]%Q 3 false 50%Q ltac:(lia) eq_refl).
Defined.

(** When the sizes left by the writes of a batch agree with the size
    source, a batch that changes at least one size costs one prefix-sum
    rebuild and one relayout, however many entries it has; the table then
    holds the sizes that the loop wrote. *)
Theorem updateItemHeights_one_rebuild (fuel : nat) (cfg : Config) (updates : list (Z * Q))
    (st : State) :
  useDynamicSize cfg = true ->
  let r := updateItemHeights_loop (totalCount st) updates (_itemSizes (tbl st))
             (totalCount st) false in
  r.2 = true ->
  settled cfg (withSizes r.1.1 st) ->
  exists st',
    updateItemHeights fuel cfg updates st = Some st'
    /\ _itemSizes (tbl st') = r.1.1
    /\ rebuilds (tbl st') = S (rebuilds (tbl st))
    /\ relayouts (win st')
       = (if useVirtualList cfg then S (relayouts (win st)) else relayouts (win st)).
Proof.
  intros Hdyn r Hchange Hset. subst r.
  unfold updateItemHeights. rewrite Hdyn. cbn [negb].
  destruct updates as [| u rest]; [discriminate |].
  destruct (updateItemHeights_loop (totalCount st) (u :: rest) (_itemSizes (tbl st))
              (totalCount st) false) as [[sizes m] c].
  cbn [fst snd] in *. subst c. cbn [negb].
  set (st1 := withSizes sizes st) in *.
  destruct (rebuildPrefixSumFrom_sizes cfg m st1) as (Hsz & Hrb & Hwin).
  destruct (rebuildPrefixSumFrom_frame cfg m st1) as (Htc & _).
  assert (Hq : quiet cfg (_rebuildPrefixSumFrom cfg m st1)).
  { right. eapply settled_sizes; [exact Hsz | exact Htc | exact Hset]. }
  destruct (updateVisible_quiet (updateItemHeight fuel cfg) cfg true _ Hq)
    as (st' & E & Hw & _ & Hr).
  exists st'. split; [exact E |].
  assert (Htbl : tbl st' = tbl (_rebuildPrefixSumFrom cfg m st1)) by (rewrite Hw; reflexivity).
  split; [rewrite Htbl, Hsz; reflexivity |].
  split; [rewrite Htbl, Hrb; reflexivity |].
  rewrite (Hr eq_refl), Hwin. reflexivity.
Qed.

Lemma updateItemHeights_one_rebuild_witness :
  exists st',
    updateItemHeights 0 resized_config [(0, 70%Q); (5, 10%Q); (0, 70%Q)]
      (started (scenarioD_config true) 3 80) = Some st'
    /\ _itemSizes (tbl st') = [70; 50; 50]%Q
    /\ rebuilds (tbl st') = 2%nat.
Proof.
  destruct (updateItemHeights_one_rebuild 0 resized_config [(0, 70%Q); (5, 10%Q); (0, 70%Q)]
              (started (scenarioD_config true) 3 80) eq_refl eq_refl)
    as (st' & E & Hs & Hrb & _).
  - intros idx Hidx. change (totalCount _) with 3 in Hidx.
    assert (Hcases : idx = 0 \/ idx = 1 \/ idx = 2) by lia.
    destruct Hcases as [-> | [-> | ->]]; eexists; (split; [reflexivity |]); reflexivity.
  - exists st'. split; [exact E |]. split; [exact Hs | exact Hrb].
Defined.

(** ** Position lookup: extras *)

Lemma posToFirstIndex_loop_range (P : list Q) (pos : Q) (l r ans : Z) :
  l <= r + 1 -> ans = r + 1 ->
  l <= posToFirstIndex_loop P pos l r ans <= r + 1.
Proof.
  funelim (posToFirstIndex_loop P pos l r ans); intros Hl Hans.
  - pose proof (shiftr1_bounds l r ltac:(lia)) as Hm. cbv zeta.
    destruct (js_gt (at_ positions (Z.shiftr (l + r) 1)) pos).
    + specialize (H ltac:(lia) ltac:(lia)). lia.
    + specialize (H0 ltac:(lia) Hans). lia.
  - lia.
Qed.

Lemma posToFirstIndex_range (st : State) (pos : Q) :
  0 <= _posToFirstIndex st pos
       <= Z.max 0 (Z.of_nat (length (_prefixPositions (tbl st))) - 1).
Proof.
  unfold _posToFirstIndex. destruct (Qle_bool pos 0); [lia |].
  pose proof (posToFirstIndex_loop_range (_prefixPositions (tbl st)) pos 0
                (Z.of_nat (length (_prefixPositions (tbl st))) - 1)
                (Z.of_nat (length (_prefixPositions (tbl st)))) ltac:(lia) ltac:(lia)).
  lia.
Qed.

(** Whatever the prefix table holds, sorted or not, and whatever the
    position: [_posToFirstIndex] returns an index of the table (0 for an
    empty table), and for a buffer that is not negative the range of
    [_calcVisibleRange] is a range of the table, [0 <= start <= end <= n],
    empty for an empty table. *)
Theorem calcVisibleRange_in_range (cfg : Config) (st : State) (scrollPos : Q) :
  0 <= buffer cfg ->
  let n := Z.of_nat (length (_prefixPositions (tbl st))) in
  let r := _calcVisibleRange cfg st scrollPos in
  0 <= _posToFirstIndex st scrollPos <= Z.max 0 (n - 1)
  /\ 0 <= r.1 <= r.2 /\ r.2 <= n /\ (n = 0 -> r = (0, 0)).
Proof.
  intros Hb n r. split; [apply posToFirstIndex_range |].
  subst r. unfold _calcVisibleRange. fold n.
  destruct (Z.eqb_spec n 0) as [Hn | Hn];
    [cbn [fst snd]; split; [lia | split; [lia | reflexivity]] |].
  cbn [fst snd].
  pose proof (posToFirstIndex_range st scrollPos) as Hs. fold n in Hs.
  assert (Hn0 : 0 <= n) by (unfold n; lia).
  destruct (visibleEnd_loop_spec (_prefixPositions (tbl st))
              (scrollPos + _viewportSize st) n (_posToFirstIndex st scrollPos)
              eq_refl ltac:(lia)) as [He _].
  cbv zeta in He. split; [lia |]. split; [lia | intros; lia].
Qed.

Lemma calcVisibleRange_in_range_witness :
  0 <= (_calcVisibleRange scenarioC_config scenarioC_built 1000).1
    <= (_calcVisibleRange scenarioC_config scenarioC_built 1000).2
  /\ (_calcVisibleRange scenarioC_config scenarioC_built 1000).2 <= 3.
Proof.
  destruct (calcVisibleRange_in_range scenarioC_config scenarioC_built 1000 ltac:(cbn; lia))
    as (_ & H1 & H2 & _).
  split; [exact H1 | exact H2].
Defined.

(** On a table built from strides that are not negative the lookup is
    monotone: a position further down never gives an earlier index. *)
Theorem posToFirstIndex_monotone (cfg : Config) (st : State) (pos1 pos2 : Q) :
  (forall s, s ∈ _itemSizes (tbl st) -> 0 <= s + spacing cfg)%Q ->
  (pos1 <= pos2)%Q ->
  _posToFirstIndex (_buildPrefixSum cfg st) pos1
  <= _posToFirstIndex (_buildPrefixSum cfg st) pos2.
Proof.
  intros Hstr Hle. set (st' := _buildPrefixSum cfg st).
  pose proof (posToFirstIndex_range st' pos1) as R1.
  pose proof (posToFirstIndex_range st' pos2) as R2.
  destruct (Qlt_le_dec 0 pos1) as [Hpos | Hnon];
    [| rewrite (posToFirstIndex_nonpos st' pos1 Hnon); lia].
  destruct (_prefixPositions (tbl st')) as [| p0 rest] eqn:EP.
  { cbn [length] in R1, R2. lia. }
  assert (Hp0 : p0 = 0%Q).
  { subst st'. rewrite buildPrefixSum_positions in EP.
    apply (prefix_loop_first (spacing cfg) (_itemSizes (tbl st)) 0 p0). now rewrite EP. }
  pose proof (buildPrefixSum_nondecreasing cfg st Hstr) as Hnd. fold st' in Hnd.
  destruct (posToFirstIndex_greatest st' pos1 p0) as (p & Hp & Hple & _);
    [exact Hnd | now rewrite EP | subst p0; lra | exact Hpos |].
  destruct (posToFirstIndex_greatest st' pos2 p0) as (_ & _ & _ & Hmax);
    [exact Hnd | now rewrite EP | subst p0; lra | lra |].
  apply (Hmax _ p Hp). lra.
Qed.

Lemma posToFirstIndex_monotone_witness :
  _posToFirstIndex scenarioC_built 60 <= _posToFirstIndex scenarioC_built 120.
Proof.
  apply (posToFirstIndex_monotone scenarioC_config scenarioC_state 60 120).
  - intros s Hs. vm_compute in Hs.
    repeat (apply elem_of_cons in Hs as [-> | Hs]; [vm_compute; intros [=] |]).
    now apply elem_of_nil in Hs.
  - vm_compute. intros [=].
Defined.

(** ** The window invariant *)

Lemma quiet_same (cfg : Config) (st st' : State) :
  tbl st' = tbl st -> totalCount st' = totalCount st -> quiet cfg st -> quiet cfg st'.
Proof.
  intros Ht Hc [Hq | Hq]; [now left | right]. eapply settled_tbl; eassumption.
Qed.

Lemma window_ok_same (st st' : State) :
  win st' = win st -> totalCount st' = totalCount st -> window_ok st -> window_ok st'.
Proof.
  intros Hw Hc Hok s Hs. rewrite Hw in Hs. unfold shown, expected. rewrite Hw, Hc.
  exact (Hok s Hs).
Qed.

Lemma owned_same (cfg : Config) (st st' : State) :
  win st' = win st -> owned cfg st -> owned cfg st'.
Proof. intros Hw. apply owned_transfer; now rewrite Hw. Qed.

Lemma window_wf_same (cfg : Config) (st st' : State) :
  win st' = win st -> window_wf cfg st -> window_wf cfg st'.
Proof. intros Hw. apply window_wf_transfer; now rewrite Hw. Qed.

Lemma list_inv_same_list (cfg : Config) (st st' : State) :
  same_list st st' -> list_inv cfg st -> list_inv cfg st'.
Proof.
  intros (Hc & _ & Ht & Hw) [H1 H2 H3 H4 H5]. constructor.
  - eapply quiet_same; eassumption.
  - eapply owned_same; eassumption.
  - eapply window_wf_same; eassumption.
  - eapply window_ok_same; eassumption.
  - intros Hd. rewrite Ht, Hc. auto.
Qed.

Lemma types_valid_of_config (cfg : Config) (st : State) :
  layout_config cfg -> useDynamicSize cfg = true -> types_valid cfg st.
Proof. intros Hc Hd idx Hidx. apply (lc_types cfg Hc Hd). lia. Qed.

Section WindowInvariant.
Variable upd : Z -> option Q -> State -> option State.
Variable cfg : Config.
Hypothesis Hcfg : layout_config cfg.

(** A full relayout from the first index that the position gives. *)
Lemma relayout_inv (newFirst : Z) (st : State) :
  quiet cfg st -> owned cfg st -> window_wf cfg st -> 0 <= newFirst ->
  (useDynamicSize cfg = true -> Z.of_nat (length (_itemSizes (tbl st))) = totalCount st) ->
  exists st',
    _layoutSlots upd cfg newFirst (set_slotFirstIndex newFirst st) = Some st'
    /\ list_inv cfg st' /\ same_but_win st st' /\ _slots (win st') = _slots (win st)
    /\ _slotFirstIndex (win st') = newFirst.
Proof.
  intros Hq Hown Hwf Hnf Hlen.
  destruct (reconcile_full_spec upd cfg (lc_virtual cfg Hcfg) newFirst st
              (types_valid_of_config cfg st Hcfg) Hq Hown Hwf Hnf)
    as (full & E & _ & Hok & Hown' & Hwf' & Hslots & Hfirst).
  destruct (reconcile_quiet upd cfg true newFirst st Hq Hnf) as (st' & E' & Hw & _).
  rewrite E in E'. injection E' as <-.
  exists full. split; [exact E |]. split; [| auto].
  assert (Ht : tbl full = tbl st) by (rewrite Hw; reflexivity).
  assert (Hc : totalCount full = totalCount st) by (rewrite Hw; reflexivity).
  constructor; auto.
  - eapply quiet_same; eassumption.
  - intros Hd. rewrite Ht, Hc. auto.
Qed.

Lemma updateVisible_inv (force : bool) (st : State) :
  list_inv cfg st ->
  exists st',
    _updateVisible upd cfg force st = Some st'
    /\ list_inv cfg st' /\ same_but_win st st' /\ _slots (win st') = _slots (win st).
Proof.
  intros [Hq Hown Hwf Hok Hlen]. unfold _updateVisible.
  rewrite (lc_virtual cfg Hcfg). cbn [negb].
  pose proof (newFirstIndex_nonneg cfg st) as Hnf.
  set (nf := newFirstIndex cfg st) in *.
  assert (Hfull : exists st',
             _layoutSlots upd cfg nf (set_slotFirstIndex nf st) = Some st'
             /\ list_inv cfg st' /\ same_but_win st st'
             /\ _slots (win st') = _slots (win st)).
  { destruct (relayout_inv nf st Hq Hown Hwf Hnf Hlen) as (st' & E & Hi & Hw & Hs & _).
    exists st'. auto. }
  unfold reconcile. destruct force; [exact Hfull |].
  destruct (Z.eqb_spec (nf - _slotFirstIndex (win st)) 0) as [Hz | Hnz].
  { exists st. split; [reflexivity |]. split; [now constructor |].
    split; [apply same_but_win_refl | reflexivity]. }
  destruct (Z.leb_spec (_slots (win st)) (Z.abs (nf - _slotFirstIndex (win st))))
    as [Hfar | Hnear]; [exact Hfull |].
  destruct (reconcile_incremental_spec upd cfg (lc_virtual cfg Hcfg) nf st
              (types_valid_of_config cfg st Hcfg) Hq Hown Hwf Hok Hnf ltac:(lia))
    as (inc & E & _ & Hok' & Hown' & Hwf' & _).
  destruct (reconcile_quiet upd cfg false nf st Hq Hnf) as (st' & E' & Hw & Hs & _).
  unfold reconcile in E, E'.
  destruct (Z.eqb_spec (nf - _slotFirstIndex (win st)) 0); [contradiction |].
  destruct (Z.leb_spec (_slots (win st)) (Z.abs (nf - _slotFirstIndex (win st)))); [lia |].
  rewrite E in E'. injection E' as <-.
  exists inc. split; [exact E |]. split; [| auto].
  assert (Ht : tbl inc = tbl st) by (rewrite Hw; reflexivity).
  assert (Hc : totalCount inc = totalCount st) by (rewrite Hw; reflexivity).
  constructor; auto.
  - eapply quiet_same; eassumption.
  - intros Hd. rewrite Ht, Hc. auto.
Qed.
End WindowInvariant.

(** ** Changing the number of items keeps the invariant *)

Lemma slotNode_app_None (l : list (option nat)) (k : nat) (s : Z) :
  mjoin (at_ (l ++ replicate k None) s) = mjoin (at_ l s).
Proof.
  unfold at_. destruct (s <? 0); [reflexivity |].
  destruct (decide (Z.to_nat s < length l)%nat) as [Hlt | Hge].
  - now rewrite lookup_app_l.
  - rewrite lookup_app_r by lia. rewrite (lookup_ge_None_2 l) by lia.
    destruct (replicate k None !! (Z.to_nat s - length l)%nat) as [o |] eqn:E;
      [| reflexivity].
    apply lookup_replicate in E as [-> _]. reflexivity.
Qed.

Lemma owned_pointwise (cfg : Config) (st st' : State) :
  (forall s, slotNode (win st') s = slotNode (win st) s) ->
  _nodePool (win st') = _nodePool (win st) ->
  (length (nodes (win st)) <= length (nodes (win st')))%nat ->
  owned cfg st -> owned cfg st'.
Proof.
  intros Hsn Hp Hl [H1 H2 H3 H4].
  assert (Hh : forall n, held st' n -> held st n).
  { intros n [i Hi]. exists i. now rewrite <- Hsn. }
  constructor.
  - intros i j n. rewrite !Hsn. apply H1.
  - intros n Hn. apply Hh, H2 in Hn. lia.
  - intros p Hp'. rewrite Hp in Hp'. eapply pool_ok_weaken; [exact Hh | exact Hl | now apply H3].
  - intros p t Hp'. rewrite Hp in Hp'. now apply H4.
Qed.

Lemma expandSlots_spec (cfg : Config) (st : State) :
  useDynamicSize cfg = true -> owned cfg st -> window_wf cfg st ->
  let st' := _expandSlotsIfNeeded cfg st in
  owned cfg st' /\ window_wf cfg st'
  /\ _slots (win st) <= _slots (win st')
  /\ (forall s, slotNode (win st') s = slotNode (win st) s)
  /\ take (length (_slotNodes (win st))) (_slotNodes (win st')) = _slotNodes (win st)
  /\ _slotFirstIndex (win st') = _slotFirstIndex (win st).
Proof.
  intros Hd Hown Hwf st'. subst st'. unfold _expandSlotsIfNeeded.
  match goal with |- context [if ?b then _ else _] => destruct b eqn:Hlt end.
  2: { split; [exact Hown |]. split; [exact Hwf |]. split; [lia |].
       split; [reflexivity |]. split; [apply firstn_all | reflexivity]. }
  apply Z.ltb_lt in Hlt.
  match type of Hlt with _ < ?n => set (needed := n) in * end.
  set (k := Z.to_nat (needed - _slots (win st))).
  cbn [win with_win _slots _slotNodes _slotFirstIndex].
  assert (Hsn : forall s,
             mjoin (at_ (_slotNodes (win st) ++ replicate k None) s) = slotNode (win st) s).
  { intros s. apply slotNode_app_None. }
  split; [| split; [| split; [lia | split; [exact Hsn | split; [| reflexivity]]]]].
  - apply (owned_pointwise cfg st); [exact Hsn | reflexivity | reflexivity | exact Hown].
  - destruct Hwf as [W1 W2 W3 W4]. constructor;
      cbn [win with_win _slots _slotNodes _slotPrefabIndices _nodePool].
    + rewrite length_app, length_replicate. subst k. lia.
    + intros Hf. congruence.
    + exact W3.
    + intros _. rewrite !length_app, !length_replicate. now rewrite (W4 Hd).
  - now rewrite take_app_length.
Qed.

Lemma resizeSizes_at (cfg : Config) (cache : gmap Z Q) (total : Z) (sizes : list Q)
    (idx : Z) :
  0 <= idx < total ->
  at_ (resizeSizes cfg cache total sizes) idx
  = if idx <? Z.of_nat (length sizes) then at_ sizes idx
    else Some (grownSize cfg cache idx).
Proof.
  intros Hidx. unfold resizeSizes, at_.
  destruct (Z.ltb_spec idx 0); [lia |].
  destruct (Z.ltb_spec (Z.of_nat (length sizes)) total).
  - destruct (Z.ltb_spec idx (Z.of_nat (length sizes))).
    + rewrite lookup_app_l by lia. reflexivity.
    + rewrite lookup_app_r by lia. rewrite list_lookup_fmap.
      rewrite (lookup_seqZ_lt _ _ (Z.to_nat idx - length sizes)) by lia.
      cbn [fmap option_fmap option_map]. do 2 f_equal. lia.
  - destruct (Z.ltb_spec idx (Z.of_nat (length sizes))); [| lia].
    destruct (Z.ltb_spec total (Z.of_nat (length sizes))); [| reflexivity].
    rewrite lookup_take_lt by lia. reflexivity.
Qed.

Section CountChange.
Variable cfg : Config.
Variable cache : gmap Z Q.
Hypothesis Hcfg : layout_config cfg.

(** The state that [setTotalCount] hands to its two layout calls. *)
Lemma setTotalCount_table_spec (count : Z) (st : State) :
  list_inv cfg st ->
  let st' := setTotalCount_table cfg cache count st in
  quiet cfg st' /\ owned cfg st' /\ window_wf cfg st'
  /\ 0 <= _slotFirstIndex (win st')
  /\ totalCount st' = Z.max 0 (to_int32 count)
  /\ _slots (win st) <= _slots (win st')
  /\ (useDynamicSize cfg = true ->
      Z.of_nat (length (_itemSizes (tbl st'))) = totalCount st'
      /\ _itemSizes (tbl st')
         = resizeSizes cfg cache (Z.max 0 (to_int32 count)) (_itemSizes (tbl st))).
Proof.
  intros [Hq Hown Hwf Hok Hlen] st'. subst st'. unfold setTotalCount_table.
  set (total := Z.max 0 (to_int32 count)).
  match goal with
  | |- context [mkState total ?v ?t ?w ?g ?m] => set (st1 := mkState total v t w g m)
  end.
  assert (Hown1 : owned cfg st1) by (apply (owned_transfer cfg st); auto).
  assert (Hwf1 : window_wf cfg st1) by (apply (window_wf_transfer cfg st); auto).
  assert (Hfirst : forall s : State,
             0 <= _slotFirstIndex
                    (win (set_slotFirstIndex
                            (clampZ (_slotFirstIndex (win s)) 0 (Z.max 0 (total - 1))) s))).
  { intros s. cbn. unfold clampZ. lia. }
  destruct (useDynamicSize cfg) eqn:Hd.
  - set (sizes' := resizeSizes cfg cache total (_itemSizes (tbl st1))).
    set (sb := _buildPrefixSum cfg (withSizes sizes' st1)).
    assert (Hsz : _itemSizes (tbl sb) = sizes') by apply buildPrefixSum_sizes.
    assert (Htc : totalCount sb = total).
    { subst sb. unfold _buildPrefixSum. now destruct (prefix_loop _ _ _). }
    assert (Hwin : win sb = win st1).
    { subst sb. unfold _buildPrefixSum. now destruct (prefix_loop _ _ _). }
    assert (Hlen' : Z.of_nat (length sizes') = total).
    { apply length_resizeSizes. subst total. lia. }
    assert (Hset : settled cfg sb).
    { destruct Hq as [Hq | Hq]; [congruence |].
      destruct (lc_source cfg Hcfg Hd) as [f Hf].
      intros idx Hidx. rewrite Htc in Hidx. rewrite Hsz. subst sizes'.
      rewrite resizeSizes_at by exact Hidx. rewrite Hf.
      change (_itemSizes (tbl st1)) with (_itemSizes (tbl st)).
      destruct (Z.ltb_spec idx (Z.of_nat (length (_itemSizes (tbl st))))) as [Hold | Hnew].
      + destruct (Hq idx) as (s & Hs & Hsf); [rewrite <- (Hlen eq_refl); lia |].
        rewrite Hf in Hsf. eauto.
      + exists (grownSize cfg cache idx). split; [reflexivity |].
        unfold grownSize. rewrite Hf. reflexivity. }
    assert (Hownb : owned cfg sb) by (apply (owned_same cfg st1); auto).
    assert (Hwfb : window_wf cfg sb) by (apply (window_wf_same cfg st1); auto).
    assert (Hgoal : forall s : State,
               tbl s = tbl sb -> totalCount s = total -> owned cfg s -> window_wf cfg s ->
               _slots (win st) <= _slots (win s) ->
               let s' := set_slotFirstIndex
                           (clampZ (_slotFirstIndex (win s)) 0 (Z.max 0 (total - 1))) s in
               quiet cfg s' /\ owned cfg s' /\ window_wf cfg s'
               /\ 0 <= _slotFirstIndex (win s') /\ totalCount s' = total
               /\ _slots (win st) <= _slots (win s')
               /\ (true = true ->
                   Z.of_nat (length (_itemSizes (tbl s'))) = totalCount s'
                   /\ _itemSizes (tbl s') = sizes')).
    { intros s Ht Hc Ho Hw Hs s'. subst s'.
      split; [right; eapply settled_tbl; [| | exact Hset]; [exact Ht | change (totalCount s = totalCount sb); congruence] |].
      split; [apply (owned_transfer cfg s); auto |].
      split; [apply (window_wf_transfer cfg s); auto |].
      split; [apply Hfirst |]. split; [exact Hc |]. split; [exact Hs |].
      intros _. cbn [set_slotFirstIndex tbl with_win totalCount]. rewrite Ht, Hsz, Hc.
      now split. }
    destruct (totalCount st <? total).
    + destruct (expandSlots_spec cfg sb Hd Hownb Hwfb) as (Ho & Hw & Hs & _).
      apply Hgoal; auto.
      * now rewrite (expandSlots_window cfg sb).
      * now rewrite (expandSlots_window cfg sb).
      * rewrite Hwin in Hs. exact Hs.
    + apply Hgoal; auto. rewrite Hwin. reflexivity.
  - set (sr := _recomputeContentSize cfg st1).
    assert (Hwin : win sr = win st1) by (subst sr; unfold _recomputeContentSize; now rewrite Hd).
    assert (Htc : totalCount sr = total)
      by (subst sr; unfold _recomputeContentSize; now rewrite Hd).
    split; [now left |].
    split; [apply (owned_transfer cfg sr); try reflexivity; now apply (owned_same cfg st1) |].
    split; [apply (window_wf_transfer cfg sr); try reflexivity;
            now apply (window_wf_same cfg st1) |].
    split; [apply Hfirst |]. split; [exact Htc |].
    split; [change (_slots (win st) <= _slots (win sr)); rewrite Hwin; apply Z.le_refl |].
    intros [=].
Qed.

Lemma setTotalCount_inv (fuel : nat) (count : Z) (st : State) :
  list_inv cfg st ->
  exists st',
    setTotalCount fuel cfg cache count st = Some st'
    /\ list_inv cfg st'
    /\ totalCount st' = Z.max 0 (to_int32 count)
    /\ _slots (win st) <= _slots (win st')
    /\ (useDynamicSize cfg = true ->
        _itemSizes (tbl st')
        = resizeSizes cfg cache (Z.max 0 (to_int32 count)) (_itemSizes (tbl st))).
Proof.
  intros Hinv. unfold setTotalCount. rewrite (lc_virtual cfg Hcfg). cbn [negb].
  destruct (setTotalCount_table_spec count st Hinv) as (Hq & Hown & Hwf & Hf & Htc & Hs & Hsz).
  set (st1 := setTotalCount_table cfg cache count st) in *.
  assert (Hshape : exists s c, st1 = set_slotFirstIndex c s /\ same_but_win s st1).
  { subst st1. unfold setTotalCount_table. eexists _, _. split; [reflexivity |].
    apply same_but_win_with. }
  destruct Hshape as (s & c & Hst1 & Hw1).
  assert (Hc : c = _slotFirstIndex (win st1)) by (rewrite Hst1; reflexivity).
  assert (Hidem : set_slotFirstIndex (_slotFirstIndex (win st1)) st1 = st1).
  { rewrite Hst1. reflexivity. }
  destruct (relayout_inv (updateItemHeight fuel cfg) cfg Hcfg (_slotFirstIndex (win st1)) st1
              Hq Hown Hwf Hf (fun Hd => proj1 (Hsz Hd)))
    as (st2 & E & Hinv2 & Hw2 & Hs2 & _).
  rewrite Hidem in E. unfold layoutSlots. rewrite E. cbn [mbind option_bind].
  destruct (updateVisible_inv (updateItemHeight fuel cfg) cfg Hcfg true st2 Hinv2)
    as (st3 & E3 & Hinv3 & Hw3 & Hs3).
  exists st3. split; [exact E3 |]. split; [exact Hinv3 |].
  assert (Ht : tbl st3 = tbl st1) by (rewrite Hw3, Hw2; reflexivity).
  assert (Hcount : totalCount st3 = totalCount st1) by (rewrite Hw3, Hw2; reflexivity).
  split; [congruence |]. split; [lia |].
  intros Hd. rewrite Ht. exact (proj2 (Hsz Hd)).
Qed.
End CountChange.

(** ** Every call keeps the window invariant *)

Lemma render_shown (cfg : Config) (n : nat) (idx : Z) (st : State) (s : Z) :
  shown (render cfg n idx st) s = shown st s.
Proof.
  unfold shown, render, slotNode. destruct (renderItemFn cfg) as [r |]; [| reflexivity].
  cbn [win with_win _slotNodes nodes].
  destruct (mjoin (at_ (_slotNodes (win st)) s)) as [m |]; [| reflexivity].
  cbn [mbind option_bind].
  destruct (decide (m = n)) as [-> | Hne].
  - rewrite list_lookup_alter_eq.
    match goal with |- context [_ <$> ?o] => destruct o as [node |] end; [| reflexivity].
    cbn [fmap option_fmap option_map mbind option_bind].
    destruct (r idx (width node, height node)). reflexivity.
  - rewrite list_lookup_alter_ne by congruence. reflexivity.
Qed.

Lemma refreshIndex_inv (cfg : Config) (index : Z) (st : State) :
  list_inv cfg st -> list_inv cfg (refreshIndex cfg index st).
Proof.
  intros Hinv. unfold refreshIndex.
  destruct (negb (useVirtualList cfg)); [exact Hinv |].
  destruct ((index <? _slotFirstIndex (win st))
            || (_slotFirstIndex (win st) + _slots (win st) - 1 <? index)); [exact Hinv |].
  destruct (slotNode (win st) (index - _slotFirstIndex (win st))) as [n |]; [| exact Hinv].
  destruct Hinv as [Hq Hown Hwf Hok Hlen].
  assert (Hw : same_but_win st (render cfg n index st)) by apply render_window.
  assert (Hshape : _slotNodes (win (render cfg n index st)) = _slotNodes (win st)
                   /\ _slotPrefabIndices (win (render cfg n index st))
                      = _slotPrefabIndices (win st)
                   /\ _nodePool (win (render cfg n index st)) = _nodePool (win st)
                   /\ _slots (win (render cfg n index st)) = _slots (win st)
                   /\ _slotFirstIndex (win (render cfg n index st))
                      = _slotFirstIndex (win st)
                   /\ length (nodes (win (render cfg n index st)))
                      = length (nodes (win st))).
  { unfold render. destruct (renderItemFn cfg); [| now repeat split].
    cbn [win with_win _slotNodes _slotPrefabIndices _nodePool _slots _slotFirstIndex nodes].
    rewrite length_alter. now repeat split. }
  destruct Hshape as (S1 & S2 & S3 & S4 & S5 & S6).
  constructor.
  - eapply quiet_same; [| | exact Hq]; rewrite Hw; reflexivity.
  - apply (owned_transfer cfg st); auto. lia.
  - apply (window_wf_transfer cfg st); auto.
  - intros s Hs. rewrite S4 in Hs. rewrite render_shown, S5.
    rewrite (Hok s Hs). unfold expected. rewrite Hw. reflexivity.
  - intros Hd. rewrite Hw. cbn [tbl with_win totalCount]. auto.
Qed.

Section Calls.
Variable fuel : nat.
Variable cfg : Config.
Variable cache : gmap Z Q.
Hypothesis Hcfg : layout_config cfg.

Lemma moved_inv (force : bool) (st0 st1 : State) :
  list_inv cfg st0 -> same_list st0 st1 ->
  exists st', updateVisible fuel cfg force st1 = Some st' /\ list_inv cfg st'.
Proof.
  intros Hinv Hs.
  destruct (updateVisible_inv (updateItemHeight fuel cfg) cfg Hcfg force st1
              (list_inv_same_list cfg st0 st1 Hs Hinv)) as (st' & E & Hinv' & _).
  eauto.
Qed.

Lemma step_inv (ev : Event) (st : State) :
  (forall i x, ev = UpdateItemHeight i (Some x) -> False) ->
  list_inv cfg st ->
  exists st', step (S fuel) cfg ev st = Some st' /\ list_inv cfg st'.
Proof.
  intros Hev Hinv. destruct ev; cbn [step].
  - eexists. split; [reflexivity |].
    eapply list_inv_same_list; [apply onDown_same_list | exact Hinv].
  - unfold _onMove. destruct (negb (_isTouching (mot st))); [eauto |].
    rewrite (lc_virtual cfg Hcfg).
    destruct (updateVisible_inv (updateItemHeight (S fuel) cfg) cfg Hcfg false
                (onMove_gesture cfg e st)
                (list_inv_same_list cfg _ _ (onMove_gesture_same_list cfg e st) Hinv))
      as (st' & E & Hinv' & _).
    eauto.
  - eexists. split; [reflexivity |].
    eapply list_inv_same_list; [apply onUp_same_list | exact Hinv].
  - unfold update. destruct (_isTouching (mot st) || _scrollTween (mot st)); [eauto |].
    pose proof (update_motion_same_list cfg dt st) as Hs.
    destruct (update_motion cfg dt st) as [st1 moved]. cbn [fst] in Hs.
    pose proof (list_inv_same_list cfg st st1 Hs Hinv) as Hinv1.
    destruct (moved && useVirtualList cfg); [| eauto].
    destruct (updateVisible_inv (updateItemHeight (S fuel) cfg) cfg Hcfg false st1 Hinv1)
      as (st' & E & Hinv' & _).
    eauto.
  - eexists. split; [reflexivity |].
    eapply list_inv_same_list; [apply finishRefresh_same_list | exact Hinv].
  - eexists. split; [reflexivity |].
    eapply list_inv_same_list; [apply finishLoadMore_same_list | exact Hinv].
  - eexists. split; [reflexivity |].
    eapply list_inv_same_list; [apply resetLoadMoreState_same_list | exact Hinv].
  - eexists. split; [reflexivity |].
    eapply list_inv_same_list; [apply fireTimer_same_list | exact Hinv].
  - destruct newSize as [x |]; [exfalso; eapply Hev; reflexivity |].
    exists st. split; [| exact Hinv].
    cbn [updateItemHeight].
    destruct (useDynamicSize cfg) eqn:Hd; [| reflexivity]. cbn [negb].
    destruct ((index <? 0) || (totalCount st <=? index)) eqn:Hrange; [reflexivity |].
    apply orb_false_iff in Hrange as [H1 H2].
    apply Z.ltb_ge in H1. apply Z.leb_gt in H2.
    destruct (lc_source cfg Hcfg Hd) as [f Hf]. rewrite Hf.
    destruct (inv_quiet cfg st Hinv) as [Hq | Hq]; [congruence |].
    destruct (Hq index ltac:(lia)) as (s & Hs & Hsf). rewrite Hf in Hsf.
    rewrite Hs, (Qeq_bool_eq _ _ Hsf). reflexivity.
Qed.

Lemma scrollToPosition_inv (pos : Q) (animate : bool) (st : State) :
  list_inv cfg st ->
  exists r, _scrollToPosition (S fuel) cfg pos animate st = Some r /\ list_inv cfg r.1.
Proof.
  intros Hinv. unfold _scrollToPosition. destruct animate; cbn [negb].
  - eexists. split; [reflexivity |]. cbn [fst].
    eapply list_inv_same_list; [| exact Hinv]. now repeat split.
  - match goal with
    | |- context [updateVisible ?f ?c true ?s] =>
        destruct (updateVisible_inv (updateItemHeight f c) c Hcfg true s) as (st' & E & Hi & _)
    end.
    { eapply list_inv_same_list; [| exact Hinv]. now repeat split. }
    unfold updateVisible. rewrite E. cbn [mbind option_bind]. eauto.
Qed.

Lemma flashToPosition_inv (pos : Q) (st : State) :
  list_inv cfg st ->
  exists st', _flashToPosition (S fuel) cfg pos st = Some st' /\ list_inv cfg st'.
Proof.
  intros Hinv. unfold _flashToPosition.
  match goal with
  | |- context [updateVisible ?f ?c true ?s] =>
      destruct (updateVisible_inv (updateItemHeight f c) c Hcfg true s) as (st' & E & Hi & _)
  end.
  { eapply list_inv_same_list; [| exact Hinv]. now repeat split. }
  eauto.
Qed.

Lemma call_inv (c : Call) (st : State) :
  resizes c = false -> list_inv cfg st ->
  exists st', call (S fuel) cfg cache c st = Some st' /\ list_inv cfg st'.
Proof.
  intros Hc Hinv. destruct c; cbn [call].
  - apply step_inv; [| exact Hinv]. intros i x ->. discriminate.
  - discriminate.
  - destruct (setTotalCount_inv cfg cache Hcfg (S fuel) count st Hinv) as (st' & E & Hi & _).
    eauto.
  - unfold refreshList. rewrite (lc_virtual cfg Hcfg). cbn [negb].
    destruct data;
      match goal with
      | |- context [setTotalCount _ _ _ ?n _] =>
          destruct (setTotalCount_inv cfg cache Hcfg (S fuel) n st Hinv) as (st' & E & Hi & _)
      end; eauto.
  - unfold scrollToTop.
    match goal with
    | |- context [_scrollToPosition _ _ ?p ?a _] =>
        destruct (scrollToPosition_inv p a st Hinv) as (r & E & Hi)
    end.
    rewrite E. cbn. eauto.
  - unfold scrollToBottom.
    match goal with
    | |- context [_scrollToPosition _ _ ?p ?a _] =>
        destruct (scrollToPosition_inv p a st Hinv) as (r & E & Hi)
    end.
    rewrite E. cbn. eauto.
  - unfold scrollToIndex.
    match goal with
    | |- context [_scrollToPosition _ _ ?p ?a _] =>
        destruct (scrollToPosition_inv p a st Hinv) as (r & E & Hi)
    end.
    rewrite E. cbn. eauto.
  - destruct (_scrollTween (mot st)); [| eauto]. unfold tween_onUpdate.
    match goal with
    | |- context [updateVisible ?f ?c ?b ?s] =>
        destruct (updateVisible_inv (updateItemHeight f c) c Hcfg b s) as (st' & E & Hi & _)
    end.
    { eapply list_inv_same_list; [| exact Hinv]. now repeat split. }
    eauto.
  - destruct (_scrollTween (mot st)); [| eauto]. unfold tween_finished.
    match goal with
    | |- context [updateVisible ?f ?c ?b ?s] =>
        destruct (updateVisible_inv (updateItemHeight f c) c Hcfg b s) as (st' & E & Hi & _)
    end.
    { eapply list_inv_same_list; [| exact Hinv]. now repeat split. }
    unfold updateVisible. rewrite E. cbn [mbind option_bind].
    eexists. split; [reflexivity |].
    eapply list_inv_same_list; [| exact Hi]. now repeat split.
  - apply flashToPosition_inv, Hinv.
  - apply flashToPosition_inv, Hinv.
  - unfold flashToIndex. rewrite (lc_virtual cfg Hcfg). cbn [negb].
    apply flashToPosition_inv, Hinv.
  - eexists. split; [reflexivity |]. apply refreshIndex_inv, Hinv.
Qed.

Lemma calls_inv (cs : list Call) (st : State) :
  Forall (fun c => resizes c = false) cs -> list_inv cfg st ->
  exists st', calls (S fuel) cfg cache cs st = Some st' /\ list_inv cfg st'.
Proof.
  intros Hcs. revert st. unfold calls.
  induction Hcs as [| c cs Hc _ IH]; intros st Hinv; cbn [for_each]; [eauto |].
  destruct (call_inv c st Hc Hinv) as (st1 & E & Hinv1).
  rewrite E. cbn [mbind option_bind]. apply IH, Hinv1.
Qed.
End Calls.

(** ** Initialisation establishes the invariants *)

Lemma initDynamicSizeMode_table_ok (fuel : nat) (cfg : Config) (count : Z) (viewport : Q)
    (st : State) :
  0 <= count ->
  _initDynamicSizeMode fuel cfg (newState count viewport) = Some st -> table_ok cfg st.
Proof.
  intros Hc. unfold _initDynamicSizeMode, _initDynamicSlots. intros H.
  eapply layoutSlots_keeps_table; [exact H |].
  match goal with
  | |- table_ok cfg (with_win (with_win ?s _) _) => apply (table_ok_window cfg s)
  end; [reflexivity |].
  apply table_ok_build. cbn [with_tbl tbl _itemSizes totalCount newState].
  unfold initialSizes. rewrite length_fmap, length_seqZ. lia.
Qed.

Lemma initDynamicSizeMode_inv (fuel : nat) (cfg : Config) (count : Z) (viewport : Q) :
  layout_config cfg -> useDynamicSize cfg = true ->
  0 <= count -> (0 <= viewport)%Q -> 0 <= buffer cfg ->
  exists st,
    _initDynamicSizeMode fuel cfg (newState count viewport) = Some st
    /\ list_inv cfg st /\ table_ok cfg st
    /\ totalCount st = count /\ _slotFirstIndex (win st) = 0.
Proof.
  intros Hcfg Hd Hcount Hvp Hbuf.
  destruct (lc_source cfg Hcfg Hd) as [f Hf].
  destruct (initDynamicSizeMode_spec fuel cfg count viewport f (lc_virtual cfg Hcfg) Hd Hf
              Hcount Hvp Hbuf) as (st & E & Htc & Hset & Hown & Hwf & Hok & Hfirst).
  { intros idx Hidx. apply (lc_types cfg Hcfg Hd). lia. }
  pose proof (initDynamicSizeMode_table_ok fuel cfg count viewport st Hcount E) as Htbl.
  exists st. split; [exact E |].
  split; [| split; [exact Htbl | split; [exact Htc | exact Hfirst]]].
  constructor;
    [right; exact Hset | exact Hown | exact Hwf | exact Hok | intros _; exact (proj1 Htbl)].
Qed.



(** ** The window: extras *)

Lemma tenItems_layout_config : layout_config tenItems_config.
Proof.
  constructor; [reflexivity | intros _; cbn; eauto |].
  intros _ idx _. cbn. eauto.
Qed.


(** [_initDynamicSizeMode] on a fresh component, for a configuration with
    [getItemHeightFn] and recognised item types: it returns whatever the
    recursion budget; afterwards the window begins at item 0, slot [s] shows
    item [s] when [s < totalCount] and nothing otherwise, every node is
    owned once, and the size table is the one of a full rebuild. *)
Theorem initDynamicSizeMode_lays_out (fuel : nat) (cfg : Config) (count : Z)
    (viewport : Q) :
  layout_config cfg -> useDynamicSize cfg = true ->
  0 <= count -> (0 <= viewport)%Q -> 0 <= buffer cfg ->
  exists st,
    _initDynamicSizeMode fuel cfg (newState count viewport) = Some st
    /\ totalCount st = count /\ _slotFirstIndex (win st) = 0
    /\ (forall s, 0 <= s < _slots (win st) ->
          shown st s = if s <? count then Some s else None)
    /\ list_inv cfg st /\ table_ok cfg st.
Proof.
  intros Hcfg Hd Hcount Hvp Hbuf.
  destruct (initDynamicSizeMode_inv fuel cfg count viewport Hcfg Hd Hcount Hvp Hbuf)
    as (st & E & Hinv & Htbl & Htc & Hfirst).
  exists st. split; [exact E |]. split; [exact Htc |]. split; [exact Hfirst |].
  split; [| now split].
  intros s Hs. rewrite (inv_shown cfg st Hinv s Hs). unfold expected.
  now rewrite Hfirst, Htc.
Qed.

Lemma initDynamicSizeMode_lays_out_witness :
  exists st,
    _initDynamicSizeMode 0 tenItems_config (newState 10 100) = Some st
    /\ totalCount st = 10 /\ _slotFirstIndex (win st) = 0.
Proof.
  destruct (initDynamicSizeMode_lays_out 0 tenItems_config 10 100 tenItems_layout_config
              eq_refl ltac:(lia) ltac:(unfold Qle; cbn; lia) ltac:(cbn; lia))
    as (st & E & Htc & Hfirst & _).
  exists st. split; [exact E |]. split; [exact Htc | exact Hfirst].
Defined.



(** For a configuration with [getItemHeightFn] and recognised item types,
    from a state that is laid out: every sequence of events and public
    calls in which no caller-chosen size is written returns, with any
    positive recursion budget, and leaves the list laid out: slot [s]
    shows item [_slotFirstIndex + s] when that index is below [totalCount]
    and nothing otherwise, and the slots hold pairwise distinct nodes, at
    most [_slots] of them. *)
Theorem calls_keep_window (fuel : nat) (cfg : Config) (cache : gmap Z Q) (cs : list Call)
    (st : State) :
  layout_config cfg -> list_inv cfg st ->
  Forall (fun c => resizes c = false) cs ->
  exists st',
    calls (S fuel) cfg cache cs st = Some st'
    /\ (forall s, 0 <= s < _slots (win st') ->
          shown st' s = expected st' (_slotFirstIndex (win st')) s)
    /\ NoDup (omap id (_slotNodes (win st')))
    /\ Z.of_nat (length (omap id (_slotNodes (win st')))) <= _slots (win st')
    /\ list_inv cfg st'.
Proof.
  intros Hcfg Hinv Hcs.
  destruct (calls_inv fuel cfg cache Hcfg cs st Hcs Hinv) as (st' & E & Hinv').
  exists st'. split; [exact E |]. split; [exact (inv_shown cfg st' Hinv') |].
  destruct (owned_bound cfg st' (inv_owned cfg st' Hinv') (inv_wf cfg st' Hinv')) as [H1 H2].
  auto.
Qed.

Lemma calls_keep_window_witness :
  exists st',
    calls 1 tenItems_config ∅
      [SetTotalCount 20; FlashToIndex 7; Handle Down; Handle (Move (mkMove 0 120 1000));
       Handle Up; Handle (Tick (1 # 60)); RefreshIndex 3; ScrollToBottom true;
       TweenUpdate 300; SetTotalCount 4]
      (started tenItems_config 10 100) = Some st'
    /\ window_ok st'.
Proof.
  destruct (initDynamicSizeMode_inv 1 tenItems_config 10 100 tenItems_layout_config
              eq_refl ltac:(lia) ltac:(unfold Qle; cbn; lia) ltac:(cbn; lia))
    as (st0 & E0 & Hinv0 & _).
  assert (Hst : started tenItems_config 10 100 = st0).
  { unfold started. rewrite E0. reflexivity. }
  destruct (calls_keep_window 0 tenItems_config ∅
              [SetTotalCount 20; FlashToIndex 7; Handle Down;
               Handle (Move (mkMove 0 120 1000)); Handle Up; Handle (Tick (1 # 60));
               RefreshIndex 3; ScrollToBottom true; TweenUpdate 300; SetTotalCount 4]
              st0 tenItems_layout_config Hinv0)
    as (st' & E & Hok & _).
  { repeat constructor. }
  exists st'. rewrite Hst. split; [exact E | exact Hok].
Defined.

(** [setTotalCount(count)] on a list that is laid out: it returns; the
    count becomes [max(0, count | 0)]; in dynamic-size mode the size table
    keeps the sizes of the items that remain and gains the size of every
    new item from the size source; the number of slots does not shrink; and
    the list is laid out again, so that no slot shows an item that is no
    longer there. *)
Theorem setTotalCount_relays_out (fuel : nat) (cfg : Config) (cache : gmap Z Q)
    (count : Z) (st : State) :
  layout_config cfg -> list_inv cfg st ->
  exists st',
    setTotalCount fuel cfg cache count st = Some st'
    /\ totalCount st' = Z.max 0 (to_int32 count)
    /\ _slots (win st) <= _slots (win st')
    /\ (useDynamicSize cfg = true ->
        _itemSizes (tbl st')
        = resizeSizes cfg cache (Z.max 0 (to_int32 count)) (_itemSizes (tbl st)))
    /\ (forall s idx, 0 <= s < _slots (win st') -> shown st' s = Some idx ->
          idx = _slotFirstIndex (win st') + s /\ idx < totalCount st')
    /\ list_inv cfg st'.
Proof.
  intros Hcfg Hinv.
  destruct (setTotalCount_inv cfg cache Hcfg fuel count st Hinv)
    as (st' & E & Hinv' & Htc & Hs & Hsz).
  exists st'. split; [exact E |]. split; [exact Htc |]. split; [exact Hs |].
  split; [exact Hsz |]. split; [| exact Hinv'].
  intros s idx Hs' Hshown. rewrite (inv_shown cfg st' Hinv' s Hs') in Hshown.
  unfold expected in Hshown.
  destruct (Z.ltb_spec (_slotFirstIndex (win st') + s) (totalCount st')); [| discriminate].
  injection Hshown as <-. split; [reflexivity | assumption].
Qed.

Lemma setTotalCount_relays_out_witness :
  exists st',
    setTotalCount 0 tenItems_config ∅ 3 (started tenItems_config 10 100) = Some st'
    /\ totalCount st' = 3.
Proof.
  destruct (initDynamicSizeMode_inv 1 tenItems_config 10 100 tenItems_layout_config
              eq_refl ltac:(lia) ltac:(unfold Qle; cbn; lia) ltac:(cbn; lia))
    as (st0 & E0 & Hinv0 & _).
  assert (Hst : started tenItems_config 10 100 = st0).
  { unfold started. rewrite E0. reflexivity. }
  destruct (setTotalCount_relays_out 0 tenItems_config ∅ 3 st0 tenItems_layout_config Hinv0)
    as (st' & E & Htc & _).
  exists st'. rewrite Hst. split; [exact E | exact Htc].
Defined.

(** [refreshIndex(index)]: for an index outside the window of slots it
    changes nothing; for an index inside it, on a list that is laid out, it
    invokes [renderItemFn] once, on the node that shows that index, and it
    rebinds no slot. *)
Theorem refreshIndex_renders_bound_node (cfg : Config) (index : Z) (st : State) :
  useVirtualList cfg = true -> window_ok st ->
  let first := _slotFirstIndex (win st) in
  (index < first \/ first + _slots (win st) <= index -> refreshIndex cfg index st = st)
  /\ (first <= index < first + _slots (win st) -> index < totalCount st ->
      exists n node,
        slotNode (win st) (index - first) = Some n
        /\ nodes (win st) !! n = Some node
        /\ active node = true /\ dataIndex node = index
        /\ refreshIndex cfg index st = render cfg n index st
        /\ forall s, shown (refreshIndex cfg index st) s = shown st s).
Proof.
  intros Hv Hok first. unfold refreshIndex. rewrite Hv. cbn [negb]. fold first. split.
  - intros Hout.
    destruct (Z.ltb_spec index first); [reflexivity |].
    destruct (Z.ltb_spec (first + _slots (win st) - 1) index); [reflexivity | lia].
  - intros Hin Htc.
    destruct (Z.ltb_spec index first); [lia |].
    destruct (Z.ltb_spec (first + _slots (win st) - 1) index); [lia |]. cbn [orb].
    pose proof (Hok (index - first) ltac:(lia)) as Hs. fold first in Hs.
    unfold expected in Hs. replace (first + (index - first)) with index in Hs by lia.
    destruct (Z.ltb_spec index (totalCount st)); [| lia].
    unfold shown in Hs.
    destruct (slotNode (win st) (index - first)) as [n |]; [| discriminate].
    cbn [mbind option_bind] in Hs.
    destruct (nodes (win st) !! n) as [node |] eqn:En; [| discriminate].
    cbn [mbind option_bind] in Hs.
    destruct (active node) eqn:Ea; [| discriminate]. injection Hs as Hidx.
    exists n, node. repeat split; try assumption; try reflexivity.
    intros s. apply render_shown.
Qed.

Lemma refreshIndex_renders_bound_node_witness :
  exists n node,
    slotNode (win (started tenItems_config 10 100)) 2 = Some n
    /\ nodes (win (started tenItems_config 10 100)) !! n = Some node
    /\ dataIndex node = 2.
Proof.
  destruct (initDynamicSizeMode_inv 1 tenItems_config 10 100 tenItems_layout_config
              eq_refl ltac:(lia) ltac:(unfold Qle; cbn; lia) ltac:(cbn; lia))
    as (st0 & E0 & Hinv0 & _ & Htc & Hfirst).
  assert (Hst : started tenItems_config 10 100 = st0).
  { unfold started. rewrite E0. reflexivity. }
  assert (Hslots : _slots (win st0) = 6).
  { rewrite <- Hst. vm_compute. reflexivity. }
  destruct (refreshIndex_renders_bound_node tenItems_config 2 st0 eq_refl
              (inv_shown _ _ Hinv0)) as [_ H].
  destruct H as (n & node & Hn & Hnode & _ & Hidx & _).
  - rewrite Hfirst, Hslots. lia.
  - rewrite Htc. lia.
  - rewrite Hfirst in Hn. exists n, node. rewrite Hst. auto.
Defined.

(** ** The frame tick *)

Lemma update_motion_spec (cfg : Config) (dt : Q) (st : State) :
  update_motion cfg dt st
  = let pos := contentPos (mot st) in
    let v := _velocity (mot st) in
    let '(a, v1) :=
      match springTarget cfg st with
      | Some tg => ((- springK cfg * (pos - tg) - springC cfg * v)%Q, v)
      | None => (0%Q, (v * decay cfg dt v)%Q)
      end in
    let v2 := (v1 + a * dt)%Q in
    let v3 := if Qltb (Qabs v2) (velocitySnap cfg) && Qeq_bool a 0 then 0%Q else v2 in
    if negb (Qeq_bool v3 0)
    then (_setContentMainPos cfg (align cfg (pos + v3 * dt)) (set_velocity v3 st), true)
    else (set_velocity v3 st, false).
Proof.
  unfold update_motion, springTarget, decay.
  repeat match goal with
         | |- context [if ?c then _ else _] => destruct c
         end; reflexivity.
Qed.

Lemma update_untouched (fuel : nat) (cfg : Config) (dt : Q) (st : State) :
  _isTouching (mot st) = false -> _scrollTween (mot st) = false ->
  snd (update_motion cfg dt st) = false ->
  update fuel cfg dt st = Some (fst (update_motion cfg dt st)).
Proof.
  intros Ht Hw Hm. unfold update. rewrite Ht, Hw. cbn [orb].
  destruct (update_motion cfg dt st) as [st1 moved]. cbn [fst snd] in *. now subst.
Qed.

(** A list that is at rest inside its bounds, with no refresh or load
    held, stays where it is: a tick moves nothing, runs no relayout and
    leaves the velocity at zero. *)
Theorem update_at_rest (fuel : nat) (cfg : Config) (dt : Q) (st : State) :
  (_velocity (mot st) == 0)%Q -> springTarget cfg st = None ->
  exists st',
    update fuel cfg dt st = Some st'
    /\ contentPos (mot st') = contentPos (mot st)
    /\ (_velocity (mot st') == 0)%Q
    /\ ges st' = ges st /\ win st' = win st /\ tbl st' = tbl st.
Proof.
  intros Hv Hfree. unfold update.
  destruct (_isTouching (mot st) || _scrollTween (mot st)).
  { exists st. repeat split; auto. }
  rewrite update_motion_spec. rewrite Hfree. cbv zeta.
  set (v2 := (_velocity (mot st) * decay cfg dt (_velocity (mot st)) + 0 * dt)%Q).
  assert (Hv2 : (v2 == 0)%Q).
  { subst v2. generalize (decay cfg dt (_velocity (mot st))). intros e. rewrite Hv. lra. }
  set (v3 := if Qltb (Qabs v2) (velocitySnap cfg) && Qeq_bool 0 0 then 0%Q else v2).
  assert (Hv3 : (v3 == 0)%Q) by (subst v3; destruct (_ && _); [reflexivity | exact Hv2]).
  rewrite (Qeq_bool_eq _ _ Hv3). cbn [negb andb].
  exists (set_velocity v3 st). repeat split; auto.
Qed.

Lemma update_at_rest_witness :
  exists st',
    update 0 scenarioC_config (1 # 60) (coasting 0) = Some st'
    /\ contentPos (mot st') = 30%Q.
Proof.
  destruct (update_at_rest 0 scenarioC_config (1 # 60) (coasting 0)
              ltac:(reflexivity) eq_refl) as (st' & E & Hp & _).
  exists st'. split; [exact E | exact Hp].
Defined.





(** ** Invariants of the pull gestures *)




Section GestureInvariant.
Variable cfg : Config.
Hypothesis Hmax_refresh : (0 <= pullRefreshMaxOffset cfg)%Q.
Hypothesis Hmax_load : (0 <= loadMoreMaxOffset cfg)%Q.


End GestureInvariant.

Ltac gesture_solve :=
  constructor;
  cbn [ges mot with_ges with_mot _refreshState _loadMoreState _pullOffset _loadOffset
       _isRefreshing _isLoadingMore _hasMore set_isTouching set_velSamples set_velocity
       set_pullOffset set_loadOffset schedule] in *;
  intuition (first [congruence | lra | discriminate]).

Section GestureSteps.
Variable cfg : Config.
Hypothesis Hmax_refresh : (0 <= pullRefreshMaxOffset cfg)%Q.
Hypothesis Hmax_load : (0 <= loadMoreMaxOffset cfg)%Q.










End GestureSteps.

(** ** The pull gestures under every call *)









Section GestureCalls.
Variable cfg : Config.
Hypothesis Hmax_refresh : (0 <= pullRefreshMaxOffset cfg)%Q.
Hypothesis Hmax_load : (0 <= loadMoreMaxOffset cfg)%Q.



End GestureCalls.



(** ** Clicks on an item *)










Lemma item_handle_budget (ev : VScrollViewItem.Touch) (it : VScrollViewItem.t) :
  let it' := VScrollViewItem.handle it ev in
  let budget (x : VScrollViewItem.t) := if VScrollViewItem._touchStartNode x then 1%nat else 0%nat in
  VScrollViewItem.dataIndex it' = VScrollViewItem.dataIndex it
  /\ exists j : nat,
       VScrollViewItem.clicks it'
       = VScrollViewItem.clicks it ++ replicate j (VScrollViewItem.dataIndex it)
       /\ (j + budget it' <= touchStarts [ev] + budget it)%nat.
Proof.
  destruct it as [d e cb ts c sp sc ch cl].
  destruct ev as [loc | loc | loc |]; cbn [VScrollViewItem.handle touchStarts].
  - unfold VScrollViewItem._onTouchStart. cbn.
    destruct (e && _); cbn; (split; [reflexivity |]); exists 0%nat; cbn;
      rewrite app_nil_r; (split; [reflexivity |]); destruct ts; lia.
  - unfold VScrollViewItem._onTouchMove, VScrollViewItem._restoreScale. cbn.
    destruct c; cbn; [| destruct (Qltb _ _); cbn; [destruct (e && _); cbn |]];
      (split; [reflexivity |]); exists 0%nat; cbn; rewrite app_nil_r;
      (split; [reflexivity |]); destruct ts; lia.
  - unfold VScrollViewItem._onTouchEnd, VScrollViewItem._restoreScale. cbn.
    destruct c; cbn.
    + split; [reflexivity |]. exists 0%nat. cbn. rewrite app_nil_r.
      split; [reflexivity |]. destruct ts; lia.
    + destruct (e && _); cbn; destruct (Qltb _ _); cbn; destruct ts; cbn; destruct cb; cbn;
        (split; [reflexivity |]);
        first [ exists 1%nat; cbn; split; [reflexivity | lia]
              | exists 0%nat; cbn; rewrite app_nil_r; split; [reflexivity | lia] ].
  - unfold VScrollViewItem._onTouchCancel, VScrollViewItem._restoreScale. cbn.
    destruct (e && _); cbn; (split; [reflexivity |]); exists 0%nat; cbn;
      rewrite app_nil_r; (split; [reflexivity |]); destruct ts; lia.
Qed.

Lemma touchStarts_cons (ev : VScrollViewItem.Touch) (evs : list VScrollViewItem.Touch) :
  touchStarts (ev :: evs) = (touchStarts [ev] + touchStarts evs)%nat.
Proof. destruct ev; reflexivity. Qed.

(** No click without a touch: over any sequence of touch events, the
    clicks that an item reports all carry its [dataIndex], and there are at
    most as many of them as [TOUCH_START] events, plus one when a touch was
    already under way. *)
Theorem item_clicks_need_touch_start (evs : list VScrollViewItem.Touch)
    (it : VScrollViewItem.t) :
  exists k : nat,
    VScrollViewItem.clicks (VScrollViewItem.handles evs it)
    = VScrollViewItem.clicks it ++ replicate k (VScrollViewItem.dataIndex it)
    /\ (k <= touchStarts evs
             + (if VScrollViewItem._touchStartNode it then 1 else 0))%nat.
Proof.
  unfold VScrollViewItem.handles. revert it.
  induction evs as [| ev rest IH]; intros it.
  - exists 0%nat. cbn. rewrite app_nil_r. split; [reflexivity | lia].
  - cbn [foldl]. destruct (item_handle_budget ev it) as (Hd & j & Hj & Hb).
    cbv zeta in Hb.
    destruct (IH (VScrollViewItem.handle it ev)) as (k & Hk & Hle).
    exists (j + k)%nat. split.
    + rewrite Hk, Hj, Hd, <- app_assoc, <- replicate_add. reflexivity.
    + rewrite (touchStarts_cons ev rest). lia.
Qed.

Lemma item_scale_inv (evs : list VScrollViewItem.Touch) (it : VScrollViewItem.t) :
  let on (x : VScrollViewItem.t) :=
    VScrollViewItem.useItemClickEffect x
    && bool_decide (0 < VScrollViewItem.node_children x)%nat in
  (on it = true -> VScrollViewItem._isCanceled it = true ->
   VScrollViewItem.node_scale it = (1%Q, 1%Q)) ->
  let it' := foldl VScrollViewItem.handle it evs in
  on it' = on it
  /\ (on it = true -> VScrollViewItem._isCanceled it' = true ->
      VScrollViewItem.node_scale it' = (1%Q, 1%Q))
  /\ (on it = false -> VScrollViewItem.node_scale it' = VScrollViewItem.node_scale it).
Proof.
  cbv zeta. revert it. induction evs as [| ev rest IH]; intros it Hinv; cbn [foldl].
  - auto.
  - assert (Hstep :
      VScrollViewItem.useItemClickEffect (VScrollViewItem.handle it ev)
      = VScrollViewItem.useItemClickEffect it
      /\ VScrollViewItem.node_children (VScrollViewItem.handle it ev)
         = VScrollViewItem.node_children it
      /\ (VScrollViewItem.useItemClickEffect it
          && bool_decide (0 < VScrollViewItem.node_children it)%nat = true ->
          VScrollViewItem._isCanceled (VScrollViewItem.handle it ev) = true ->
          VScrollViewItem.node_scale (VScrollViewItem.handle it ev) = (1%Q, 1%Q))
      /\ (VScrollViewItem.useItemClickEffect it
          && bool_decide (0 < VScrollViewItem.node_children it)%nat = false ->
          VScrollViewItem.node_scale (VScrollViewItem.handle it ev)
          = VScrollViewItem.node_scale it)).
    { destruct it as [d e cb ts c sp sc ch cl]. cbn in Hinv |- *.
      destruct ev as [loc | loc | loc |]; cbn [VScrollViewItem.handle];
        unfold VScrollViewItem._onTouchStart, VScrollViewItem._onTouchMove,
          VScrollViewItem._onTouchEnd, VScrollViewItem._onTouchCancel,
          VScrollViewItem._restoreScale; cbn;
        destruct (e && bool_decide (0 < ch)%nat) eqn:Hon; cbn;
        repeat match goal with
               | |- context [if ?b then _ else _] => destruct b eqn:?; cbn
               end;
        rewrite ?Hon; cbn; repeat split; intros; try congruence; auto. }
    destruct Hstep as (S1 & S2 & S3 & S4).
    destruct (IH (VScrollViewItem.handle it ev)) as (I1 & I2 & I3).
    + rewrite S1, S2. exact S3.
    + rewrite S1, S2 in I1, I2, I3. split; [exact I1 |]. split; [exact I2 |].
      intros Hoff. rewrite (I3 Hoff). apply S4, Hoff.
Qed.

Lemma item_scale_last (evs : list VScrollViewItem.Touch)
    (last : VScrollViewItem.Touch) (it : VScrollViewItem.t) :
  VScrollViewItem._isCanceled it = false ->
  (forall loc, last <> VScrollViewItem.TouchStart loc) ->
  (forall loc, last <> VScrollViewItem.TouchMove loc) ->
  VScrollViewItem.node_scale (VScrollViewItem.handles (evs ++ [last]) it)
  = if VScrollViewItem.useItemClickEffect it
       && bool_decide (0 < VScrollViewItem.node_children it)%nat
    then (1%Q, 1%Q) else VScrollViewItem.node_scale it.
Proof.
  intros Hc Hns Hnm. unfold VScrollViewItem.handles. rewrite foldl_app. cbn [foldl].
  destruct (item_scale_inv evs it) as (I1 & I2 & I3).
  { intros _ H. congruence. }
  cbv zeta in I1. set (it1 := foldl VScrollViewItem.handle it evs) in *.
  destruct (VScrollViewItem.useItemClickEffect it
            && bool_decide (0 < VScrollViewItem.node_children it)%nat) eqn:Hon.
  - specialize (I2 eq_refl). clear I3.
    destruct last as [loc | loc | loc |]; [destruct (Hns loc eq_refl)
                                          | destruct (Hnm loc eq_refl) | |];
      cbn [VScrollViewItem.handle];
      unfold VScrollViewItem._onTouchEnd, VScrollViewItem._onTouchCancel,
        VScrollViewItem._restoreScale; rewrite ?I1.
    + destruct (VScrollViewItem._isCanceled it1) eqn:Hc1; cbn.
      * apply I2. reflexivity.
      * match goal with
        | |- context [if ?b then _ else _] => destruct b
        end; reflexivity.
    + reflexivity.
  - specialize (I3 eq_refl). clear I2.
    destruct last as [loc | loc | loc |]; [destruct (Hns loc eq_refl)
                                          | destruct (Hnm loc eq_refl) | |];
      cbn [VScrollViewItem.handle];
      unfold VScrollViewItem._onTouchEnd, VScrollViewItem._onTouchCancel,
        VScrollViewItem._restoreScale; rewrite ?I1.
    + destruct (VScrollViewItem._isCanceled it1) eqn:Hc1; cbn.
      * exact I3.
      * match goal with
        | |- context [if ?b then _ else _] => destruct b
        end; exact I3.
    + exact I3.
Qed.

(** The press feedback never sticks: from an item that is not in a
    canceled touch, after any sequence of touch events followed by
    [TOUCH_END] or by [TOUCH_CANCEL] the node has scale 1 again when the
    click effect applies (it is enabled and the node has children), and
    otherwise its scale was never written. *)
Theorem item_scale_restored (evs : list VScrollViewItem.Touch) (q : Q * Q)
    (it : VScrollViewItem.t) :
  VScrollViewItem._isCanceled it = false ->
  let rest :=
    if VScrollViewItem.useItemClickEffect it
       && bool_decide (0 < VScrollViewItem.node_children it)%nat
    then (1%Q, 1%Q) else VScrollViewItem.node_scale it in
  VScrollViewItem.node_scale
    (VScrollViewItem.handles (evs ++ [VScrollViewItem.TouchEnd q]) it) = rest
  /\ VScrollViewItem.node_scale
       (VScrollViewItem.handles (evs ++ [VScrollViewItem.TouchCancel]) it) = rest.
Proof.
  intros Hc. split; apply item_scale_last; try exact Hc; discriminate.
Qed.

Lemma item_scale_restored_witness :
  VScrollViewItem.node_scale
    (VScrollViewItem.handles
       ([VScrollViewItem.TouchStart (100, 200); VScrollViewItem.TouchMove (100, 241);
         VScrollViewItem.TouchStart (5, 5)]%Q ++ [VScrollViewItem.TouchCancel])
       (VScrollViewItem.new 2))
  = (1%Q, 1%Q).
Proof.
  apply (item_scale_restored
           [VScrollViewItem.TouchStart (100, 200); VScrollViewItem.TouchMove (100, 241);
            VScrollViewItem.TouchStart (5, 5)]%Q
           (0, 0)%Q (VScrollViewItem.new 2)).
  reflexivity.
Defined.



(** ** The node pool *)

(** Recycling round trip: a node put back under a type that the pool knows
    is the node that the next [get] of that type hands out; it comes back
    active and detached from the content, every other node is as before,
    and the pool is again what it was before the [put]. *)
Theorem pool_put_get_round_trip (cfg : Config) (p : InternalNodePool) (ns : list Node)
    (n : NodeId) (t : Z) :
  is_Some (pools p !! t) ->
  let '(p1, ns1) := InternalNodePool_put (Some n) t p ns in
  let '(got, p2, ns2) := InternalNodePool_get cfg t p1 ns1 in
  got = Some n /\ p2 = p /\ length ns2 = length ns
  /\ ns2 !! n = (fun x => node_set_active true (node_set_parent false x)) <$> ns !! n
  /\ forall m, m <> n -> ns2 !! m = ns !! m.
Proof.
  intros [l Hl]. unfold InternalNodePool_put. rewrite Hl.
  unfold InternalNodePool_get. cbn [pools]. rewrite lookup_insert_eq.
  split; [reflexivity |]. split.
  { rewrite insert_insert_eq, (insert_id _ _ _ Hl). now destruct p. }
  split; [now rewrite !length_alter |]. split.
  - rewrite !list_lookup_alter_eq. destruct (ns !! n) as [x |]; reflexivity.
  - intros m Hm. rewrite !list_lookup_alter_ne by congruence. reflexivity.
Qed.

Lemma pool_put_get_round_trip_witness :
  fst (fst (InternalNodePool_get tenItems_config 0
              (fst (InternalNodePool_put (Some 1%nat) 0
                      (InternalNodePool_new [prefabNode 100 50])
                      [prefabNode 100 50; prefabNode 100 50]))
              (snd (InternalNodePool_put (Some 1%nat) 0
                      (InternalNodePool_new [prefabNode 100 50])
                      [prefabNode 100 50; prefabNode 100 50]))))
  = Some 1%nat.
Proof.
  pose proof (pool_put_get_round_trip tenItems_config
                (InternalNodePool_new [prefabNode 100 50])
                [prefabNode 100 50; prefabNode 100 50] 1%nat 0
                ltac:(rewrite (pool_new_is_Some [prefabNode 100 50] 0 ltac:(cbn; lia));
                      eexists; reflexivity)) as H.
  destruct (InternalNodePool_put _ _ _ _) as [p1 ns1]. cbn [fst snd].
  destruct (InternalNodePool_get _ _ _ _) as [[got p2] ns2]. cbn [fst].
  exact (proj1 H).
Defined.

(** A fresh pool: [getStats] reports one idle list per prefab, all empty,
    and nothing for any other type; the first [get] of a prefab type
    instantiates the prefab as a new node and leaves the pool alone; [get]
    of any other type returns [null] and creates nothing; [put] under such
    a type destroys the node instead of keeping it. *)
Theorem pool_new_behaviour (cfg : Config) (ns : list Node) (t : Z) :
  let p := InternalNodePool_new (itemPrefabs cfg) in
  InternalNodePool_getStats p !! t
  = (if (0 <=? t) && (t <? Z.of_nat (length (itemPrefabs cfg))) then Some 0%nat else None)
  /\ match at_ (itemPrefabs cfg) t with
     | Some template =>
         InternalNodePool_get cfg t p ns = (Some (length ns), p, ns ++ [template])
     | None =>
         InternalNodePool_get cfg t p ns = (None, p, ns)
         /\ forall n, InternalNodePool_put (Some n) t p ns = (p, alter node_destroy n ns)
     end.
Proof.
  intros p. subst p. unfold InternalNodePool_getStats, InternalNodePool_get, InternalNodePool_put.
  rewrite lookup_fmap.
  destruct (Z.leb_spec 0 t) as [H0 | H0]; cbn [andb].
  - destruct (Z.ltb_spec t (Z.of_nat (length (itemPrefabs cfg)))) as [H1 | H1].
    + rewrite (pool_new_is_Some (itemPrefabs cfg) t (conj H0 H1)).
      split; [reflexivity |].
      unfold at_. destruct (Z.ltb_spec t 0); [lia |].
      destruct (itemPrefabs cfg !! Z.to_nat t) as [x |] eqn:E; [reflexivity |].
      apply lookup_ge_None in E. lia.
    + assert (Hn : pools (InternalNodePool_new (itemPrefabs cfg)) !! t = None).
      { destruct (pools _ !! t) as [l |] eqn:E; [| reflexivity].
        apply pool_new_lookup in E. lia. }
      rewrite Hn. split; [reflexivity |].
      unfold at_. destruct (Z.ltb_spec t 0); [lia |].
      destruct (itemPrefabs cfg !! Z.to_nat t) as [x |] eqn:E.
      * apply lookup_lt_Some in E. lia.
      * split; [reflexivity | intros n; reflexivity].
  - assert (Hn : pools (InternalNodePool_new (itemPrefabs cfg)) !! t = None).
    { destruct (pools _ !! t) as [l |] eqn:E; [| reflexivity].
      apply pool_new_lookup in E. lia. }
    rewrite Hn. split; [reflexivity |].
    unfold at_. destruct (Z.ltb_spec t 0); [| lia].
    split; [reflexivity | intros n; reflexivity].
Qed.

Lemma destroy_all_lookup (l : list NodeId) (ns : list Node) (n : NodeId) :
  foldr (fun m acc => alter node_destroy m acc) ns l !! n
  = if decide (n ∈ l) then node_destroy <$> ns !! n else ns !! n.
Proof.
  induction l as [| m rest IH]; cbn [foldr].
  - destruct (decide (n ∈ [])) as [H | _]; [| reflexivity]. now apply elem_of_nil in H.
  - destruct (decide (m = n)) as [-> | Hne].
    + rewrite list_lookup_alter_eq, IH.
      destruct (decide (n ∈ n :: rest)) as [_ | H]; [| exfalso; apply H; left].
      destruct (decide (n ∈ rest)); destruct (ns !! n) as [x |]; reflexivity.
    + rewrite list_lookup_alter_ne by exact Hne. rewrite IH.
      destruct (decide (n ∈ rest)) as [H | H];
        destruct (decide (n ∈ m :: rest)) as [H' | H']; try reflexivity.
      * exfalso. apply H'. now right.
      * exfalso. apply elem_of_cons in H' as [-> | H']; [now apply Hne | now apply H].
Qed.

Lemma idle_in_concat (p : InternalNodePool) (n : NodeId) :
  n ∈ concat (snd <$> map_to_list (pools p)) <-> idle_in p n.
Proof.
  rewrite list_elem_of_In, in_concat. unfold idle_in. split.
  - intros (l & Hl & Hn). apply list_elem_of_In, list_elem_of_fmap in Hl as ([t l'] & -> & Hm).
    apply elem_of_map_to_list in Hm. exists t, l'. split; [exact Hm |].
    now apply list_elem_of_In.
  - intros (t & l & Hm & Hn). exists l. split; [| now apply list_elem_of_In].
    apply list_elem_of_In, list_elem_of_fmap. exists (t, l). split; [reflexivity |].
    now apply elem_of_map_to_list.
Qed.

(** [onDestroy] on a list whose nodes have one owner each: the pool is
    dropped; every node that was idle in it is destroyed; the nodes that
    the slots hold, and every other node, are left as they are; nothing
    else of the component changes, and a second [onDestroy] does
    nothing. *)
Theorem onDestroy_destroys_idle_nodes (cfg : Config) (st : State) (p : InternalNodePool) :
  owned cfg st -> _nodePool (win st) = Some p ->
  let st' := onDestroy st in
  _nodePool (win st') = None
  /\ (forall n, idle_in p n ->
        exists node, nodes (win st) !! n = Some node
          /\ nodes (win st') !! n = Some (node_destroy node))
  /\ (forall n, ~ idle_in p n -> nodes (win st') !! n = nodes (win st) !! n)
  /\ (forall n, held st n -> ~ idle_in p n)
  /\ _slotNodes (win st') = _slotNodes (win st)
  /\ tbl st' = tbl st /\ ges st' = ges st /\ mot st' = mot st
  /\ onDestroy st' = st'.
Proof.
  intros Hown Hp st'. subst st'. unfold onDestroy. rewrite Hp.
  cbn [win with_win _nodePool nodes _slotNodes tbl ges mot InternalNodePool_clear snd].
  split; [reflexivity |]. split; [| split; [| split]].
  - intros n Hidle. pose proof Hidle as (t & l & Hl & Hn).
    destruct (owned_idle cfg st Hown p Hp) as [Hlists _].
    destruct (Hlists t l Hl) as [_ Hmem]. destruct (Hmem n Hn) as [_ Hlt].
    destruct (lookup_lt_is_Some_2 (nodes (win st)) n Hlt) as [node Hnode].
    exists node. split; [exact Hnode |].
    rewrite destroy_all_lookup, Hnode.
    destruct (decide (n ∈ concat (snd <$> map_to_list (pools p)))) as [_ | H];
      [reflexivity |].
    exfalso. apply H, idle_in_concat, Hidle.
  - intros n Hn. rewrite destroy_all_lookup.
    destruct (decide (n ∈ concat (snd <$> map_to_list (pools p)))) as [H | _];
      [| reflexivity].
    exfalso. apply Hn, idle_in_concat, H.
  - intros n Hheld (t & l & Hl & Hn).
    destruct (owned_idle cfg st Hown p Hp) as [Hlists _].
    destruct (Hlists t l Hl) as [_ Hmem]. destruct (Hmem n Hn) as [Hnot _].
    exact (Hnot Hheld).
  - repeat split; reflexivity.
Qed.

Lemma onDestroy_destroys_idle_nodes_witness :
  _nodePool (win (onDestroy (started tenItems_config 10 100))) = None.
Proof.
  destruct (initDynamicSizeMode_inv 1 tenItems_config 10 100 tenItems_layout_config
              eq_refl ltac:(lia) ltac:(unfold Qle; cbn; lia) ltac:(cbn; lia))
    as (st0 & E0 & Hinv0 & _).
  assert (Hst : started tenItems_config 10 100 = st0).
  { unfold started. rewrite E0. reflexivity. }
  rewrite Hst.
  destruct (wf_pool _ _ (inv_wf _ _ Hinv0) eq_refl) as [p Hp].
  exact (proj1 (onDestroy_destroys_idle_nodes tenItems_config st0 p
                  (inv_owned _ _ Hinv0) Hp)).
Defined.

(** ** Programmatic scrolling *)

Lemma clamp_between (x lo hi : Q) : (lo <= hi)%Q -> (lo <= clamp x lo hi <= hi)%Q.
Proof.
  intros H. unfold clamp. split.
  - apply Q.le_max_l.
  - apply Q.max_lub; [exact H | apply Q.le_min_l].
Qed.

(** A jump without animation on a laid-out list ([flashToTop],
    [flashToBottom], [flashToIndex], and the [scrollTo...] methods called
    without animation, which do exactly the same): the call returns; the
    content lands on the target clamped to the scroll bounds and pixel
    aligned; all motion stops (no velocity, no touch, no tween, no drag
    samples); the gestures and the size table are untouched; the list is
    laid out for the new position.  Without pixel alignment, and with
    bounds in order, the content lies within the bounds. *)
Theorem flashToPosition_lands (fuel : nat) (cfg : Config) (pos : Q) (st : State) :
  layout_config cfg -> list_inv cfg st ->
  exists st',
    _flashToPosition (S fuel) cfg pos st = Some st'
    /\ _scrollToPosition (S fuel) cfg pos false st = Some (st', None)
    /\ contentPos (mot st')
       = align cfg (clamp pos (_boundsMin (tbl st)) (_boundsMax (tbl st)))
    /\ _velocity (mot st') = 0%Q /\ _isTouching (mot st') = false
    /\ _scrollTween (mot st') = false /\ _velSamples (mot st') = []
    /\ ges st' = ges st /\ tbl st' = tbl st
    /\ window_ok st'
    /\ (pixelAlign cfg = false -> (_boundsMin (tbl st) <= _boundsMax (tbl st))%Q ->
        (_boundsMin (tbl st') <= contentPos (mot st') <= _boundsMax (tbl st'))%Q).
Proof.
  intros Hcfg Hinv. unfold _flashToPosition, _scrollToPosition. cbn [negb].
  set (target := clamp pos (_boundsMin (tbl st)) (_boundsMax (tbl st))).
  set (st1 := _setContentMainPos cfg (align cfg target) (haltMotion st)).
  destruct (updateVisible_inv (updateItemHeight (S fuel) cfg) cfg Hcfg true st1)
    as (st' & E & Hinv' & Hwin & _).
  { eapply list_inv_same_list; [| exact Hinv]. now repeat split. }
  exists st'. unfold updateVisible. rewrite E. cbn [mbind option_bind].
  split; [reflexivity |]. split; [reflexivity |].
  assert (Hm : mot st' = mot st1) by (rewrite Hwin; reflexivity).
  assert (Hg : ges st' = ges st) by (rewrite Hwin; reflexivity).
  assert (Ht : tbl st' = tbl st) by (rewrite Hwin; reflexivity).
  assert (Hp : contentPos (mot st') = align cfg target).
  { rewrite Hm. subst st1. cbn. apply align_idem. }
  rewrite Hm, Hg, Ht. rewrite Hm in Hp. rewrite Hp.
  repeat (split; [reflexivity |]).
  split; [exact (inv_shown cfg st' Hinv') |].
  intros Hpa Hb. unfold align. rewrite Hpa. subst target. now apply clamp_between.
Qed.

Lemma flashToPosition_lands_witness :
  exists st',
    _flashToPosition 1 tenItems_config 170 (started tenItems_config 10 100) = Some st'
    /\ contentPos (mot st') = 170%Q.
Proof.
  destruct (initDynamicSizeMode_inv 1 tenItems_config 10 100 tenItems_layout_config
              eq_refl ltac:(lia) ltac:(unfold Qle; cbn; lia) ltac:(cbn; lia))
    as (st0 & E0 & Hinv0 & _).
  assert (Hst : started tenItems_config 10 100 = st0).
  { unfold started. rewrite E0. reflexivity. }
  destruct (flashToPosition_lands 0 tenItems_config 170 st0 tenItems_layout_config Hinv0)
    as (st' & E & _ & Hp & _).
  exists st'. rewrite Hst. split; [exact E |].
  rewrite Hp, <- Hst. clear. vm_compute. reflexivity.
Defined.

(** An animated scroll on a laid-out list: the call returns at once with a
    tween towards the clamped target that lasts at least 0.2 s; the content
    has not moved yet, the velocity is zero and the list is as it was.
    While the tween runs, frame ticks and touch moves change nothing.  When
    the tween arrives, the content is on the target, the tween is dropped,
    the velocity is zero and the list is laid out for that position. *)
Theorem scrollToPosition_animated (fuel : nat) (cfg : Config) (pos : Q) (st : State) :
  layout_config cfg -> list_inv cfg st ->
  exists st1 tw st2,
    _scrollToPosition fuel cfg pos true st = Some (st1, Some tw)
    /\ target tw = clamp pos (_boundsMin (tbl st)) (_boundsMax (tbl st))
    /\ (2 # 10 <= duration tw)%Q
    /\ contentPos (mot st1) = contentPos (mot st)
    /\ _velocity (mot st1) = 0%Q /\ _scrollTween (mot st1) = true
    /\ same_list st st1 /\ ges st1 = ges st
    /\ (forall dt, update fuel cfg dt st1 = Some st1)
    /\ (forall e, _onMove fuel cfg e st1 = Some st1)
    /\ tween_finished (S fuel) cfg tw st1 = Some st2
    /\ contentPos (mot st2) = target tw
    /\ _velocity (mot st2) = 0%Q /\ _scrollTween (mot st2) = false
    /\ window_ok st2.
Proof.
  intros Hcfg Hinv. unfold _scrollToPosition. cbn [negb].
  set (h := haltMotion st).
  set (st1 := with_mot h
                (mkMotion (contentPos (mot h)) (_velocity (mot h)) (_isTouching (mot h))
                   (_velSamples (mot h)) true)).
  set (tw := mkTween
               (Qmax (2 # 10)
                  (Qabs (clamp pos (_boundsMin (tbl st)) (_boundsMax (tbl st))
                         - contentPos (mot h)) / 3000))
               (clamp pos (_boundsMin (tbl st)) (_boundsMax (tbl st)))).
  exists st1, tw.
  assert (Hsame : same_list st st1) by now repeat split.
  destruct (updateVisible_inv (updateItemHeight (S fuel) cfg) cfg Hcfg true
              (with_mot st1
                 (mkMotion (target tw) (_velocity (mot st1)) (_isTouching (mot st1))
                    (_velSamples (mot st1)) (_scrollTween (mot st1)))))
    as (st2 & E & Hinv2 & Hwin & _).
  { eapply list_inv_same_list; [| exact Hinv]. now repeat split. }
  exists (with_mot st2
            (mkMotion (contentPos (mot st2)) 0 (_isTouching (mot st2))
               (_velSamples (mot st2)) false)).
  split; [reflexivity |]. split; [reflexivity |].
  split; [subst tw; cbn [duration]; apply Q.le_max_l |].
  split; [reflexivity |]. split; [reflexivity |]. split; [reflexivity |].
  split; [exact Hsame |]. split; [reflexivity |].
  split; [intros dt; reflexivity |].
  split; [intros e; reflexivity |].
  split.
  { unfold tween_finished, updateVisible. cbv zeta. rewrite E. reflexivity. }
  split; [cbn; rewrite Hwin; reflexivity |].
  split; [reflexivity |]. split; [reflexivity |].
  intros s Hs. exact (inv_shown cfg st2 Hinv2 s Hs).
Qed.

Lemma scrollToPosition_animated_witness :
  exists st1 tw,
    _scrollToPosition 0 tenItems_config 170 true (started tenItems_config 10 100)
    = Some (st1, Some tw)
    /\ target tw = 170%Q.
Proof.
  destruct (initDynamicSizeMode_inv 1 tenItems_config 10 100 tenItems_layout_config
              eq_refl ltac:(lia) ltac:(unfold Qle; cbn; lia) ltac:(cbn; lia))
    as (st0 & E0 & Hinv0 & _).
  assert (Hst : started tenItems_config 10 100 = st0).
  { unfold started. rewrite E0. reflexivity. }
  destruct (scrollToPosition_animated 0 tenItems_config 170 st0 tenItems_layout_config
              Hinv0) as (st1 & tw & st2 & E & Ht & _).
  exists st1, tw. rewrite Hst. split; [exact E |].
  rewrite Ht, <- Hst. clear. vm_compute. reflexivity.
Defined.
